(** * Document classification against a topic catalog

    A shallow embedding of the two programs of the repository,

    - [documentCategorization/main.cpp], the single-process classifier, and
    - [paralelCategorization/main.cpp], the MPI manager/worker classifier,

    together with the properties their description states about them.

    Conventions of the embedding.

    - A [std::string] is a [string]; its bytes are [ascii] values, compared as
      unsigned bytes, which is what [std::less<std::string>] does.
    - A [size_t] position or container size is a [nat]: every such value in the
      programs is bounded by the size of a string or vector held in memory.
      [std::string::npos] is [None].
    - An [int] is a [Z].  [count++] on an [int] holding [INT_MAX] is undefined
      in C++; the embedding says so ([Undefined]) instead of inventing a value.
      A conversion from [size_t] to [int] wraps, and the wrap is written out
      ([to_int]).
    - Loops that the source does not bound take a [fuel] argument, the number
      of iterations a single run of the loop may make; [OutOfFuel] is the
      outcome when the fuel runs out.
    - The vector that the single-process matcher fills inside such a loop
      cannot grow for ever: [memory] is the number of elements it can grow to,
      and [push_back] beyond it throws [std::bad_alloc].
    - The catalog, a [std::map<std::string, std::vector<std::string>>], is the
      list of its entries in iteration order, that is, in increasing key
      order.
    - A process is described by the calls it makes, in program order, and by
      the way it ends.  What it reads from outside comes in as arguments: the
      file system, whether the results file opens for writing and, once
      written, for reading, the list of documents that
      [getAllFilesInDirectory] returns, and for a worker the messages it
      receives and the bytes that follow its receive buffer in memory.  Output
      on [std::cout] is left out. *)

From Stdlib Require Import ZArith Lia List Sorted Ascii String DecimalString DecimalZ.
From stdpp Require Import base list strings gmap.

(** ** Outcomes *)

Inductive outcome (A : Type) : Type :=
| Ret (a : A)            (* normal completion *)
| Throw (what : string)  (* an exception nobody catches *)
| Undefined              (* behaviour the C++ standard leaves undefined *)
| OutOfFuel                (* the fuel of a loop ran out *)
| Aborted (code : Z).    (* the process was ended by MPI_Abort *)

Arguments Ret {A} a.
Arguments Throw {A} what.
Arguments Undefined {A}.
Arguments OutOfFuel {A}.
Arguments Aborted {A} code.

Definition outcome_bind {A B : Type} (m : outcome A) (k : A -> outcome B) : outcome B :=
  match m with
  | Ret a => k a
  | Throw what => Throw what
  | Undefined => Undefined
  | OutOfFuel => OutOfFuel
  | Aborted code => Aborted code
  end.

Notation "'do' x <- m ; k" := (outcome_bind m (fun x => k))
  (at level 10, x pattern, m at level 100, k at level 200,
   format "'[v' 'do'  x  <-  m ; '/' k ']'").

Definition returns {A : Type} (m : outcome A) : Prop := exists a, m = Ret a.

(** ** 32-bit [int] *)

Definition INT_MAX : Z := 2147483647.

(** [static_cast<int>] of an unsigned value: reduction modulo 2^32 into the
    signed range. *)
Definition to_int (z : Z) : Z := ((z + 2 ^ 31) mod 2 ^ 32 - 2 ^ 31)%Z.

(** [count++] of an [int]. *)
Definition incr (count : Z) : outcome Z :=
  if (count <? INT_MAX)%Z then Ret (count + 1)%Z else Undefined.

(** [a + b] on two [int]s: a sum outside the range is undefined. *)
Definition add_int (a b : Z) : outcome Z :=
  if (- INT_MAX - 1 <=? a + b)%Z && (a + b <=? INT_MAX)%Z then Ret (a + b)%Z
  else Undefined.

(** [v[i]] with an [int i]: the index is converted to [size_t], so a
    negative one lies beyond every vector. *)
Definition index_of_int (i : Z) : option nat :=
  if (i <? 0)%Z then None else Some (Z.to_nat i).

(** ** The parts of [std::string] and of the streams that the programs use *)

Module Std.

(** [s.find(term, pos)] *)
Definition find (s term : string) (pos : nat) : option nat :=
  String.index pos term s.

(** [s.substr(pos, n)]; throws [std::out_of_range] when [pos > s.size()]. *)
Definition substr (s : string) (pos n : nat) : outcome string :=
  if pos <=? String.length s then Ret (String.substring pos n s)
  else Throw "basic_string::substr".

(** [s.substr(pos)] *)
Definition substr_from (s : string) (pos : nat) : outcome string :=
  substr s pos (String.length s - pos).

(** The suffix of [s] from position [n] on. *)
Fixpoint sdrop (n : nat) (s : string) : string :=
  match n, s with
  | O, _ => s
  | S n', EmptyString => EmptyString
  | S n', String _ s' => sdrop n' s'
  end.

(** [has_char c s]: the byte [c] occurs in [s]. *)
Fixpoint has_char (c : ascii) (s : string) : bool :=
  match s with
  | EmptyString => false
  | String a s' => if Ascii.eqb a c then true else has_char c s'
  end.

(** One successful [std::getline(in, str, delim)] on a stream whose unread
    content is [inp]: the bytes before the first [delim] go to [str], the
    delimiter is consumed and the rest stays unread; with no delimiter left
    everything is read. *)
Fixpoint getline_split (inp : string) (delim : ascii) : string * string :=
  match inp with
  | EmptyString => (EmptyString, EmptyString)
  | String a rest =>
      if Ascii.eqb a delim then (EmptyString, rest)
      else let '(str, rest') := getline_split rest delim in (String a str, rest')
  end.

(** [std::getline(in, str, delim)]: fails (the stream turns false) when no
    byte at all could be extracted. *)
Definition getline (inp : string) (delim : ascii) : option (string * string) :=
  match inp with
  | EmptyString => None
  | _ => Some (getline_split inp delim)
  end.

(** [while (std::getline(in, str, delim)) { ... str ... }]: the successive
    values of [str].  Each round consumes at least one byte. *)
Fixpoint getline_loop (fuel : nat) (inp : string) (delim : ascii) : list string :=
  match fuel with
  | O => []
  | S fuel' =>
      match getline inp delim with
      | None => []
      | Some (str, rest) => str :: getline_loop fuel' rest delim
      end
  end.

Definition getlines (inp : string) (delim : ascii) : list string :=
  getline_loop (String.length inp) inp delim.

(** [os << p] for a [char* p]: the bytes up to the first zero byte. *)
Fixpoint c_str (mem : string) : string :=
  match mem with
  | EmptyString => EmptyString
  | String a rest => if Ascii.eqb a "000"%char then EmptyString else String a (c_str rest)
  end.

(** [v[i]] on a [std::vector]: no bounds check, undefined out of range. *)
Definition at_index {A : Type} (v : list A) (i : nat) : outcome A :=
  match v !! i with
  | Some x => Ret x
  | None => Undefined
  end.

End Std.

(** ** The catalog: [std::map<std::string, std::vector<std::string>>] *)

Module Catalog.

Definition entry : Type := string * list string.
Definition t : Type := list entry.

(** The state of the global [catalog] when a process starts. *)
Definition empty : t := [].

Definition key_lt (a b : entry) : Prop := String.compare a.1 b.1 = Lt.

(** The states a [std::map] can be in: keys strictly increasing. *)
Definition wf (c : t) : Prop := StronglySorted key_lt c.

(** [catalog.emplace(topic, identifiers)]: inserts unless the key is there. *)
Fixpoint emplace (topic : string) (identifiers : list string) (c : t) : t :=
  match c with
  | [] => [(topic, identifiers)]
  | (k, v) :: c' =>
      match String.compare topic k with
      | Lt => (topic, identifiers) :: c
      | Eq => c
      | Gt => (k, v) :: emplace topic identifiers c'
      end
  end.

(** [catalog[category] = items]: inserts, or replaces the mapped value. *)
Fixpoint assign (category : string) (items : list string) (c : t) : t :=
  match c with
  | [] => [(category, items)]
  | (k, v) :: c' =>
      match String.compare category k with
      | Lt => (category, items) :: c
      | Eq => (category, items) :: c'
      | Gt => (k, v) :: assign category items c'
      end
  end.

Definition topics (c : t) : list string := map fst c.
Definition keywords (c : t) : list string := concat (map snd c).

End Catalog.

(** ** Processes: what a rank does, in program order *)

Inductive message : Type :=
| MInt (n : Z)
| MChars (bytes : string).

(** The calls a process makes that another party can observe.  Nothing
    written to [std::cout] is recorded. *)
Inductive event : Type :=
| Cerr (line : string)                    (* a line on std::cerr *)
| MPI_Abort (code : Z)
| MPI_Bcast (m : message)                 (* root 0: sent by rank 0, received by the others *)
| MPI_Barrier
| MPI_Send (dest : nat) (m : message)
| MPI_Recv (m : message)                  (* from rank 0 *)
| FileAppend (path : string) (data : string)
| FileWrite (path : string) (data : string).

Record proc (A : Type) : Type := Proc { trace : list event; result : outcome A }.

Arguments Proc {A} trace result.
Arguments trace {A} p.
Arguments result {A} p.

Definition proc_ret {A : Type} (a : A) : proc A := Proc [] (Ret a).

Definition lift {A : Type} (m : outcome A) : proc A := Proc [] m.

Definition emit (e : event) : proc unit := Proc [e] (Ret tt).

Definition proc_bind {A B : Type} (m : proc A) (k : A -> proc B) : proc B :=
  match result m with
  | Ret a => Proc (trace m ++ trace (k a)) (result (k a))
  | Throw what => Proc (trace m) (Throw what)
  | Undefined => Proc (trace m) Undefined
  | OutOfFuel => Proc (trace m) OutOfFuel
  | Aborted code => Proc (trace m) (Aborted code)
  end.

Notation "'run' x <- m ; k" := (proc_bind m (fun x => k))
  (at level 10, x pattern, m at level 100, k at level 200,
   format "'[v' 'run'  x  <-  m ; '/' k ']'").

Notation "m ;; k" := (proc_bind m (fun _ => k))
  (at level 100, k at level 200, right associativity).

(** An event by which a process reaches another one. *)
Definition communicates (e : event) : bool :=
  match e with
  | MPI_Bcast _ | MPI_Barrier | MPI_Send _ _ | MPI_Recv _ => true
  | _ => false
  end.

(** The documents sent to rank [i]. *)
Definition sent_documents (i : nat) (tr : list event) : list string :=
  omap (fun e => match e with
                 | MPI_Send dest (MChars doc) => if dest =? i then Some doc else None
                 | _ => None
                 end) tr.

(** The file system a process reads: the content of a path, if it opens. *)
Definition files : Type := string -> option string.

(** [os << n] for an [int]. *)
Definition show_int (n : Z) : string := NilZero.string_of_int (Z.to_int n).

(** ** [tokenize], the same function in both programs *)

(** The [while (end != npos)] loop of [tokenize].  [start] and [end] are
    positions in [s]; [end - start] cannot wrap because [find] searches from
    [start] on. *)
Fixpoint tokenize_loop (fuel : nat) (s del : string) (tokens : list string)
    (start : nat) (end_ : option nat) : outcome (list string) :=
  match end_ with
  | None =>
      do token <- Std.substr_from s start;
      Ret (tokens ++ [token])
  | Some e =>
      match fuel with
      | O => OutOfFuel
      | S fuel' =>
          do token <- Std.substr s start (e - start);
          let start' := e + String.length del in
          tokenize_loop fuel' s del (tokens ++ [token]) start' (Std.find s del start')
      end
  end.

(** Every delimiter found lies at or after [start], so a non-empty delimiter
    is found at most [size(s)] times. *)
Definition tokenize (s del : string) : outcome (list string) :=
  tokenize_loop (S (String.length s)) s del [] 0 (Std.find s del 0).

(** The body of [readCatalog]'s loop over the lines of the catalog file. *)
Fixpoint read_lines (lines : list string) (catalog : Catalog.t) : outcome Catalog.t :=
  match lines with
  | [] => Ret catalog
  | line :: rest =>
      do vector <- tokenize line "@%";
      do topic <- Std.at_index vector 0;
      do identifiers <- Std.at_index vector 1;
      do keywords <- tokenize identifiers ",";
      read_lines rest (Catalog.emplace topic keywords catalog)
  end.

(** [readCatalog()], on the catalog file at [path]. *)
Definition readCatalog_at (path : string) (fs : files) (catalog : Catalog.t) : proc Catalog.t :=
  match fs path with
  | None =>
      emit (Cerr "Error opening the file!") ;;
      lift (Throw "Catalog file does not exist")
  | Some content => lift (read_lines (Std.getlines content "010") catalog)
  end.

(** [while (getline(inputFile, line)) text += line;] *)
Definition read_text (content : string) : string :=
  String.concat "" (Std.getlines content "010").

(** ** [paralelCategorization/main.cpp] *)

Module Paralel.

Definition readCatalog : files -> Catalog.t -> proc Catalog.t :=
  readCatalog_at "./actualCatalog.txt".

Record SearchResult : Type :=
  { fileName : string; TopicsList : list (string * Z) }.

(** The line [writeResultsToFile] builds for one result. *)
Definition result_line (r : SearchResult) : string :=
  fileName r +:+ ":" +:+ String "009" "" +:+
  fold_right (fun '(topic, matchCount) rest =>
                topic +:+ ";" +:+ show_int matchCount +:+ "," +:+ String "009" "" +:+ rest)
             (String "010" "") (TopicsList r).

(** [writeResultsToFile(match)]; [writable] tells whether the results file
    opens for appending. *)
Definition writeResultsToFile (writable : bool) (r : SearchResult) : proc unit :=
  if writable then emit (FileAppend "classification_results.txt" (result_line r))
  else emit (Cerr "Error opening file for writing!").

(** [getFileNameFromPath]: the last component of a path. *)
Fixpoint getFileNameFromPath (filePath : string) : string :=
  match filePath with
  | EmptyString => EmptyString
  | String _ rest =>
      if Std.has_char "/" filePath then getFileNameFromPath rest else filePath
  end.

(** The [while (pos != npos)] loop for one [term]. *)
Fixpoint count_term (fuel : nat) (text term : string) (pos : option nat) (count : Z)
    : outcome Z :=
  match pos with
  | None => Ret count
  | Some p =>
      match fuel with
      | O => OutOfFuel
      | S fuel' =>
          let pos' := Std.find text term (p + String.length term) in
          do count' <- incr count;
          count_term fuel' text term pos' count'
      end
  end.

(** The loop over the identifiers of one topic. *)
Fixpoint count_identifiers (fuel : nat) (text : string) (identifiers : list string)
    (count : Z) : outcome Z :=
  match identifiers with
  | [] => Ret count
  | term :: rest =>
      do count' <- count_term fuel text term (Std.find text term 0) count;
      count_identifiers fuel text rest count'
  end.

(** The loop over the catalog. *)
Fixpoint classify_topics (fuel : nat) (text : string) (catalog : Catalog.t)
    (TopicsList : list (string * Z)) : outcome (list (string * Z)) :=
  match catalog with
  | [] => Ret TopicsList
  | (topic, identifiers) :: rest =>
      do count <- count_identifiers fuel text identifiers 0;
      classify_topics fuel text rest (TopicsList ++ [(topic, count)])
  end.

(** The matcher: the part of [classifyDocument] between reading the text
    and writing the result. *)
Definition classify (fuel : nat) (text : string) (catalog : Catalog.t)
    : outcome (list (string * Z)) :=
  classify_topics fuel text catalog [].

(** [classifyDocument(filePath)] *)
Definition classifyDocument (fuel : nat) (fs : files) (writable : bool)
    (catalog : Catalog.t) (filePath : string) : proc unit :=
  match fs filePath with
  | None =>
      emit (Cerr "Error opening the file!") ;;
      lift (Throw "Catalog file does not exist")
  | Some content =>
      run topics <- lift (classify fuel (read_text content) catalog);
      writeResultsToFile writable
        {| fileName := getFileNameFromPath filePath; TopicsList := topics |}
  end.

(** *** The catalog on the wire *)

Definition encode_items (items : list string) : string :=
  fold_right (fun item rest => item +:+ "," +:+ rest) "" items.

(** The serialisation loop of rank 0. *)
Definition encode (catalog : Catalog.t) : string :=
  fold_right (fun '(topic, items) rest =>
                topic +:+ ":" +:+ encode_items items +:+ ";" +:+ rest) "" catalog.

(** The body of the worker's [while (std::getline(ss, entry, ';'))]. *)
Definition decode_entry (catalog : Catalog.t) (entry : string) : Catalog.t :=
  let '(category, rest) :=
    match Std.getline entry ":" with
    | Some split => split
    | None => (EmptyString, EmptyString)
    end in
  Catalog.assign category (Std.getlines rest ",") catalog.

Definition decode (ss : string) (catalog : Catalog.t) : Catalog.t :=
  fold_left decode_entry (Std.getlines ss ";") catalog.

(** What a worker is handed: the bytes the broadcast delivers into its
    buffer, the bytes that happen to follow that buffer in memory (the
    buffer has room for the catalog only, and [ss << received_catalog]
    reads on until a zero byte), and the documents rank 0 sends it. *)
Record inbox : Type :=
  { wire : string; beyond : string; assignment : list string }.

(** The catalog a worker ends up with. *)
Definition received_catalog (i : inbox) : Catalog.t :=
  decode (Std.c_str (wire i +:+ beyond i)) Catalog.empty.

(** The worker's loop over its documents. *)
Fixpoint receive_documents (fuel : nat) (fs : files) (writable : bool)
    (catalog : Catalog.t) (documents : list string) : proc unit :=
  match documents with
  | [] => proc_ret tt
  | document :: rest =>
      emit (MPI_Recv (MInt (Z.of_nat (String.length document) + 1))) ;;
      emit (MPI_Recv (MChars document)) ;;
      classifyDocument fuel fs writable catalog (Std.c_str document) ;;
      receive_documents fuel fs writable catalog rest
  end.

(** The [else] branch of [main]: ranks other than 0. *)
Definition worker (fuel : nat) (fs : files) (writable : bool) (i : inbox) : proc unit :=
  emit (MPI_Bcast (MInt (Z.of_nat (String.length (wire i))))) ;;
  emit (MPI_Bcast (MChars (wire i))) ;;
  let catalog := received_catalog i in
  emit (MPI_Recv (MInt (Z.of_nat (length (assignment i))))) ;;
  receive_documents fuel fs writable catalog (assignment i).

(** *** Dispatch *)

(** The inner loop [for (int j = 0; j < numDocsToSend; ++j)], with [todo]
    rounds left.  [startIdx] is an [int]; [docSize] is the size of the name
    and its terminator, converted to [int]. *)
Fixpoint send_documents (documents : list string) (i todo : nat) (startIdx : Z)
    : proc Z :=
  match todo with
  | O => proc_ret startIdx
  | S todo' =>
      run document <- lift (match index_of_int startIdx with
                            | Some idx => Std.at_index documents idx
                            | None => Undefined
                            end);
      let docSize := to_int (Z.of_nat (String.length document) + 1) in
      emit (MPI_Send i (MInt docSize)) ;;
      emit (MPI_Send i (MChars document)) ;;
      run startIdx' <- lift (incr startIdx);
      send_documents documents i todo' startIdx'
  end.

(** The outer loop [for (int i = ...; i < size; ++i)], with [todo] rounds
    left.  The shares are [int]s; a share that is not positive sends no
    document. *)
Fixpoint dispatch_loop (documents : list string)
    (numDocumentsPerWorker remainingDocuments : Z) (todo i : nat) (startIdx : Z)
    : proc unit :=
  match todo with
  | O => proc_ret tt
  | S todo' =>
      run numDocsToSend <-
        lift (add_int numDocumentsPerWorker
                (if (Z.of_nat i <=? remainingDocuments)%Z then 1 else 0));
      emit (MPI_Send i (MInt numDocsToSend)) ;;
      run startIdx' <- send_documents documents i (Z.to_nat numDocsToSend) startIdx;
      dispatch_loop documents numDocumentsPerWorker remainingDocuments todo' (S i) startIdx'
  end.

(** The second [if (rank == 0)] block, after the directory was listed.  The
    quotient and the remainder are computed in [size_t] and stored in
    [int]s. *)
Definition dispatch (documents : list string) (size : nat) : proc unit :=
  let numDocumentsPerWorker := to_int (Z.of_nat (length documents / (size - 1))) in
  let remainingDocuments := to_int (Z.of_nat (length documents mod (size - 1))) in
  dispatch_loop documents numDocumentsPerWorker remainingDocuments (size - 1) 1 0.

(** [main] on rank 0.  [documents] is what [getAllFilesInDirectory]
    returns. *)
Definition manager (fs : files) (documents : list string) (size : nat) : proc Z :=
  run catalog <- readCatalog fs Catalog.empty;
  let serialized_catalog := encode catalog in
  emit (MPI_Bcast (MInt (to_int (Z.of_nat (String.length serialized_catalog))))) ;;
  emit (MPI_Bcast (MChars serialized_catalog)) ;;
  emit MPI_Barrier ;;
  dispatch documents size ;;
  proc_ret 0%Z.

(** [main] on a rank of [size] processes. *)
Definition main (fuel : nat) (fs : files) (writable : bool) (documents : list string)
    (i : inbox) (rank size : nat) : proc Z :=
  if size <? 2 then
    emit (Cerr "At least 2 processes are required: 1 manager and 1 worker.") ;;
    emit (MPI_Abort 1) ;;
    lift (Aborted 1)
  else if rank =? 0 then manager fs documents size
  else
    emit MPI_Barrier ;;
    worker fuel fs writable i ;;
    proc_ret 0%Z.

End Paralel.

(** ** Reading a number from a stream *)

Module Stream.

Definition INT_MIN : Z := (- INT_MAX - 1)%Z.

(** The value is one of an [int]. *)
Definition fits (n : Z) : bool := (INT_MIN <=? n)%Z && (n <=? INT_MAX)%Z.

(** [std::isspace] in the classic locale: the space and the control
    characters from the tab to the carriage return. *)
Definition isspace (c : ascii) : bool :=
  let n := nat_of_ascii c in (n =? 32) || ((9 <=? n) && (n <=? 13)).

(** The value of a decimal digit. *)
Definition digit (c : ascii) : option Z :=
  let n := nat_of_ascii c in
  if (48 <=? n) && (n <=? 57) then Some (Z.of_nat n - 48)%Z else None.

(** What the sentry of a formatted input does with [skipws] set. *)
Fixpoint skipws (inp : string) : string :=
  match inp with
  | EmptyString => EmptyString
  | String c rest => if isspace c then skipws rest else inp
  end.

(** The digits at the front of [inp], accumulated onto [acc]; [seen] tells
    whether a digit was read already.  No digit at all is a failure. *)
Fixpoint digits (inp : string) (seen : bool) (acc : Z) : option Z :=
  match inp with
  | EmptyString => if seen then Some acc else None
  | String c rest =>
      match digit c with
      | Some d => digits rest true (10 * acc + d)%Z
      | None => if seen then Some acc else None
      end
  end.

(** [in >> n] for an [int n], base ten: white space, an optional sign, the
    digits.  [None] is a stream left in a failed state: nothing to read, no
    digit, or a value that does not fit (the library then sets [failbit]). *)
Definition extract_int (inp : string) : option Z :=
  match skipws inp with
  | EmptyString => None
  | String c rest =>
      let negative := Ascii.eqb c "-" in
      let body := if negative || Ascii.eqb c "+" then rest else String c rest in
      match digits body false 0 with
      | None => None
      | Some v =>
          let n := if negative then (- v)%Z else v in
          if fits n then Some n else None
      end
  end.

End Stream.

(** ** [documentCategorization/main.cpp] *)

Module Sequential.

Definition readCatalog : files -> Catalog.t -> proc Catalog.t :=
  readCatalog_at "../catalog.txt".

Record SearchResult : Type := { topicName : string; count : Z }.

(** [occurrences.push_back(pos)].  [memory] is the number of elements the
    vector can grow to: when it cannot grow, the allocation fails and
    [std::bad_alloc] is thrown. *)
Definition push_back (memory : nat) (occurrences : list Z) (pos : Z)
    : outcome (list Z) :=
  if length occurrences <? memory then Ret (occurrences ++ [pos])
  else Throw "std::bad_alloc".

(** The [while (pos != npos)] loop for one [term]; it fills [occurrences]
    next to counting. *)
Fixpoint find_term (fuel memory : nat) (text term : string) (pos : option nat)
    (occurrences : list Z) (count : Z) : outcome (list Z * Z) :=
  match pos with
  | None => Ret (occurrences, count)
  | Some p =>
      match fuel with
      | O => OutOfFuel
      | S fuel' =>
          do occurrences' <- push_back memory occurrences (to_int (Z.of_nat p));
          let pos' := Std.find text term (p + String.length term) in
          do count' <- incr count;
          find_term fuel' memory text term pos' occurrences' count'
      end
  end.

(** The loop over the identifiers of one topic. *)
Fixpoint find_identifiers (fuel memory : nat) (text : string) (identifiers : list string)
    (occurrences : list Z) (count : Z) : outcome (list Z * Z) :=
  match identifiers with
  | [] => Ret (occurrences, count)
  | term :: rest =>
      do (occurrences', count') <-
        find_term fuel memory text term (Std.find text term 0) occurrences count;
      find_identifiers fuel memory text rest occurrences' count'
  end.

(** The loop over the catalog. *)
Fixpoint find_topics (fuel memory : nat) (text : string) (catalog : Catalog.t)
    (matches : list SearchResult) : outcome (list SearchResult) :=
  match catalog with
  | [] => Ret matches
  | (topic, identifiers) :: rest =>
      do (occurrences, _) <- find_identifiers fuel memory text identifiers [] 0;
      find_topics fuel memory text rest
        (matches ++ [{| topicName := topic;
                        count := to_int (Z.of_nat (length occurrences)) |}])
  end.

(** [findAllOccurrences(fileName)] *)
Definition findAllOccurrences (fuel memory : nat) (fs : files) (catalog : Catalog.t)
    (fileName : string) : proc (string * list SearchResult) :=
  match fs fileName with
  | None =>
      emit (Cerr "Error opening the file!") ;;
      lift (Throw "Catalog file does not exist")
  | Some content =>
      run matches <- lift (find_topics fuel memory (read_text content) catalog []);
      proc_ret (fileName, matches)
  end.

(** What [writeResultsToFile] puts into the results file. *)
Definition results_text (matches : list (string * list SearchResult)) : string :=
  fold_right (fun '(docName, topics) rest =>
                docName +:+ String "010" "" +:+
                fold_right (fun sr rest' =>
                              topicName sr +:+ "," +:+ show_int (count sr) +:+
                              String "010" "" +:+ rest')
                           (String "010" "" +:+ rest) topics)
             "" matches.

Definition writeResultsToFile (writable : bool)
    (matches : list (string * list SearchResult)) (filename : string) : proc unit :=
  if writable then emit (FileWrite filename (results_text matches))
  else emit (Cerr "Error opening file for writing!").

(** The inner loop of [determineRelevantTopics]. *)
Fixpoint relevant_topic (topics : list SearchResult) (maxCount : Z)
    (relevantTopic : string) : string :=
  match topics with
  | [] => relevantTopic
  | sr :: rest =>
      if (maxCount <? count sr)%Z
      then relevant_topic rest (count sr) (topicName sr)
      else relevant_topic rest maxCount relevantTopic
  end.

(** [determineRelevantTopics(matches)] *)
Definition determineRelevantTopics (matches : list (string * list SearchResult))
    : gmap string string :=
  fold_left (fun relevantTopics '(docName, topics) =>
               <[docName := relevant_topic topics 0 ""]> relevantTopics)
            matches ∅.

(** The file system after [writeResultsToFile]: when the file opened for
    writing, it holds what was written; [readable] tells whether it then
    opens for reading, which the right to write it does not imply. *)
Definition after_write (fs : files) (writable readable : bool)
    (filename data : string) : files :=
  fun path =>
    if writable && String.eqb path filename
    then (if readable then Some data else None)
    else fs path.

(** The body of the loop of [readResultsFromFile] for one [line]: the
    vector that is pushed. *)
Definition parse_line (line : string) : list SearchResult :=
  match line with
  | EmptyString => []
  | _ =>
      match Std.getline line "," with
      | Some (topicName, rest) =>
          match Stream.extract_int rest with
          | Some count => [{| topicName := topicName; count := count |}]
          | None => []
          end
      | None => []
      end
  end.

(** [readResultsFromFile(filename)] *)
Definition readResultsFromFile (fs : files) (filename : string)
    : proc (list (list SearchResult)) :=
  match fs filename with
  | None => emit (Cerr "Error opening file for reading!") ;; proc_ret []
  | Some content =>
      proc_ret (fold_left (fun matches line => matches ++ [parse_line line])
                          (Std.getlines content "010") [])
  end.

(** The loop of [main] over the files of the directory. *)
Fixpoint classify_files (fuel memory : nat) (fs : files) (catalog : Catalog.t)
    (documents : list string) (matches : list (string * list SearchResult))
    : proc (list (string * list SearchResult)) :=
  match documents with
  | [] => proc_ret matches
  | file :: rest =>
      run m <- findAllOccurrences fuel memory fs catalog file;
      classify_files fuel memory fs catalog rest (matches ++ [m])
  end.

(** [main]; it yields what it prints, the matches and the relevant topics.
    What [readResultsFromFile] returns is not used. *)
Definition main (fuel memory : nat) (fs : files) (writable readable : bool)
    (documents : list string)
    : proc (list (string * list SearchResult) * gmap string string) :=
  run catalog <- readCatalog fs Catalog.empty;
  run matches <- classify_files fuel memory fs catalog documents [];
  writeResultsToFile writable matches "results.csv" ;;
  readResultsFromFile
    (after_write fs writable readable "results.csv" (results_text matches))
    "results.csv" ;;
  proc_ret (matches, determineRelevantTopics matches).

End Sequential.

(** ** The description's own words, as definitions to compare with *)

Module Described.

(** The non-overlapping occurrences of [term] in [text], read off the text
    from left to right: a position still covered by the last occurrence
    ([skip] bytes of it remain) is passed over; elsewhere an occurrence that
    starts here is counted and covers the next [length term] bytes. *)
Fixpoint occurrences_from (term : string) (skip : nat) (text : string) : nat :=
  match text with
  | EmptyString => 0
  | String _ rest =>
      match skip with
      | S skip' => occurrences_from term skip' rest
      | O =>
          if String.prefix term text
          then S (occurrences_from term (String.length term - 1) rest)
          else occurrences_from term 0 rest
      end
  end.

Definition occurrences (term text : string) : nat := occurrences_from term 0 text.

(** Topic count: the sum over the topic's keywords. *)
Definition topic_count (text : string) (keywords : list string) : nat :=
  sum_list (map (fun term => occurrences term text) keywords).

(** What the matcher is to return: one pair per topic, in catalog order. *)
Definition counts (text : string) (catalog : Catalog.t) : list (string * Z) :=
  map (fun e : Catalog.entry => (e.1, Z.of_nat (topic_count text e.2))) catalog.

(** Every topic count fits an [int]. *)
Definition counts_fit (text : string) (catalog : Catalog.t) : bool :=
  forallb (fun e : Catalog.entry => (Z.of_nat (topic_count text e.2) <=? INT_MAX)%Z) catalog.

(** [topic:kw1,kw2,...;] for every topic, each keyword followed by a comma. *)
Definition wire_format (c : Catalog.t) : string :=
  String.concat ""
    (map (fun e : Catalog.entry =>
            e.1 +:+ ":" +:+ String.concat "" (map (fun kw => kw +:+ ",") e.2) +:+ ";") c).

(** The size of worker [i]'s assignment: [base + 1] for the first [rem]
    workers, [base] for the others. *)
Definition share (n workers i : nat) : nat :=
  n / workers + (if i <=? n mod workers then 1 else 0).

(** Where worker [i]'s slice starts: after the shares of workers [1..i-1]. *)
Definition offset (n workers i : nat) : nat :=
  sum_list (map (share n workers) (seq 1 (i - 1))).

End Described.

(** ** Conditions on catalogs that the properties speak of *)

Module Cond.

(** No topic name and no keyword of [cat] holds the byte [c]. *)
Definition free_of (c : ascii) (cat : Catalog.t) : Prop :=
  Forall (fun s => Std.has_char c s = false) (Catalog.topics cat ++ Catalog.keywords cat).

(** Every keyword of [cat] has at least one byte. *)
Definition keywords_nonempty (cat : Catalog.t) : Prop :=
  Forall (fun kw => kw <> EmptyString) (Catalog.keywords cat).

(** Some topic name holds [':'] or [';'], or some keyword [','] or [';']. *)
Definition tainted (cat : Catalog.t) : Prop :=
  Exists (fun t => Std.has_char ":" t = true \/ Std.has_char ";" t = true) (Catalog.topics cat) \/
  Exists (fun kw => Std.has_char "," kw = true \/ Std.has_char ";" kw = true) (Catalog.keywords cat).

(** The entries decoding can produce: no [':'] or [';'] in the topic name,
    no [','] or [';'] in a keyword. *)
Definition clean (e : Catalog.entry) : Prop :=
  (Std.has_char ":" e.1 = false /\ Std.has_char ";" e.1 = false) /\
  Forall (fun kw => Std.has_char "," kw = false /\ Std.has_char ";" kw = false) e.2.

(** The positions recorded for any one topic fit a vector that can grow to
    [memory] elements. *)
Definition vectors_fit (memory : nat) (text : string) (catalog : Catalog.t) : bool :=
  forallb (fun e : Catalog.entry => Described.topic_count text e.2 <=? memory) catalog.

(** How the single-process scan ends when it cannot go on: the vector
    cannot grow, or, where it can hold more than [INT_MAX] elements, the
    counter overflows first. *)
Definition exhausted {A : Type} (memory : nat) : outcome A :=
  if (Z.of_nat memory <=? INT_MAX)%Z then Throw "std::bad_alloc" else Undefined.

(** What a scan of the single-process program ends with when it ends as
    the program foresees: the positions recorded so far, as many as were
    counted and no more than the vector holds, or [std::bad_alloc]. *)
Definition counted (memory : nat) (r : outcome (list Z * Z)) : Prop :=
  match r with
  | Ret (occurrences, count) =>
      Z.of_nat (length occurrences) = count /\ length occurrences <= memory
  | Throw what => what = "std::bad_alloc"
  | _ => False
  end.

Definition answers_or_bad_alloc {A : Type} (r : outcome A) : Prop :=
  match r with
  | Ret _ => True
  | Throw what => what = "std::bad_alloc"
  | _ => False
  end.

(** How a scan ends that raises no exception: with a result, or without
    one because it went on for ever or into a signed overflow. *)
Definition raises_nothing {A : Type} (r : outcome A) : Prop :=
  match r with
  | Ret _ | Undefined | OutOfFuel => True
  | Throw _ | Aborted _ => False
  end.

End Cond.

(** ** Further observations on what a process did *)

Module Obs.

(** The lines a process appended to the results file, in order. *)
Definition appended_lines (tr : list event) : list string :=
  omap (fun e => match e with FileAppend _ data => Some data | _ => None end) tr.

(** The contents a process wrote to files it created. *)
Definition written_files (tr : list event) : list (string * string) :=
  omap (fun e => match e with FileWrite path data => Some (path, data) | _ => None end) tr.

(** The lines a process put on [std::cerr]. *)
Definition diagnostics (tr : list event) : list string :=
  omap (fun e => match e with Cerr line => Some line | _ => None end) tr.

(** The messages a process sent to rank [i], in order. *)
Definition messages_to (i : nat) (tr : list event) : list message :=
  omap (fun e => match e with
                 | MPI_Send dest m => if dest =? i then Some m else None
                 | _ => None
                 end) tr.

(** The messages a process took in with [MPI_Recv], in order. *)
Definition received (tr : list event) : list message :=
  omap (fun e => match e with MPI_Recv m => Some m | _ => None end) tr.

(** How an assignment travels: its size, then for each document the size of
    its name with the terminator and the name. *)
Definition assignment_messages (assignment : list string) : list message :=
  MInt (Z.of_nat (length assignment)) ::
  flat_map (fun document =>
              [MInt (Z.of_nat (String.length document) + 1); MChars document])
           assignment.

(** A name whose size with the terminator is a value of an [int]. *)
Definition short (document : string) : Prop :=
  (Z.of_nat (String.length document) < INT_MAX)%Z.

(** The line holds the separator of the catalog file. *)
Definition has_separator (line : string) : bool :=
  match Std.find line "@%" 0 with
  | Some _ => true
  | None => false
  end.

(** The entries [readCatalog] can produce: a topic name without [@%] and at
    least one keyword, no keyword with a comma, no line feed anywhere. *)
Definition parsed (e : Catalog.entry) : Prop :=
  Std.find e.1 "@%" 0 = None /\ Std.has_char "010" e.1 = false /\
  e.2 <> [] /\
  Forall (fun kw => Std.has_char "," kw = false /\ Std.has_char "010" kw = false) e.2.

(** Document [document], as the worker receives it, opens and the matcher
    returns for it; [line] is the line that goes to the results file. *)
Definition line_for (fuel : nat) (fs : files) (catalog : Catalog.t)
    (document line : string) : Prop :=
  exists content topics,
    fs (Std.c_str document) = Some content /\
    Paralel.classify fuel (read_text content) catalog = Ret topics /\
    line = Paralel.result_line
             {| Paralel.fileName := Paralel.getFileNameFromPath (Std.c_str document);
                Paralel.TopicsList := topics |}.


(** The two messages that carry one document name. *)
Definition document_messages (document : string) : list message :=
  [MInt (Z.of_nat (String.length document) + 1); MChars document].

End Obs.

(** ** The results file of [documentCategorization/main.cpp], line by line *)

Module Results.

(** The line [writeResultsToFile] writes for one result, without its line
    feed, and the lines it writes for one document. *)
Definition topic_line (sr : Sequential.SearchResult) : string :=
  Sequential.topicName sr +:+ "," +:+ show_int (Sequential.count sr).

Definition lines_written (m : string * list Sequential.SearchResult) : list string :=
  m.1 :: map topic_line m.2 ++ [""].

(** What the reader makes of the lines written for one document: nothing of
    its name, one result of each topic line, nothing of the closing line. *)
Definition lines_read (m : string * list Sequential.SearchResult)
    : list (list Sequential.SearchResult) :=
  [] :: map (fun sr => [sr]) m.2 ++ [[]].

(** A name that fits on a line of the results file. *)
Definition plain (name : string) : Prop :=
  Std.has_char "," name = false /\ Std.has_char "010" name = false.

(** The results of one document, as they fit into the file: names that are
    [plain] and counts that are values of an [int]. *)
Definition storable (m : string * list Sequential.SearchResult) : Prop :=
  plain m.1 /\
  Forall (fun sr => plain (Sequential.topicName sr) /\
                    (Stream.INT_MIN <= Sequential.count sr <= INT_MAX)%Z) m.2.

End Results.

(** ** [getAllFilesInDirectory], the same function in both programs *)

Module Directory.

(** What a [directory_iterator] yields: the path of each entry, in the
    order of the iteration, with what [is_regular_file] says of it. *)
Definition listing : Type := list (string * bool).

(** [path::filename()]: what follows the last slash. *)
Fixpoint filename (path : string) : string :=
  match path with
  | EmptyString => EmptyString
  | String _ rest => if Std.has_char "/" path then filename rest else path
  end.

(** The part of [s] from its last period on. *)
Fixpoint last_period (s : string) : option string :=
  match s with
  | EmptyString => None
  | String c rest =>
      match last_period rest with
      | Some e => Some e
      | None => if Ascii.eqb c "." then Some s else None
      end
  end.

(** [path::extension()]: the file name from its last period on, unless
    that period is its first character or the name is [.] or [..]. *)
Definition extension (path : string) : string :=
  match filename path with
  | EmptyString => EmptyString
  | String c rest =>
      if (String.length (String c rest) <=? 2) && Ascii.eqb c "." then EmptyString
      else match last_period rest with
           | Some e => e
           | None => EmptyString
           end
  end.

(** The loop over the entries. *)
Fixpoint scan (entries : listing) (extensions files : list string) : list string :=
  match entries with
  | [] => files
  | (path, regular) :: rest =>
      if regular && existsb (String.eqb (extension path)) extensions
      then scan rest extensions (files ++ [path])
      else scan rest extensions files
  end.

(** [getAllFilesInDirectory(directoryPath, extensions)]; [dir] is the
    listing of the directory, if it can be iterated. *)
Definition getAllFilesInDirectory (dir : option listing) (extensions : list string)
    : outcome (list string) :=
  match dir with
  | None => Throw "filesystem error: directory iterator cannot open directory"
  | Some entries => Ret (scan entries extensions [])
  end.

(** An extension as the programs list them: a period and then at least one
    character, none of them a period. *)
Definition simple (ext : string) : Prop :=
  exists e, ext = String "." e /\ e <> "" /\ Std.has_char "." e = false.

End Directory.

(** * Properties *)

#[local] Arguments Ascii.eqb : simpl never.

(** ** Outcomes and processes *)

Lemma incr_spec (count : Z) :
  incr count = if (count + 1 <=? INT_MAX)%Z then Ret (count + 1)%Z else Undefined.
Proof.
  unfold incr.
  destruct (Z.ltb_spec count INT_MAX), (Z.leb_spec (count + 1) INT_MAX); auto; lia.
Qed.

Lemma to_int_small (z : Z) : (0 <= z <= INT_MAX)%Z -> to_int z = z.
Proof.
  intros Hz. unfold to_int, INT_MAX in *.
  rewrite Z.mod_small; lia.
Qed.

(** ** The library model at work *)

Example find_from_position :
  Std.find "aaaa" "aa" 2 = Some 2 /\ Std.find "aaaa" "aa" 3 = None /\
  Std.find "aaaa" "" 4 = Some 4 /\ Std.find "aaaa" "" 5 = None.
Proof. repeat split. Qed.

Example tokenize_catalog_line :
  tokenize "Animals@%cat,dog" "@%" = Ret ["Animals"; "cat,dog"] /\
  tokenize "cat,dog," "," = Ret ["cat"; "dog"; ""] /\
  tokenize "" "," = Ret [""].
Proof. repeat split. Qed.

Example getline_fields :
  Std.getlines "a,b," "," = ["a"; "b"] /\
  Std.getlines "a,,b" "," = ["a"; ""; "b"] /\
  Std.getlines "," "," = [""] /\
  Std.getlines "" "," = [].
Proof. repeat split. Qed.

Example map_operations :
  Catalog.emplace "b" ["x"] (Catalog.emplace "a" [] (Catalog.emplace "b" [] Catalog.empty))
    = [("a", []); ("b", [])] /\
  Catalog.assign "b" ["x"] (Catalog.assign "a" [] (Catalog.assign "b" [] Catalog.empty))
    = [("a", []); ("b", ["x"])].
Proof. repeat split. Qed.

(** ** Strings *)

Section Strings.

Implicit Types (s t u : string) (c d : ascii).

Lemma append_cons a s t : String a s +:+ t = String a (s +:+ t).
Proof. reflexivity. Qed.

Lemma append_nil_l s : "" +:+ s = s.
Proof. reflexivity. Qed.

Lemma append_nil_r s : s +:+ "" = s.
Proof. induction s as [|a s IH]; [done|]. by rewrite append_cons, IH. Qed.

Lemma append_assoc s t u : (s +:+ t) +:+ u = s +:+ t +:+ u.
Proof. induction s as [|a s IH]; [done|]. by rewrite !append_cons, IH. Qed.

Lemma length_append s t : String.length (s +:+ t) = String.length s + String.length t.
Proof. induction s as [|a s IH]; [done|]. rewrite append_cons; simpl. by rewrite IH. Qed.

Lemma has_char_append c s t :
  Std.has_char c (s +:+ t) = Std.has_char c s || Std.has_char c t.
Proof.
  induction s as [|a s IH]; [done|].
  rewrite append_cons; simpl. destruct (Ascii.eqb a c); auto.
Qed.

Lemma sdrop_nil n : Std.sdrop n "" = "".
Proof. destruct n; reflexivity. Qed.

Lemma sdrop_add n m s : Std.sdrop (n + m) s = Std.sdrop m (Std.sdrop n s).
Proof.
  revert s; induction n as [|n IH]; intros s; simpl; [done|].
  destruct s as [|a s]; simpl; [by rewrite sdrop_nil | apply IH].
Qed.

Lemma length_sdrop n s : String.length (Std.sdrop n s) = String.length s - n.
Proof.
  revert s; induction n as [|n IH]; intros s; simpl; [lia|].
  destruct s as [|a s]; simpl; [done | apply IH].
Qed.

(** *** [getline] *)

Lemma getline_split_length inp d :
  String.length (Std.getline_split inp d).2 <= pred (String.length inp).
Proof.
  induction inp as [|a r IH]; simpl; [lia|].
  destruct (Ascii.eqb a d); simpl; [lia|].
  destruct (Std.getline_split r d) as [str rest]; simpl in *. lia.
Qed.

Lemma getline_loop_enough fuel fuel' inp d :
  String.length inp <= fuel -> String.length inp <= fuel' ->
  Std.getline_loop fuel inp d = Std.getline_loop fuel' inp d.
Proof.
  revert fuel' inp; induction fuel as [|fuel IH]; intros fuel' inp Hlen Hlen'.
  - destruct inp; simpl in *; [by destruct fuel' | lia].
  - destruct inp as [|a r]; [by destruct fuel'|].
    destruct fuel' as [|fuel']; simpl in Hlen, Hlen'; [lia|].
    cbn [Std.getline_loop Std.getline].
    pose proof (getline_split_length (String a r) d) as Hrest.
    destruct (Std.getline_split (String a r) d) as [str rest]; simpl in Hrest.
    f_equal. apply IH; lia.
Qed.

(** More fuel than the input has bytes changes nothing. *)
Lemma getline_loop_fuel fuel inp d :
  String.length inp <= fuel ->
  Std.getline_loop fuel inp d = Std.getlines inp d.
Proof. intros Hlen. by apply getline_loop_enough. Qed.

Lemma getlines_nil d : Std.getlines "" d = [].
Proof. reflexivity. Qed.

Lemma getlines_cons a r d :
  Std.getlines (String a r) d =
  (Std.getline_split (String a r) d).1 ::
    Std.getlines (Std.getline_split (String a r) d).2 d.
Proof.
  unfold Std.getlines at 1.
  cbn [Std.getline_loop Std.getline String.length].
  pose proof (getline_split_length (String a r) d) as Hrest.
  destruct (Std.getline_split (String a r) d) as [str rest]; simpl in *.
  by rewrite getline_loop_fuel.
Qed.

(** A field that holds no delimiter, followed by one, is read back whole. *)
Lemma getline_split_field t d rest :
  Std.has_char d t = false ->
  Std.getline_split (t +:+ String d rest) d = (t, rest).
Proof.
  induction t as [|a t IH]; intros Hfree.
  - rewrite append_nil_l; simpl. by rewrite Ascii.eqb_refl.
  - rewrite append_cons; simpl in *.
    destruct (Ascii.eqb a d); [done|]. by rewrite IH.
Qed.

Lemma getlines_field t d rest :
  Std.has_char d t = false ->
  Std.getlines (t +:+ String d rest) d = t :: Std.getlines rest d.
Proof.
  intros Hfree.
  destruct (t +:+ String d rest) as [|a r] eqn:E.
  - destruct t; discriminate.
  - by rewrite getlines_cons, <- E, getline_split_field.
Qed.

(** What [getline] hands out holds no delimiter, and no byte that the
    input did not hold. *)
Lemma getline_split_no_delim inp d : Std.has_char d (Std.getline_split inp d).1 = false.
Proof.
  induction inp as [|a r IH]; simpl; [done|].
  destruct (Ascii.eqb a d) eqn:E; [done|].
  destruct (Std.getline_split r d) as [str rest]; simpl in *. by rewrite E.
Qed.

Lemma getline_split_sub inp d c :
  Std.has_char c inp = false ->
  Std.has_char c (Std.getline_split inp d).1 = false /\
  Std.has_char c (Std.getline_split inp d).2 = false.
Proof.
  induction inp as [|a r IH]; simpl; [done|].
  destruct (Ascii.eqb a c) eqn:E; [done|]. intros Hfree.
  destruct (Ascii.eqb a d); [done|].
  destruct (Std.getline_split r d) as [str rest]; simpl in *.
  rewrite E. auto.
Qed.

End Strings.

Section GetlineFields.

Implicit Types (s t u inp : string) (c d : ascii).

Lemma getlines_no_delim inp d :
  Forall (fun x => Std.has_char d x = false) (Std.getlines inp d).
Proof.
  induction inp as [inp IH] using (induction_ltof1 _ String.length).
  destruct inp as [|a r]; [constructor|].
  rewrite getlines_cons. constructor.
  - apply getline_split_no_delim.
  - apply IH. unfold ltof.
    pose proof (getline_split_length (String a r) d). simpl in *. lia.
Qed.

Lemma getlines_sub inp d c :
  Std.has_char c inp = false ->
  Forall (fun x => Std.has_char c x = false) (Std.getlines inp d).
Proof.
  induction inp as [inp IH] using (induction_ltof1 _ String.length).
  intros Hfree. destruct inp as [|a r]; [constructor|].
  rewrite getlines_cons.
  destruct (getline_split_sub (String a r) d c Hfree) as [H1 H2].
  constructor; [done|].
  apply IH; [|done]. unfold ltof.
  pose proof (getline_split_length (String a r) d). simpl in *. lia.
Qed.

Lemma c_str_no_nul s : Std.has_char "000" (Std.c_str s) = false.
Proof.
  induction s as [|a s IH]; [done|]. simpl.
  destruct (Ascii.eqb a "000") eqn:E; [done|]. simpl. by rewrite E.
Qed.

Lemma c_str_sub s c : Std.has_char c s = false -> Std.has_char c (Std.c_str s) = false.
Proof.
  induction s as [|a s IH]; [done|]. simpl.
  destruct (Ascii.eqb a c) eqn:E; [done|]. intros Hfree.
  destruct (Ascii.eqb a "000"); [done|]. simpl. rewrite E. auto.
Qed.

End GetlineFields.

(** ** The catalog on the wire *)

Section Codec.

Implicit Types (c cat : Catalog.t) (topic kw : string) (items : list string).

(** Appends are brought into right-nested form, literals opened. *)
Ltac str_norm :=
  repeat (rewrite append_assoc || rewrite append_cons || rewrite append_nil_l).

Lemma concat_empty_cons (x : string) (l : list string) :
  String.concat "" (x :: l) = x +:+ String.concat "" l.
Proof.
  destruct l as [|y l]; simpl.
  - by rewrite append_nil_r.
  - by rewrite append_nil_l.
Qed.

Lemma encode_items_cons kw items :
  Paralel.encode_items (kw :: items) = kw +:+ String "," (Paralel.encode_items items).
Proof. reflexivity. Qed.

Lemma encode_cons topic items cat :
  Paralel.encode ((topic, items) :: cat) =
  (topic +:+ String ":" (Paralel.encode_items items)) +:+ String ";" (Paralel.encode cat).
Proof. simpl. by str_norm. Qed.

Lemma encode_items_described items :
  Paralel.encode_items items = String.concat "" (map (fun kw => kw +:+ ",") items).
Proof.
  induction items as [|kw items IH]; [done|].
  rewrite encode_items_cons, map_cons, concat_empty_cons, <- IH.
  by str_norm.
Qed.

Lemma encode_described cat : Paralel.encode cat = Described.wire_format cat.
Proof.
  unfold Described.wire_format.
  induction cat as [|[topic items] cat IH]; [done|].
  rewrite map_cons, concat_empty_cons, <- IH. simpl.
  rewrite <- encode_items_described. by str_norm.
Qed.

Lemma has_char_encode_items ch items :
  ch <> ","%char ->
  Forall (fun s => Std.has_char ch s = false) items ->
  Std.has_char ch (Paralel.encode_items items) = false.
Proof.
  intros Hsep. induction 1 as [|kw items Hkw _ IH]; [done|].
  rewrite encode_items_cons, has_char_append, Hkw. simpl.
  destruct (Ascii.eqb_spec "," ch); [congruence | exact IH].
Qed.

Lemma getlines_encode_items items :
  Forall (fun s => Std.has_char "," s = false) items ->
  Std.getlines (Paralel.encode_items items) "," = items.
Proof.
  induction 1 as [|kw items Hkw _ IH]; [done|].
  by rewrite encode_items_cons, getlines_field, IH.
Qed.

(** One entry of the wire format is decoded to the entry it was built from. *)
Lemma decode_entry_encoded cat topic items :
  Std.has_char ":" topic = false ->
  Forall (fun s => Std.has_char "," s = false) items ->
  Paralel.decode_entry cat (topic +:+ String ":" (Paralel.encode_items items)) =
  Catalog.assign topic items cat.
Proof.
  intros Htopic Hitems. unfold Paralel.decode_entry, Std.getline.
  destruct (topic +:+ String ":" (Paralel.encode_items items)) as [|a r] eqn:E.
  - destruct topic; discriminate.
  - by rewrite <- E, getline_split_field, getlines_encode_items.
Qed.

Lemma StronglySorted_app_last {A} (R : A -> A -> Prop) (l : list A) (x : A) (l' : list A) :
  StronglySorted R (l ++ x :: l') -> Forall (fun y => R y x) l.
Proof.
  induction l as [|y l IH]; simpl; [constructor|].
  intros [Hs Hy]%StronglySorted_inv. constructor; [|by apply IH].
  rewrite Forall_app, Forall_cons in Hy. tauto.
Qed.

(** [catalog[k] = v] with [k] above every key appends the entry. *)
Lemma assign_last topic items cat :
  Forall (fun e => Catalog.key_lt e (topic, items)) cat ->
  Catalog.assign topic items cat = cat ++ [(topic, items)].
Proof.
  induction 1 as [|[k v] cat Hk _ IH]; [done|]. simpl.
  unfold Catalog.key_lt in Hk; simpl in Hk.
  rewrite String.compare_antisym, Hk; simpl. by rewrite IH.
Qed.

Lemma encode_no_nul cat : Cond.free_of "000" cat -> Std.has_char "000" (Paralel.encode cat) = false.
Proof.
  unfold Cond.free_of, Catalog.topics, Catalog.keywords.
  induction cat as [|[topic items] cat IH]; [done|]. simpl.
  rewrite !Forall_cons, !Forall_app. intros (Ht & Hts & Hi & His).
  rewrite !has_char_append, Ht. simpl.
  rewrite has_char_encode_items by done. simpl.
  apply IH, Forall_app; tauto.
Qed.

End Codec.

Section CodecClean.

Lemma assign_Forall (P : Catalog.entry -> Prop) topic items cat :
  P (topic, items) -> Forall P cat -> Forall P (Catalog.assign topic items cat).
Proof.
  intros Hnew. induction 1 as [|[k v] cat Hk Hcat IH]; simpl.
  - by constructor.
  - destruct (String.compare topic k); repeat constructor; auto.
Qed.

Lemma decode_entry_clean cat entry :
  Std.has_char ";" entry = false ->
  Forall Cond.clean cat -> Forall Cond.clean (Paralel.decode_entry cat entry).
Proof.
  intros Hentry Hcat. unfold Paralel.decode_entry, Std.getline.
  destruct entry as [|a r].
  - apply assign_Forall; [|done]. repeat split; constructor.
  - pose proof (getline_split_no_delim (String a r) ":") as Hcolon.
    destruct (getline_split_sub (String a r) ":" ";" Hentry) as [Hsemi Hrest].
    destruct (Std.getline_split (String a r) ":") as [category rest]; simpl in *.
    apply assign_Forall; [|done]. split; [done|]. simpl.
    pose proof (getlines_no_delim rest ",") as H1.
    pose proof (getlines_sub rest "," ";" Hrest) as H2.
    rewrite Forall_forall in *. auto.
Qed.

Lemma decode_clean ss cat : Forall Cond.clean cat -> Forall Cond.clean (Paralel.decode ss cat).
Proof.
  unfold Paralel.decode. pose proof (getlines_no_delim ss ";") as Hentries.
  revert cat. induction Hentries as [|entry entries Hentry _ IH]; intros cat Hcat; [done|].
  simpl. by apply IH, decode_entry_clean.
Qed.

Lemma tainted_not_clean cat : Cond.tainted cat -> ~ Forall Cond.clean cat.
Proof.
  unfold Cond.tainted, Catalog.topics, Catalog.keywords.
  rewrite !Exists_exists, Forall_forall.
  intros [(t & Ht & Hbad) | (kw & Hkw & Hbad)] Hclean.
  - apply list_elem_of_In, in_map_iff in Ht as ([t' items] & <- & He).
    apply list_elem_of_In in He.
    destruct (Hclean _ He) as [[H1 H2] _]. simpl in *.
    destruct Hbad; congruence.
  - apply list_elem_of_In, in_concat in Hkw as (items & Hitems & Hkw).
    apply in_map_iff in Hitems as ([t items'] & <- & He).
    apply list_elem_of_In in He, Hkw.
    destruct (Hclean _ He) as [_ Hkws]. simpl in *.
    rewrite Forall_forall in Hkws. destruct (Hkws _ Hkw), Hbad; congruence.
Qed.

End CodecClean.

Section CodecBuffer.

Implicit Types (cat acc : Catalog.t) (topic kw j beyond : string) (items : list string)
  (c : ascii).

(** The wire format of a clean catalog, with anything after it, is decoded
    to the catalog and then to what follows. *)
Lemma decode_encoded_then cat acc j :
  Catalog.wf (acc ++ cat) ->
  Forall Cond.clean cat ->
  Paralel.decode (Paralel.encode cat +:+ j) acc = Paralel.decode j (acc ++ cat).
Proof.
  unfold Paralel.decode.
  revert acc; induction cat as [|[topic items] cat IH]; intros acc Hwf Hclean.
  - by rewrite app_nil_r.
  - apply Forall_cons in Hclean as [[[Hcolon Hsemi] Hitems] Hclean].
    simpl in Hcolon, Hsemi, Hitems.
    assert (Forall (fun s => Std.has_char "," s = false) items) as Hcomma
      by (eapply Forall_impl; [exact Hitems|]; by intros kw [? ?]).
    assert (Forall (fun s => Std.has_char ";" s = false) items) as Hsemis
      by (eapply Forall_impl; [exact Hitems|]; by intros kw [? ?]).
    rewrite encode_cons, append_assoc, append_cons, getlines_field.
    + simpl. rewrite decode_entry_encoded by done.
      rewrite assign_last by (by eapply StronglySorted_app_last).
      rewrite IH; [by rewrite <- app_assoc | by rewrite <- app_assoc | done].
    + rewrite has_char_append, Hsemi. simpl. by apply has_char_encode_items.
Qed.

Lemma decode_encoded_clean cat acc :
  Catalog.wf (acc ++ cat) ->
  Forall Cond.clean cat ->
  Paralel.decode (Paralel.encode cat) acc = acc ++ cat.
Proof.
  intros Hwf Hclean. rewrite <- (append_nil_r (Paralel.encode cat)).
  by rewrite decode_encoded_then.
Qed.

(** A C-string read runs through bytes that are not zero. *)
Lemma c_str_append s beyond :
  Std.has_char "000" s = false -> Std.c_str (s +:+ beyond) = s +:+ Std.c_str beyond.
Proof.
  induction s as [|a s IH]; [done|].
  rewrite !append_cons. cbn [Std.c_str Std.has_char].
  destruct (Ascii.eqb a "000"); [done|]. intros Hfree. by rewrite IH.
Qed.

(** [free_of], entry by entry. *)
Lemma free_of_entries c cat :
  Cond.free_of c cat <->
  Forall (fun e : Catalog.entry =>
            Std.has_char c e.1 = false /\ Forall (fun kw => Std.has_char c kw = false) e.2)
         cat.
Proof.
  unfold Cond.free_of, Catalog.topics, Catalog.keywords.
  induction cat as [|[topic items] cat IH]; [by split; constructor|].
  cbn [map concat fst snd app]. rewrite Forall_cons, !Forall_app in *.
  rewrite Forall_cons. cbn [fst snd]. tauto.
Qed.

Lemma free_of_clean cat :
  Cond.free_of ":" cat -> Cond.free_of "," cat -> Cond.free_of ";" cat ->
  Forall Cond.clean cat.
Proof.
  rewrite !free_of_entries, !Forall_forall. intros Hc Hm Hs e He.
  destruct (Hc e He) as [Hc1 _], (Hm e He) as [_ Hm2], (Hs e He) as [Hs1 Hs2].
  split; [done|]. rewrite Forall_forall in *. auto.
Qed.

Lemma decode_entry_free c cat entry :
  Std.has_char c entry = false ->
  Cond.free_of c cat -> Cond.free_of c (Paralel.decode_entry cat entry).
Proof.
  rewrite !free_of_entries. intros Hentry Hcat. unfold Paralel.decode_entry, Std.getline.
  destruct entry as [|a r].
  - apply assign_Forall; [|done]. by split; [|constructor].
  - destruct (getline_split_sub (String a r) ":" c Hentry) as [Hcategory Hrest].
    destruct (Std.getline_split (String a r) ":") as [category rest]; simpl in *.
    apply assign_Forall; [|done]. split; [done|]. simpl. by apply getlines_sub.
Qed.

Lemma decode_free c ss cat :
  Std.has_char c ss = false -> Cond.free_of c cat -> Cond.free_of c (Paralel.decode ss cat).
Proof.
  intros Hss. unfold Paralel.decode. pose proof (getlines_sub ss ";" c Hss) as Hentries.
  revert cat. induction Hentries as [|entry entries Hentry _ IH]; intros cat Hcat; [done|].
  simpl. by apply IH, decode_entry_free.
Qed.

Lemma assign_In topic items cat : In (topic, items) (Catalog.assign topic items cat).
Proof.
  induction cat as [|[k v] cat IH]; simpl; [by left|].
  destruct (String.compare topic k); simpl; auto.
Qed.

(** A single byte is decoded to a topic without keywords. *)
Lemma decode_one_byte c cat :
  exists topic, Paralel.decode (String c "") cat = Catalog.assign topic [] cat.
Proof.
  unfold Paralel.decode, Std.getlines.
  cbn [String.length Std.getline_loop Std.getline Std.getline_split].
  destruct (Ascii.eqb c ";"); cbn [fold_left];
    unfold Paralel.decode_entry; cbn [Std.getline Std.getline_split];
    [by exists ""|].
  destruct (Ascii.eqb c ":"); [by exists "" | by exists (String c "")].
Qed.

(** What a worker decodes when the wire holds a clean catalog: the catalog,
    and then the bytes that follow the buffer up to the first zero byte. *)
Lemma received_past_buffer cat beyond docs :
  Catalog.wf cat ->
  Forall Cond.clean cat ->
  Cond.free_of "000" cat ->
  Paralel.received_catalog
    {| Paralel.wire := Paralel.encode cat; Paralel.beyond := beyond;
       Paralel.assignment := docs |} =
  Paralel.decode (Std.c_str beyond) cat.
Proof.
  intros Hwf Hclean Hzero. unfold Paralel.received_catalog, Catalog.empty.
  cbn [Paralel.wire Paralel.beyond].
  rewrite c_str_append by (by apply encode_no_nul).
  by rewrite (decode_encoded_then cat []).
Qed.

End CodecBuffer.

(** A keyword with a zero byte holds none of the reserved separators, yet
    the worker, which reads its buffer as a C string, decodes a catalog with
    the keyword cut short, whatever follows the buffer. *)
Lemma roundtrip_breaks_on_zero_byte :
  let cat : Catalog.t := [("a", [String "b" (String "000" "")])] in
  read_lines ["a@%" +:+ String "b" (String "000" "")] Catalog.empty = Ret cat /\
  Catalog.wf cat /\
  Cond.free_of ":" cat /\ Cond.free_of "," cat /\ Cond.free_of ";" cat /\
  forall junk docs,
    Paralel.received_catalog
      {| Paralel.wire := Paralel.encode cat; Paralel.beyond := junk;
         Paralel.assignment := docs |} = [("a", ["b"])]
    /\ [("a", ["b"])] <> cat.
Proof.
  repeat split; try (repeat constructor); try discriminate.
Qed.

(** The catalog of the description on a worker whose buffer is followed by
    the byte [q] and a zero byte: the stray byte has become a topic. *)
Example stray_byte_becomes_a_topic :
  read_lines ["Animals@%cat,dog"] Catalog.empty = Ret [("Animals", ["cat"; "dog"])] /\
  Paralel.encode [("Animals", ["cat"; "dog"])] = "Animals:cat,dog,;" /\
  Paralel.received_catalog
    {| Paralel.wire := "Animals:cat,dog,;"; Paralel.beyond := String "q" (String "000" "");
       Paralel.assignment := [] |} = [("Animals", ["cat"; "dog"]); ("q", [])].
Proof. repeat split. Qed.

(** C2 (the code against the claim): the worker's receive buffer has room
    for the bytes of the catalog and none for a terminator, and the worker reads
    it as a C string.  So for every catalog whose topic names and keywords hold
    none of [':'], [','], [';'] and no zero byte, the bytes rank 0 broadcasts
    are the catalog in wire format, but what the worker decodes is that catalog
    and then whatever follows the buffer in memory, up to the first zero byte.
    It is the catalog that was sent when the next byte happens to be zero; when
    any other byte and then a zero byte follow, a catalog whose topics all have
    keywords arrives with one more topic, or with a topic emptied. *)
Theorem worker_reads_past_receive_buffer
    (cat : Catalog.t) (beyond : string) (docs : list string) :
  Catalog.wf cat ->
  Cond.free_of ":" cat -> Cond.free_of "," cat -> Cond.free_of ";" cat ->
  Cond.free_of "000" cat ->
  let i := {| Paralel.wire := Paralel.encode cat; Paralel.beyond := beyond;
              Paralel.assignment := docs |} in
  Paralel.encode cat = Described.wire_format cat /\
  Paralel.received_catalog i = Paralel.decode (Std.c_str beyond) cat /\
  (forall junk, beyond = String "000" junk -> Paralel.received_catalog i = cat) /\
  (forall c junk,
     beyond = String c (String "000" junk) -> c <> "000"%char ->
     Forall (fun e : Catalog.entry => e.2 <> []) cat ->
     Paralel.received_catalog i <> cat).
Proof.
  intros Hwf Hc Hm Hs Hz i.
  assert (Paralel.received_catalog i = Paralel.decode (Std.c_str beyond) cat) as Hrecv
    by (by apply received_past_buffer; [|apply free_of_clean|]).
  split; [apply encode_described|]. split; [exact Hrecv|]. split.
  - intros junk ->. by rewrite Hrecv.
  - intros c junk -> Hc0 Hkeywords. rewrite Hrecv. cbn [Std.c_str].
    destruct (Ascii.eqb_spec c "000"); [done|]. rewrite Ascii.eqb_refl.
    destruct (decode_one_byte c cat) as [topic ->].
    intros Heq. pose proof (assign_In topic [] cat) as Hin. rewrite Heq in Hin.
    rewrite Forall_forall in Hkeywords. by apply (Hkeywords _ (proj2 (list_elem_of_In _ _) Hin)).
Qed.

Lemma worker_reads_past_receive_buffer_witness :
  let cat : Catalog.t := [("Animals", ["cat"; "dog"]); ("Colors", ["red"; "blue"])] in
  let beyond := String "q" (String "000" "junk") in
  let i := {| Paralel.wire := Paralel.encode cat; Paralel.beyond := beyond;
              Paralel.assignment := ["a.txt"] |} in
  Paralel.encode cat = Described.wire_format cat /\
  Paralel.received_catalog i = Paralel.decode (Std.c_str beyond) cat /\
  (forall junk, beyond = String "000" junk -> Paralel.received_catalog i = cat) /\
  (forall c junk,
     beyond = String c (String "000" junk) -> c <> "000"%char ->
     Forall (fun e : Catalog.entry => e.2 <> []) cat ->
     Paralel.received_catalog i <> cat).
Proof.
  apply (worker_reads_past_receive_buffer
           [("Animals", ["cat"; "dog"]); ("Colors", ["red"; "blue"])]
           (String "q" (String "000" "junk")) ["a.txt"]);
    repeat constructor.
Defined.

(** C8 (as stated, refuted): a topic name with a [':'] is neither rejected
    nor escaped; it goes onto the wire as it is and the worker decodes another
    catalog from it. *)
Lemma separator_silently_corrupts :
  let cat : Catalog.t := [("a:b", ["c"])] in
  read_lines ["a:b@%c"] Catalog.empty = Ret cat /\
  Catalog.wf cat /\ Cond.tainted cat /\
  Paralel.encode cat = "a:b:c,;" /\
  Paralel.received_catalog
    {| Paralel.wire := Paralel.encode cat; Paralel.beyond := String "000" "";
       Paralel.assignment := [] |} = [("a", ["b:c"])].
Proof.
  repeat split; repeat constructor.
Qed.

(** C8 (amended): the codec has no rejection and no escaping.  Every catalog
    is written to the wire verbatim, and whatever bytes a worker receives, it
    decodes no topic name with [':'] or [';'] and no keyword with [','] or
    [';']: a catalog that has such a token always arrives at the worker as a
    different catalog. *)
Theorem codec_neither_rejects_nor_escapes
    (cat : Catalog.t) (junk : string) (docs : list string) :
  Cond.tainted cat ->
  let i := {| Paralel.wire := Paralel.encode cat; Paralel.beyond := junk;
              Paralel.assignment := docs |} in
  Paralel.encode cat = Described.wire_format cat /\
  Forall Cond.clean (Paralel.received_catalog i) /\
  Paralel.received_catalog i <> cat.
Proof.
  intros Htainted i.
  assert (Forall Cond.clean (Paralel.received_catalog i)) as Hclean
    by (apply decode_clean; constructor).
  split; [apply encode_described|]. split; [done|].
  intros Heq. apply (tainted_not_clean cat Htainted). by rewrite <- Heq.
Qed.

Lemma codec_neither_rejects_nor_escapes_witness :
  let cat : Catalog.t := [("t", ["x,y"])] in
  let i := {| Paralel.wire := Paralel.encode cat; Paralel.beyond := String "000" "";
              Paralel.assignment := [] |} in
  Paralel.encode cat = Described.wire_format cat /\
  Forall Cond.clean (Paralel.received_catalog i) /\
  Paralel.received_catalog i <> cat.
Proof.
  apply (codec_neither_rejects_nor_escapes [("t", ["x,y"])] (String "000" "") []).
  right. repeat constructor.
Defined.

(** ** The matcher *)

Section Matcher.

Implicit Types (text term : string) (count : Z) (fuel : nat).

Lemma index_0_cons term b text :
  String.index 0 term (String b text) =
  if String.prefix term (String b text) then Some 0
  else option_map S (String.index 0 term text).
Proof. reflexivity. Qed.

Lemma index_S_cons n term b text :
  String.index (S n) term (String b text) = option_map S (String.index n term text).
Proof. reflexivity. Qed.

Lemma index_0_nil term : term <> "" -> String.index 0 term "" = None.
Proof. by destruct term. Qed.

(** Searching from position [n] is searching the suffix that starts there. *)
Lemma index_shift n term text :
  term <> "" ->
  String.index n term text =
  option_map (fun p => p + n) (String.index 0 term (Std.sdrop n text)).
Proof.
  intros Hterm. revert text; induction n as [|n IH]; intros text.
  - simpl. destruct (String.index 0 term text); simpl; [f_equal; lia | done].
  - destruct text as [|b text].
    + by destruct term.
    + rewrite index_S_cons, IH. simpl.
      destruct (String.index 0 term (Std.sdrop n text)); simpl; [f_equal; lia | done].
Qed.

(** The empty string is found wherever the search starts. *)
Lemma index_empty n text : n <= String.length text -> String.index n "" text = Some n.
Proof.
  revert n; induction text as [|b text IH]; intros n Hn.
  - simpl in Hn. by replace n with 0 by lia.
  - destruct n as [|n]; [done|].
    rewrite index_S_cons, IH; [done | simpl in Hn; lia].
Qed.

Lemma prefix_length term text :
  String.prefix term text = true -> String.length term <= String.length text.
Proof.
  revert text; induction term as [|a term IH]; intros text Hp; simpl; [lia|].
  destruct text as [|b text]; simpl in *; [done|].
  destruct (ascii_dec a b); [|done]. apply IH in Hp. lia.
Qed.

Lemma occurrences_from_skip term k text :
  Described.occurrences_from term k text =
  Described.occurrences term (Std.sdrop k text).
Proof.
  unfold Described.occurrences.
  revert k; induction text as [|a text IH]; intros k.
  - by rewrite sdrop_nil.
  - destruct k as [|k]; [done|]. simpl. apply IH.
Qed.

Lemma occurrences_not_found term text :
  String.index 0 term text = None -> Described.occurrences term text = 0.
Proof.
  unfold Described.occurrences.
  induction text as [|b text IH]; [done|].
  rewrite index_0_cons. cbn [Described.occurrences_from].
  destruct (String.prefix term (String b text)); [done|].
  destruct (String.index 0 term text); [done|]. auto.
Qed.

Lemma occurrences_found term text p :
  term <> "" ->
  String.index 0 term text = Some p ->
  p + String.length term <= String.length text /\
  Described.occurrences term text =
  S (Described.occurrences term (Std.sdrop (p + String.length term) text)).
Proof.
  intros Hterm. unfold Described.occurrences.
  revert p; induction text as [|b text IH]; intros p.
  - by rewrite index_0_nil.
  - rewrite index_0_cons. cbn [Described.occurrences_from].
    destruct (String.prefix term (String b text)) eqn:Hp.
    + intros [= <-]. split; [by apply prefix_length|].
      rewrite occurrences_from_skip. unfold Described.occurrences.
      destruct term as [|a term]; [done|]. simpl. by rewrite Nat.sub_0_r.
    + destruct (String.index 0 term text) as [q|]; [|done].
      intros [= <-]. destruct (IH q eq_refl) as [Hle ->]. simpl. split; [lia | done].
Qed.

(** Occurrences that are counted do not overlap: together they fit into
    the text. *)
Lemma occurrences_from_fit term k text :
  term <> "" ->
  Described.occurrences_from term k text * String.length term
    + Nat.min k (String.length text) <= String.length text.
Proof.
  intros Hterm.
  assert (1 <= String.length term) as Hlen by (destruct term; simpl; [done | lia]).
  revert k; induction text as [|b text IH]; intros k; [simpl; lia|].
  destruct k as [|k]; cbn [Described.occurrences_from String.length].
  - destruct (String.prefix term (String b text)) eqn:Hp.
    + apply prefix_length in Hp. simpl in Hp.
      specialize (IH (String.length term - 1)). lia.
    + specialize (IH 0). lia.
  - specialize (IH k). lia.
Qed.

Lemma occurrences_fit term text :
  term <> "" ->
  Described.occurrences term text * String.length term <= String.length text.
Proof.
  intros Hterm. pose proof (occurrences_from_fit term 0 text Hterm) as H.
  unfold Described.occurrences. lia.
Qed.

(** *** The scanning loop of the MPI program *)

Lemma count_term_suffix term text fuel off count :
  term <> "" ->
  String.length (Std.sdrop off text) < fuel ->
  (count <= INT_MAX)%Z ->
  Paralel.count_term fuel text term
    (option_map (fun p => p + off) (String.index 0 term (Std.sdrop off text))) count =
  let total := (count + Z.of_nat (Described.occurrences term (Std.sdrop off text)))%Z in
  if (total <=? INT_MAX)%Z then Ret total else Undefined.
Proof.
  intros Hterm. revert off count; induction fuel as [|fuel IH]; intros off count Hfuel Hcount;
    [lia|].
  destruct (String.index 0 term (Std.sdrop off text)) as [p|] eqn:Hfind.
  - destruct (occurrences_found _ _ _ Hterm Hfind) as [Hin ->].
    cbn [option_map Paralel.count_term]. unfold Std.find.
    rewrite incr_spec.
    destruct (Z.leb_spec (count + 1) INT_MAX) as [Hok|Hover]; cbn [outcome_bind].
    + rewrite (index_shift (p + off + String.length term)) by done.
      replace (p + off + String.length term) with (off + (p + String.length term)) by lia.
      rewrite IH.
      * cbv zeta. rewrite sdrop_add.
        replace (count + Z.of_nat (S _))%Z
          with (count + 1 + Z.of_nat (Described.occurrences term
            (Std.sdrop (p + String.length term) (Std.sdrop off text))))%Z by lia.
        done.
      * rewrite sdrop_add, length_sdrop.
        assert (1 <= String.length term) by (destruct term; simpl; [done | lia]). lia.
      * lia.
    + cbv zeta. destruct (Z.leb_spec
        (count + Z.of_nat (S (Described.occurrences term
           (Std.sdrop (p + String.length term) (Std.sdrop off text))))) INT_MAX); [lia | done].
  - rewrite (occurrences_not_found _ _ Hfind). cbn [option_map Paralel.count_term]. cbv zeta.
    rewrite Z.add_0_r. destruct (Z.leb_spec count INT_MAX); [done | lia].
Qed.

Lemma count_term_spec term text fuel count :
  term <> "" ->
  String.length text < fuel ->
  (count <= INT_MAX)%Z ->
  Paralel.count_term fuel text term (Std.find text term 0) count =
  let total := (count + Z.of_nat (Described.occurrences term text))%Z in
  if (total <=? INT_MAX)%Z then Ret total else Undefined.
Proof.
  intros Hterm Hfuel Hcount.
  etransitivity; [|exact (count_term_suffix term text fuel 0 count Hterm Hfuel Hcount)].
  f_equal. unfold Std.find. cbn [Std.sdrop].
  destruct (String.index 0 term text); simpl; [f_equal; lia | done].
Qed.

Lemma topic_count_cons text term identifiers :
  Described.topic_count text (term :: identifiers) =
  Described.occurrences term text + Described.topic_count text identifiers.
Proof. reflexivity. Qed.

Lemma count_identifiers_spec text fuel identifiers count :
  Forall (fun term => term <> "") identifiers ->
  String.length text < fuel ->
  (count <= INT_MAX)%Z ->
  Paralel.count_identifiers fuel text identifiers count =
  let total := (count + Z.of_nat (Described.topic_count text identifiers))%Z in
  if (total <=? INT_MAX)%Z then Ret total else Undefined.
Proof.
  intros Hterms Hfuel. revert count.
  induction Hterms as [|term identifiers Hterm _ IH]; intros count Hcount.
  - simpl. rewrite Z.add_0_r. destruct (Z.leb_spec count INT_MAX); [done | lia].
  - cbn [Paralel.count_identifiers]. rewrite count_term_spec by done. cbv zeta.
    rewrite topic_count_cons, Nat2Z.inj_add, Z.add_assoc.
    destruct (Z.leb_spec (count + Z.of_nat (Described.occurrences term text)) INT_MAX)
      as [Hok|Hover]; cbn [outcome_bind].
    + by rewrite IH.
    + destruct (Z.leb_spec (count + Z.of_nat (Described.occurrences term text)
                  + Z.of_nat (Described.topic_count text identifiers)) INT_MAX); [lia | done].
Qed.

Lemma keywords_nonempty_cons topic identifiers catalog :
  Cond.keywords_nonempty ((topic, identifiers) :: catalog) <->
  Forall (fun term => term <> "") identifiers /\ Cond.keywords_nonempty catalog.
Proof. unfold Cond.keywords_nonempty, Catalog.keywords. simpl. apply Forall_app. Qed.

Lemma classify_topics_spec text fuel catalog TopicsList :
  Cond.keywords_nonempty catalog ->
  String.length text < fuel ->
  Paralel.classify_topics fuel text catalog TopicsList =
  if Described.counts_fit text catalog
  then Ret (TopicsList ++ Described.counts text catalog) else Undefined.
Proof.
  intros Hkw Hfuel. revert TopicsList Hkw.
  induction catalog as [|[topic identifiers] catalog IH]; intros TopicsList Hkw.
  - simpl. by rewrite app_nil_r.
  - apply keywords_nonempty_cons in Hkw as [Hids Hkw].
    cbn [Paralel.classify_topics]. rewrite count_identifiers_spec by (done || by compute).
    cbv zeta. rewrite Z.add_0_l. cbn [Described.counts_fit forallb fst snd].
    destruct (Z.of_nat (Described.topic_count text identifiers) <=? INT_MAX)%Z;
      cbn [outcome_bind andb]; [|done].
    rewrite IH by done. fold (Described.counts_fit text catalog).
    destruct (Described.counts_fit text catalog); [|done].
    by rewrite <- app_assoc.
Qed.

End Matcher.

(** ** The scanning loop of the single-process program *)

Section TwoScans.

Implicit Types (text term : string) (count : Z) (fuel memory : nat)
  (occurrences : list Z).

Lemma exhausted_bind {A B : Type} memory (k : A -> outcome B) :
  outcome_bind (Cond.exhausted memory) k = Cond.exhausted memory.
Proof. unfold Cond.exhausted. by destruct (Z.of_nat memory <=? INT_MAX)%Z. Qed.

(** The loop for one keyword, from any point of the text on: it records
    and counts the occurrences the description counts, as long as the vector
    can grow and the counter does not overflow. *)
Lemma find_term_suffix term text fuel memory off occurrences count :
  term <> "" ->
  String.length (Std.sdrop off text) < fuel ->
  Z.of_nat (length occurrences) = count ->
  length occurrences <= memory ->
  (count <= INT_MAX)%Z ->
  let n := Described.occurrences term (Std.sdrop off text) in
  let r := Sequential.find_term fuel memory text term
             (option_map (fun p => p + off) (String.index 0 term (Std.sdrop off text)))
             occurrences count in
  if (length occurrences + n <=? memory) && (Z.of_nat (length occurrences + n) <=? INT_MAX)%Z
  then exists occurrences',
         r = Ret (occurrences', (count + Z.of_nat n)%Z) /\
         length occurrences' = length occurrences + n
  else r = Cond.exhausted memory.
Proof.
  intros Hterm. revert off occurrences count.
  induction fuel as [|fuel IH]; intros off occurrences count Hfuel Hinv Hroom Hcount; [lia|].
  destruct (String.index 0 term (Std.sdrop off text)) as [p|] eqn:Hfind.
  - destruct (occurrences_found _ _ _ Hterm Hfind) as [Hin ->].
    cbn [option_map Sequential.find_term]. unfold Sequential.push_back, Std.find.
    destruct (Nat.ltb_spec (length occurrences) memory) as [Hpush|Hfull]; cbn [outcome_bind].
    + rewrite incr_spec.
      destruct (Z.leb_spec (count + 1) INT_MAX) as [Hok|Hover]; cbn [outcome_bind].
      * rewrite (index_shift (p + off + String.length term)) by done.
        replace (p + off + String.length term) with (off + (p + String.length term)) by lia.
        assert (1 <= String.length term) as Hlen1 by (destruct term; simpl; [done | lia]).
        specialize (IH (off + (p + String.length term))
                      (occurrences ++ [to_int (Z.of_nat (p + off))]) (count + 1)%Z).
        rewrite sdrop_add, length_sdrop, length_app in IH. cbn [length] in IH.
        specialize (IH ltac:(lia) ltac:(lia) ltac:(lia) ltac:(lia)).
        cbv zeta in IH. rewrite (sdrop_add off (p + String.length term)).
        replace (length occurrences + 1 + _) with
          (length occurrences +
           S (Described.occurrences term
                (Std.sdrop (p + String.length term) (Std.sdrop off text)))) in IH by lia.
        destruct (_ && _); [|exact IH].
        destruct IH as (occurrences' & -> & Hlen).
        exists occurrences'. split; [f_equal; f_equal; lia | lia].
      * destruct (Nat.leb_spec (length occurrences + S (Described.occurrences term
                    (Std.sdrop (p + String.length term) (Std.sdrop off text)))) memory);
          destruct (Z.leb_spec (Z.of_nat (length occurrences + S (Described.occurrences term
                    (Std.sdrop (p + String.length term) (Std.sdrop off text))))) INT_MAX);
          cbn [andb]; try lia;
          unfold Cond.exhausted; destruct (Z.leb_spec (Z.of_nat memory) INT_MAX); (done || lia).
    + destruct (Nat.leb_spec (length occurrences + S (Described.occurrences term
                  (Std.sdrop (p + String.length term) (Std.sdrop off text)))) memory);
        cbn [andb]; [lia|].
      unfold Cond.exhausted. destruct (Z.leb_spec (Z.of_nat memory) INT_MAX); [done | lia].
  - rewrite (occurrences_not_found _ _ Hfind). cbn [option_map Sequential.find_term].
    rewrite Nat.add_0_r, Z.add_0_r.
    destruct (Nat.leb_spec (length occurrences) memory); [|lia].
    destruct (Z.leb_spec (Z.of_nat (length occurrences)) INT_MAX); [|lia].
    by exists occurrences.
Qed.

Lemma find_term_spec term text fuel memory occurrences count :
  term <> "" ->
  String.length text < fuel ->
  Z.of_nat (length occurrences) = count ->
  length occurrences <= memory ->
  (count <= INT_MAX)%Z ->
  let n := Described.occurrences term text in
  let r := Sequential.find_term fuel memory text term (Std.find text term 0)
             occurrences count in
  if (length occurrences + n <=? memory) && (Z.of_nat (length occurrences + n) <=? INT_MAX)%Z
  then exists occurrences',
         r = Ret (occurrences', (count + Z.of_nat n)%Z) /\
         length occurrences' = length occurrences + n
  else r = Cond.exhausted memory.
Proof.
  intros Hterm Hfuel Hinv Hroom Hcount.
  pose proof (find_term_suffix term text fuel memory 0 occurrences count
                Hterm Hfuel Hinv Hroom Hcount) as H.
  cbn [Std.sdrop] in H.
  replace (option_map (fun p => p + 0) (String.index 0 term text))
    with (Std.find text term 0) in H; [exact H|].
  unfold Std.find. destruct (String.index 0 term text); simpl; [f_equal; lia | done].
Qed.

Lemma find_identifiers_spec text fuel memory identifiers occurrences count :
  Forall (fun term => term <> "") identifiers ->
  String.length text < fuel ->
  Z.of_nat (length occurrences) = count ->
  length occurrences <= memory ->
  (count <= INT_MAX)%Z ->
  let n := Described.topic_count text identifiers in
  let r := Sequential.find_identifiers fuel memory text identifiers occurrences count in
  if (length occurrences + n <=? memory) && (Z.of_nat (length occurrences + n) <=? INT_MAX)%Z
  then exists occurrences',
         r = Ret (occurrences', (count + Z.of_nat n)%Z) /\
         length occurrences' = length occurrences + n
  else r = Cond.exhausted memory.
Proof.
  intros Hterms Hfuel. revert occurrences count.
  induction Hterms as [|term identifiers Hterm _ IH]; intros occurrences count Hinv Hroom Hcount.
  - cbv zeta. cbn [Sequential.find_identifiers]. change (Described.topic_count text []) with 0.
    rewrite Nat.add_0_r, Z.add_0_r.
    destruct (Nat.leb_spec (length occurrences) memory); [|lia].
    destruct (Z.leb_spec (Z.of_nat (length occurrences)) INT_MAX); [|lia].
    by exists occurrences.
  - cbv zeta. cbn [Sequential.find_identifiers]. rewrite topic_count_cons.
    pose proof (find_term_spec term text fuel memory occurrences count
                  Hterm Hfuel Hinv Hroom Hcount) as Ht.
    cbv zeta in Ht.
    set (n1 := Described.occurrences term text) in *.
    set (n2 := Described.topic_count text identifiers) in *.
    destruct (Nat.leb_spec (length occurrences + n1) memory) as [Hm1|Hm1];
      destruct (Z.leb_spec (Z.of_nat (length occurrences + n1)) INT_MAX) as [Hc1|Hc1];
      cbn [andb] in Ht.
    + destruct Ht as (occurrences1 & -> & Hlen1). cbn [outcome_bind].
      specialize (IH occurrences1 (count + Z.of_nat n1)%Z).
      cbv zeta in IH. fold n2 in IH. rewrite Hlen1 in IH.
      replace (length occurrences + (n1 + n2)) with (length occurrences + n1 + n2) by lia.
      destruct (_ && _).
      * destruct IH as (occurrences' & -> & Hlen); try lia.
        exists occurrences'. split; [f_equal; f_equal; lia | lia].
      * apply IH; lia.
    + rewrite Ht, exhausted_bind.
      destruct (Z.leb_spec (Z.of_nat (length occurrences + (n1 + n2))) INT_MAX); [lia|].
      by rewrite andb_false_r.
    + rewrite Ht, exhausted_bind.
      destruct (Nat.leb_spec (length occurrences + (n1 + n2)) memory); [lia | done].
    + rewrite Ht, exhausted_bind.
      destruct (Nat.leb_spec (length occurrences + (n1 + n2)) memory); [lia | done].
Qed.

(** The single-process matcher on a catalog without empty keyword. *)
Lemma find_topics_spec text fuel memory catalog matches :
  Cond.keywords_nonempty catalog ->
  String.length text < fuel ->
  Sequential.find_topics fuel memory text catalog matches =
  if Described.counts_fit text catalog && Cond.vectors_fit memory text catalog
  then Ret (matches ++
            map (fun e : Catalog.entry =>
                   {| Sequential.topicName := e.1;
                      Sequential.count := Z.of_nat (Described.topic_count text e.2) |})
                catalog)
  else Cond.exhausted memory.
Proof.
  intros Hkw Hfuel. revert matches Hkw.
  induction catalog as [|[topic identifiers] catalog IH]; intros matches Hkw.
  - simpl. by rewrite app_nil_r.
  - apply keywords_nonempty_cons in Hkw as [Hids Hkw].
    cbn [Sequential.find_topics Described.counts_fit Cond.vectors_fit forallb fst snd map].
    fold (Described.counts_fit text catalog). fold (Cond.vectors_fit memory text catalog).
    pose proof (find_identifiers_spec text fuel memory identifiers [] 0 Hids Hfuel eq_refl)
      as Hspec.
    cbv zeta in Hspec. cbn [length] in Hspec. rewrite Nat.add_0_l in Hspec.
    set (n := Described.topic_count text identifiers) in *.
    destruct (Nat.leb_spec n memory) as [Hm|Hm];
      destruct (Z.leb_spec (Z.of_nat n) INT_MAX) as [Hc|Hc]; cbn [andb] in *.
    + destruct Hspec as (occurrences & -> & Hlen); [lia | by compute|].
      cbn [outcome_bind]. rewrite IH by done.
      destruct (Described.counts_fit text catalog), (Cond.vectors_fit memory text catalog);
        cbn [andb]; try done.
      rewrite <- app_assoc. cbn [app]. rewrite Hlen. rewrite to_int_small by lia. done.
    + rewrite Hspec by (lia || by compute). by rewrite exhausted_bind, ?andb_false_r.
    + rewrite Hspec by (lia || by compute). by rewrite exhausted_bind, ?andb_false_r.
    + rewrite Hspec by (lia || by compute). by rewrite exhausted_bind, ?andb_false_r.
Qed.

(** *** An empty keyword *)

Lemma count_term_empty fuel text p count :
  p <= String.length text ->
  ~ returns (Paralel.count_term fuel text "" (Some p) count).
Proof.
  intros Hp. revert count; induction fuel as [|fuel IH]; intros count [c Hc]; simpl in Hc;
    [done|].
  unfold Std.find in Hc. rewrite Nat.add_0_r, index_empty in Hc by done.
  destruct (incr count) as [count'| | | |]; simpl in Hc; try done.
  apply (IH count'). by exists c.
Qed.

Lemma count_identifiers_empty fuel text identifiers count :
  In "" identifiers ->
  ~ returns (Paralel.count_identifiers fuel text identifiers count).
Proof.
  revert count; induction identifiers as [|term identifiers IH]; intros count; [done|].
  intros Hin [c Hc]. simpl in Hc.
  destruct (Paralel.count_term fuel text term (Std.find text term 0) count)
    as [count'| | | |] eqn:Hterm; simpl in Hc; try done.
  destruct Hin as [-> | Hin].
  - apply (count_term_empty fuel text 0 count); [lia|].
    exists count'. rewrite <- Hterm. unfold Std.find. by rewrite index_empty by lia.
  - apply (IH count' Hin). by exists c.
Qed.

Lemma classify_topics_empty fuel text catalog TopicsList :
  ~ Cond.keywords_nonempty catalog ->
  ~ returns (Paralel.classify_topics fuel text catalog TopicsList).
Proof.
  revert TopicsList.
  induction catalog as [|[topic identifiers] catalog IH]; intros TopicsList Hempty.
  - destruct Hempty. constructor.
  - intros [r Hr]. simpl in Hr.
    destruct (Paralel.count_identifiers fuel text identifiers 0) as [count| | | |] eqn:Hids;
      simpl in Hr; try done.
    destruct (in_dec String.string_dec "" identifiers) as [Hin|Hnotin].
    + apply (count_identifiers_empty fuel text identifiers 0 Hin). by exists count.
    + apply (IH (TopicsList ++ [(topic, count)])); [|by exists r].
      intros Hkw. apply Hempty, keywords_nonempty_cons. split; [|done].
      apply Forall_forall. intros term Hterm ->. by apply Hnotin, list_elem_of_In.
Qed.

(** The matcher hands back a result only for a catalog without an empty
    keyword: on an empty keyword the search never moves on. *)
Lemma classify_returns_only_nonempty fuel text catalog :
  returns (Paralel.classify fuel text catalog) -> Cond.keywords_nonempty catalog.
Proof.
  intros Hret.
  destruct (decide (Forall (fun kw => kw <> "") (Catalog.keywords catalog))) as [H|H];
    [done|].
  by destruct (classify_topics_empty fuel text catalog [] H).
Qed.

Lemma find_term_empty fuel memory text p occurrences count :
  p <= String.length text ->
  ~ returns (Sequential.find_term fuel memory text "" (Some p) occurrences count).
Proof.
  intros Hp. revert occurrences count.
  induction fuel as [|fuel IH]; intros occurrences count [r Hr]; simpl in Hr; [done|].
  destruct (Sequential.push_back memory occurrences (to_int (Z.of_nat p)))
    as [occurrences'| | | |]; simpl in Hr; try done.
  unfold Std.find in Hr. rewrite Nat.add_0_r, index_empty in Hr by done.
  destruct (incr count) as [count'| | | |]; simpl in Hr; try done.
  apply (IH occurrences' count'). by exists r.
Qed.

Lemma find_identifiers_empty fuel memory text identifiers occurrences count :
  In "" identifiers ->
  ~ returns (Sequential.find_identifiers fuel memory text identifiers occurrences count).
Proof.
  revert occurrences count.
  induction identifiers as [|term identifiers IH]; intros occurrences count; [done|].
  intros Hin [r Hr]. simpl in Hr.
  destruct (Sequential.find_term fuel memory text term (Std.find text term 0)
              occurrences count) as [[occurrences' count']| | | |] eqn:Hterm;
    simpl in Hr; try done.
  destruct Hin as [-> | Hin].
  - apply (find_term_empty fuel memory text 0 occurrences count); [lia|].
    exists (occurrences', count'). rewrite <- Hterm. unfold Std.find.
    by rewrite index_empty by lia.
  - apply (IH occurrences' count' Hin). by exists r.
Qed.

Lemma find_topics_empty fuel memory text catalog matches :
  ~ Cond.keywords_nonempty catalog ->
  ~ returns (Sequential.find_topics fuel memory text catalog matches).
Proof.
  revert matches.
  induction catalog as [|[topic identifiers] catalog IH]; intros matches Hempty.
  - destruct Hempty. constructor.
  - intros [r Hr]. simpl in Hr.
    destruct (Sequential.find_identifiers fuel memory text identifiers [] 0)
      as [[occurrences count]| | | |] eqn:Hids; simpl in Hr; try done.
    destruct (in_dec String.string_dec "" identifiers) as [Hin|Hnotin].
    + apply (find_identifiers_empty fuel memory text identifiers [] 0 Hin).
      by exists (occurrences, count).
    + eapply IH; [|by exists r].
      intros Hkw. apply Hempty, keywords_nonempty_cons. split; [|done].
      apply Forall_forall. intros term Hterm ->. by apply Hnotin, list_elem_of_In.
Qed.

Lemma find_topics_returns_only_nonempty fuel memory text catalog :
  returns (Sequential.find_topics fuel memory text catalog []) ->
  Cond.keywords_nonempty catalog.
Proof.
  intros Hret.
  destruct (decide (Forall (fun kw => kw <> "") (Catalog.keywords catalog))) as [H|H];
    [done|].
  by destruct (find_topics_empty fuel memory text catalog [] H).
Qed.

End TwoScans.

(** ** What the matcher returns *)

Section MatcherResult.

Lemma count_term_bounds fuel text term pos count c :
  (0 <= count)%Z ->
  Paralel.count_term fuel text term pos count = Ret c -> (count <= c)%Z.
Proof.
  revert pos count. induction fuel as [|fuel IH]; intros [p|] count Hpos; simpl;
    try (intros [= <-]; lia); try done.
  unfold incr. destruct (Z.ltb_spec count INT_MAX); simpl; [|done].
  intros Hc%IH; lia.
Qed.

Lemma count_identifiers_bounds fuel text identifiers count c :
  (0 <= count)%Z ->
  Paralel.count_identifiers fuel text identifiers count = Ret c -> (count <= c)%Z.
Proof.
  revert count. induction identifiers as [|term identifiers IH]; intros count Hpos; simpl.
  - intros [= <-]; lia.
  - destruct (Paralel.count_term fuel text term (Std.find text term 0) count) as [c'| | | |]
      eqn:Hterm; simpl; try done.
    apply count_term_bounds in Hterm; [|done]. intros Hc%IH; lia.
Qed.

(** Whenever the matcher returns, its result has one pair per topic, in
    catalog order, and no negative count. *)
Lemma classify_topics_shape fuel text catalog TopicsList r :
  Paralel.classify_topics fuel text catalog TopicsList = Ret r ->
  map fst r = map fst TopicsList ++ Catalog.topics catalog /\
  (Forall (fun p => 0 <= p.2)%Z TopicsList -> Forall (fun p => 0 <= p.2)%Z r).
Proof.
  revert TopicsList. induction catalog as [|[topic identifiers] catalog IH];
    intros TopicsList; simpl.
  - intros [= <-]. by rewrite app_nil_r.
  - destruct (Paralel.count_identifiers fuel text identifiers 0) as [c| | | |] eqn:Hids;
      simpl; try done.
    apply count_identifiers_bounds in Hids; [|done].
    intros [Hfst Hpos]%IH. split.
    + by rewrite Hfst, map_app, <- app_assoc.
    + intros HT. apply Hpos, Forall_app. split; [done|]. by constructor.
Qed.

Lemma classify_shape fuel text catalog r :
  Paralel.classify fuel text catalog = Ret r ->
  map fst r = Catalog.topics catalog /\ Forall (fun p => 0 <= p.2)%Z r.
Proof.
  intros [Hfst Hpos]%classify_topics_shape. split; [done|]. apply Hpos. constructor.
Qed.

End MatcherResult.

(** The scenario of the description: one [cat], one [dog]; two [red], no
    [blue]. *)
Example animals_and_colors :
  Paralel.classify 40 "the cat is red and the dog is red"
    [("Animals", ["cat"; "dog"]); ("Colors", ["red"; "blue"])]
  = Ret [("Animals", 2%Z); ("Colors", 2%Z)].
Proof. reflexivity. Qed.

(** A topic without keywords counts 0. *)
Example topic_without_keywords (fuel : nat) (text : string) :
  Paralel.classify fuel text [("Empty", [])] = Ret [("Empty", 0%Z)].
Proof. reflexivity. Qed.

(** C1 (as stated, refuted): with the empty string as a keyword neither
    program ever gets a count; the search finds it at position 0 and resumes at
    position 0 for ever. *)
Lemma empty_keyword_never_counted :
  let catalog : Catalog.t := [("t", [""])] in
  read_lines ["t@%"] Catalog.empty = Ret catalog /\
  Catalog.wf catalog /\
  forall fuel memory,
    ~ returns (Paralel.classify fuel "aaaa" catalog) /\
    ~ returns (Sequential.find_topics fuel memory "aaaa" catalog []).
Proof.
  split; [reflexivity|]. split; [repeat constructor|].
  intros fuel memory. split; intros Hret.
  - apply classify_returns_only_nonempty in Hret. by inversion Hret.
  - apply find_topics_returns_only_nonempty in Hret. by inversion Hret.
Qed.

(** C1 (amended): for every catalog whose keywords are all non-empty and
    every text, both programs return, for each topic in catalog order, the sum
    over the topic's keywords of the keyword's non-overlapping occurrences,
    found by scanning from position 0 and resuming at the end of each
    occurrence; the occurrences counted for a keyword fit side by side into the
    text.  The exceptions are a topic total above [INT_MAX], where [count++]
    overflows, and, in the single-process program, a topic total above what
    the vector of recorded positions can grow to, where [push_back] throws
    [std::bad_alloc].  For keyword ["aa"] and text ["aaaa"] the count is 2. *)
Theorem matcher_counts_nonoverlapping
    (fuel memory : nat) (text : string) (catalog : Catalog.t) :
  Cond.keywords_nonempty catalog ->
  String.length text < fuel ->
  Paralel.classify fuel text catalog =
    (if Described.counts_fit text catalog
     then Ret (Described.counts text catalog) else Undefined) /\
  Sequential.find_topics fuel memory text catalog [] =
    (if Described.counts_fit text catalog && Cond.vectors_fit memory text catalog
     then Ret (map (fun e : Catalog.entry =>
                      {| Sequential.topicName := e.1;
                         Sequential.count := Z.of_nat (Described.topic_count text e.2) |})
                   catalog)
     else if (Z.of_nat memory <=? INT_MAX)%Z then Throw "std::bad_alloc" else Undefined) /\
  Forall (fun kw => Described.occurrences kw text * String.length kw <= String.length text)
         (Catalog.keywords catalog) /\
  Described.occurrences "aa" "aaaa" = 2 /\
  Paralel.classify 5 "aaaa" [("t", ["aa"])] = Ret [("t", 2%Z)].
Proof.
  intros Hkw Hfuel.
  assert (Paralel.classify fuel text catalog =
          if Described.counts_fit text catalog
          then Ret (Described.counts text catalog) else Undefined) as Hpar.
  { unfold Paralel.classify. by rewrite classify_topics_spec. }
  repeat split; try done.
  - by rewrite find_topics_spec.
  - unfold Cond.keywords_nonempty in Hkw. eapply Forall_impl; [exact Hkw|].
    intros kw Hne. by apply occurrences_fit.
Qed.

Lemma matcher_counts_nonoverlapping_witness :
  let text := "the cat is red and the dog is red" in
  let catalog : Catalog.t := [("Animals", ["cat"; "dog"]); ("Colors", ["red"; "blue"])] in
  Paralel.classify 40 text catalog =
    (if Described.counts_fit text catalog
     then Ret (Described.counts text catalog) else Undefined) /\
  Sequential.find_topics 40 1000 text catalog [] =
    (if Described.counts_fit text catalog && Cond.vectors_fit 1000 text catalog
     then Ret (map (fun e : Catalog.entry =>
                      {| Sequential.topicName := e.1;
                         Sequential.count := Z.of_nat (Described.topic_count text e.2) |})
                   catalog)
     else if (Z.of_nat 1000 <=? INT_MAX)%Z then Throw "std::bad_alloc" else Undefined) /\
  Forall (fun kw => Described.occurrences kw text * String.length kw <= String.length text)
         (Catalog.keywords catalog) /\
  Described.occurrences "aa" "aaaa" = 2 /\
  Paralel.classify 5 "aaaa" [("t", ["aa"])] = Ret [("t", 2%Z)].
Proof.
  apply (matcher_counts_nonoverlapping 40 1000 "the cat is red and the dog is red"
           [("Animals", ["cat"; "dog"]); ("Colors", ["red"; "blue"])]).
  - repeat constructor; discriminate.
  - vm_compute. lia.
Defined.

(** C4 (the code against the claim): the catalog line [Animals@%cat,] is
    read as the topic [Animals] with the keywords ["cat"] and [""], and for
    that catalog the matcher returns no result for any text, however long it
    runs: no entry is produced for any topic. *)
Theorem trailing_comma_starves_matcher :
  read_lines ["Animals@%cat,"] Catalog.empty = Ret [("Animals", ["cat"; ""])] /\
  forall fuel text,
    ~ returns (Paralel.classify fuel text [("Animals", ["cat"; ""])]).
Proof.
  split; [reflexivity|].
  intros fuel text Hret%classify_returns_only_nonempty.
  apply keywords_nonempty_cons in Hret as [Hids _].
  apply Forall_cons in Hids as [_ Hids]. apply Forall_cons in Hids as [Hne _]. done.
Qed.

(** ** Processes *)

Section Processes.

Context {A B : Type}.

Lemma proc_bind_ret (m : proc A) (k : A -> proc B) (a : A) :
  result m = Ret a ->
  proc_bind m k = Proc (trace m ++ trace (k a)) (result (k a)).
Proof. unfold proc_bind. by intros ->. Qed.

Lemma emit_bind (e : event) (k : proc B) :
  (emit e ;; k) = Proc (e :: trace k) (result k).
Proof. reflexivity. Qed.

Lemma lift_ret_bind (a : A) (k : A -> proc B) : proc_bind (lift (Ret a)) k = k a.
Proof. unfold proc_bind, lift. simpl. by destruct (k a). Qed.

End Processes.

Lemma sent_documents_app i tr tr' :
  sent_documents i (tr ++ tr') = sent_documents i tr ++ sent_documents i tr'.
Proof. apply omap_app. Qed.

Lemma sent_documents_int i dest n tr :
  sent_documents i (MPI_Send dest (MInt n) :: tr) = sent_documents i tr.
Proof. reflexivity. Qed.

Lemma sent_documents_doc i dest doc tr :
  sent_documents i (MPI_Send dest (MChars doc) :: tr) =
  if dest =? i then doc :: sent_documents i tr else sent_documents i tr.
Proof. unfold sent_documents. simpl. by destruct (dest =? i). Qed.

(** ** Dispatch *)

Section Dispatch.

Implicit Types (documents : list string) (i j k n start todo : nat).

Lemma index_of_int_nat n : index_of_int (Z.of_nat n) = Some n.
Proof.
  unfold index_of_int. destruct (Z.ltb_spec (Z.of_nat n) 0); [lia|].
  by rewrite Nat2Z.id.
Qed.

Lemma add_int_nat n (b : bool) :
  (Z.of_nat (n + (if b then 1 else 0)) <= INT_MAX)%Z ->
  add_int (Z.of_nat n) (if b then 1 else 0) = Ret (Z.of_nat (n + (if b then 1 else 0))).
Proof.
  intros Hle. unfold add_int, INT_MAX in *.
  destruct b;
    [replace (Z.of_nat n + 1)%Z with (Z.of_nat (n + 1)) by lia
    |replace (Z.of_nat n + 0)%Z with (Z.of_nat (n + 0)) by lia];
    match goal with
    | |- context [(?a <=? ?b)%Z && (?c <=? ?d)%Z] =>
        destruct (Z.leb_spec a b), (Z.leb_spec c d); (done || lia)
    end.
Qed.

(** One round of the inner loop, while the index is below [INT_MAX]. *)
Lemma send_documents_step documents i k start doc :
  documents !! start = Some doc ->
  (Z.of_nat start < INT_MAX)%Z ->
  Paralel.send_documents documents i (S k) (Z.of_nat start) =
  let rest := Paralel.send_documents documents i k (Z.of_nat (S start)) in
  Proc (MPI_Send i (MInt (to_int (Z.of_nat (String.length doc) + 1))) ::
        MPI_Send i (MChars doc) :: trace rest) (result rest).
Proof.
  intros Hdoc Hstart. cbn [Paralel.send_documents].
  rewrite index_of_int_nat. unfold Std.at_index. rewrite Hdoc.
  rewrite lift_ret_bind, !emit_bind. cbn [trace result].
  unfold incr. destruct (Z.ltb_spec (Z.of_nat start) INT_MAX); [|lia].
  rewrite lift_ret_bind. by rewrite Nat2Z.inj_succ, <- Z.add_1_r.
Qed.

Lemma send_documents_spec documents i k start :
  start + k <= length documents ->
  (Z.of_nat (length documents) <= INT_MAX)%Z ->
  result (Paralel.send_documents documents i k (Z.of_nat start)) = Ret (Z.of_nat (start + k)) /\
  forall j, sent_documents j (trace (Paralel.send_documents documents i k (Z.of_nat start))) =
            if j =? i then take k (drop start documents) else [].
Proof.
  intros Hlen Hmax. revert start Hlen; induction k as [|k IH]; intros start Hlen.
  - simpl. split; [do 2 f_equal; lia|]. intros j. by destruct (j =? i).
  - destruct (lookup_lt_is_Some_2 documents start) as [doc Hdoc]; [lia|].
    destruct (IH (S start)) as [Hres Hsent]; [lia|].
    rewrite (send_documents_step _ _ _ _ doc) by (done || lia). cbv zeta. cbn [result trace].
    split; [rewrite Hres; do 2 f_equal; lia|].
    intros j. rewrite sent_documents_int, sent_documents_doc, Hsent.
    rewrite (drop_S _ _ _ Hdoc), (Nat.eqb_sym i j).
    by destruct (j =? i).
Qed.

Lemma sum_list_cons n (l : list nat) : sum_list (n :: l) = n + sum_list l.
Proof. reflexivity. Qed.

(** One round of the outer loop, while the share is a value of an [int]. *)
Lemma dispatch_loop_step documents base rem todo i (startIdx : Z) :
  let sh := base + (if i <=? rem then 1 else 0) in
  (Z.of_nat sh <= INT_MAX)%Z ->
  Paralel.dispatch_loop documents (Z.of_nat base) (Z.of_nat rem) (S todo) i startIdx =
  (emit (MPI_Send i (MInt (Z.of_nat sh))) ;;
   run startIdx' <- Paralel.send_documents documents i sh startIdx;
   Paralel.dispatch_loop documents (Z.of_nat base) (Z.of_nat rem) todo (S i) startIdx').
Proof.
  intros sh Hsh. cbn [Paralel.dispatch_loop].
  replace (Z.of_nat i <=? Z.of_nat rem)%Z with (i <=? rem)
    by (destruct (Nat.leb_spec i rem), (Z.leb_spec (Z.of_nat i) (Z.of_nat rem)); (done || lia)).
  rewrite add_int_nat by done. fold sh.
  by rewrite lift_ret_bind, Nat2Z.id.
Qed.

(** What the outer loop sends, for any way [sh] of fixing the shares. *)
Lemma dispatch_loop_spec documents base rem todo i start :
  let sh j := base + (if j <=? rem then 1 else 0) in
  start + sum_list (map sh (seq i todo)) <= length documents ->
  (Z.of_nat (length documents) <= INT_MAX)%Z ->
  let p := Paralel.dispatch_loop documents (Z.of_nat base) (Z.of_nat rem) todo i
             (Z.of_nat start) in
  result p = Ret tt /\
  (forall j, i <= j < i + todo ->
     sent_documents j (trace p) =
     take (sh j) (drop (start + sum_list (map sh (seq i (j - i)))) documents)) /\
  (forall j, j < i \/ i + todo <= j -> sent_documents j (trace p) = []).
Proof.
  intros sh. revert i start; induction todo as [|todo IH]; intros i start Hlen Hmax p.
  - subst p. simpl. split; [done|]. split; [intros j Hj; lia | done].
  - cbn [seq map] in Hlen. rewrite sum_list_cons in Hlen.
    destruct (send_documents_spec documents i (sh i) start) as [Hres Hsent]; [lia|done|].
    destruct (IH (S i) (start + sh i)) as (Hr & Hin & Hout); [lia|done|].
    subst p. rewrite dispatch_loop_step by (fold (sh i); lia). cbv zeta. fold (sh i).
    rewrite emit_bind, (proc_bind_ret _ _ _ Hres). cbn [trace result].
    split; [exact Hr|]. split.
    + intros j Hj. rewrite sent_documents_int, sent_documents_app, Hsent.
      destruct (Nat.eqb_spec j i) as [->|Hne].
      * rewrite Hout by lia. rewrite Nat.sub_diag, app_nil_r. simpl.
        by rewrite Nat.add_0_r.
      * rewrite Hin by lia. simpl.
        replace (j - i) with (S (j - S i)) by lia.
        cbn [seq map]. rewrite sum_list_cons. by rewrite Nat.add_assoc.
    + intros j Hj. rewrite sent_documents_int, sent_documents_app, Hsent.
      destruct (Nat.eqb_spec j i) as [->|Hne]; [lia|].
      rewrite Hout by lia. done.
Qed.

(** With at most [INT_MAX] documents the quotient and the remainder are
    stored without loss. *)
Lemma dispatch_unfold documents size :
  (Z.of_nat (length documents) <= INT_MAX)%Z ->
  Paralel.dispatch documents size =
  Paralel.dispatch_loop documents
    (Z.of_nat (length documents / (size - 1))) (Z.of_nat (length documents mod (size - 1)))
    (size - 1) 1 (Z.of_nat 0).
Proof.
  intros Hmax. unfold Paralel.dispatch.
  pose proof (Nat.Div0.div_le_upper_bound (length documents) (size - 1) (length documents)).
  assert (length documents / (size - 1) <= length documents) as Hq.
  { destruct (size - 1) as [|w]; [simpl; lia|]. apply Nat.Div0.div_le_upper_bound. nia. }
  assert (length documents mod (size - 1) <= length documents) as Hr.
  { destruct (size - 1) as [|w]; [simpl; lia|]. apply Nat.Div0.mod_le. }
  by rewrite !to_int_small by lia.
Qed.

(** Slices laid end to end make up the stretch they were cut from. *)
Lemma slices_concat (sh : nat -> nat) documents cnt a start :
  concat (map (fun j => take (sh j)
                          (drop (start + sum_list (map sh (seq a (j - a)))) documents))
              (seq a cnt)) =
  take (sum_list (map sh (seq a cnt))) (drop start documents).
Proof.
  revert a start; induction cnt as [|cnt IH]; intros a start; [done|].
  cbn [seq map concat]. rewrite sum_list_cons, Nat.sub_diag. simpl seq. simpl map.
  replace (start + sum_list []) with start by (simpl; lia).
  rewrite <- take_take_drop, drop_drop. f_equal.
  rewrite <- IH. f_equal. apply map_ext_in. intros j Hj%in_seq.
  replace (j - a) with (S (j - S a)) by lia.
  cbn [seq map]. rewrite sum_list_cons. by rewrite Nat.add_assoc.
Qed.

Lemma sum_shares n workers k :
  sum_list (map (Described.share n workers) (seq 1 k)) =
  k * (n / workers) + Nat.min k (n mod workers).
Proof.
  induction k as [|k IH]; [done|].
  rewrite seq_S, map_app, sum_list_with_app, IH.
  cbn [map sum_list_with]. unfold Described.share, id.
  destruct (Nat.leb_spec (1 + k) (n mod workers)); lia.
Qed.

Lemma sum_shares_all n workers :
  1 <= workers -> sum_list (map (Described.share n workers) (seq 1 workers)) = n.
Proof.
  intros Hw. rewrite sum_shares.
  pose proof (Nat.div_mod_eq n workers).
  pose proof (Nat.mod_upper_bound n workers). lia.
Qed.

(** From [2^31] documents for one worker on, the share that is stored is
    negative: the count goes out as it is and no document follows. *)
Lemma dispatch_wraps documents :
  Z.of_nat (length documents) = 2147483648%Z ->
  Paralel.dispatch documents 2 = Proc [MPI_Send 1 (MInt (-2147483648))] (Ret tt).
Proof.
  intros Hlen. unfold Paralel.dispatch. change (2 - 1) with 1.
  rewrite Nat.div_1_r, Nat.mod_1_r, Hlen. reflexivity.
Qed.

End Dispatch.

(** C3 (as stated, refuted): the shares are kept in [int]s.  With [2^31]
    documents and one worker the share is stored as [-2^31]: rank 0 sends that
    number and not a single document, where the claim gives the worker all of
    them. *)
Lemma share_wraps_from_two_to_the_31 :
  let documents := replicate (Z.to_nat 2147483648) "a.txt" in
  Z.of_nat (length documents) = 2147483648%Z /\
  Paralel.dispatch documents 2 = Proc [MPI_Send 1 (MInt (-2147483648))] (Ret tt) /\
  sent_documents 1 (trace (Paralel.dispatch documents 2)) = [] /\
  Described.share (length documents) 1 1 = length documents /\
  length (sent_documents 1 (trace (Paralel.dispatch documents 2))) <>
    Described.share (length documents) 1 1.
Proof.
  cbv zeta.
  assert (Z.of_nat (length (replicate (Z.to_nat 2147483648) "a.txt")) = 2147483648%Z)
    as Hlen by (rewrite length_replicate; lia).
  assert (Described.share (length (replicate (Z.to_nat 2147483648) "a.txt")) 1 1 =
          length (replicate (Z.to_nat 2147483648) "a.txt")) as Hshare.
  { unfold Described.share. rewrite Nat.div_1_r, Nat.mod_1_r. cbn [Nat.leb]. lia. }
  assert (sent_documents 1
            (trace (Paralel.dispatch (replicate (Z.to_nat 2147483648) "a.txt") 2)) = [])
    as Hsent by (by rewrite dispatch_wraps).
  split; [exact Hlen|]. split; [by apply dispatch_wraps|].
  split; [exact Hsent|]. split; [exact Hshare|].
  rewrite Hshare, Hsent. change (length (@nil string)) with 0. lia.
Qed.

(** C3 (amended): for at most [INT_MAX] documents, the documents rank 0
    sends are cut into contiguous slices, one per worker rank [1..size-1], in
    the order of the list; the first [N mod W] workers get [N / W + 1]
    documents and the others [N / W]; the slices laid end to end are the list,
    their sizes add up to [N] and differ by at most one.  No index into the
    list is ever out of range. *)
Theorem dispatch_is_balanced_partition (documents : list string) (size : nat) :
  2 <= size ->
  (Z.of_nat (length documents) <= INT_MAX)%Z ->
  let workers := size - 1 in
  let n := length documents in
  let sent i := sent_documents i (trace (Paralel.dispatch documents size)) in
  result (Paralel.dispatch documents size) = Ret tt /\
  (forall i, 1 <= i <= workers ->
     sent i = take (Described.share n workers i)
                   (drop (Described.offset n workers i) documents) /\
     (i <= n mod workers -> length (sent i) = n / workers + 1) /\
     (n mod workers < i -> length (sent i) = n / workers)) /\
  (forall i, i = 0 \/ workers < i -> sent i = []) /\
  concat (map sent (seq 1 workers)) = documents /\
  sum_list (map (fun i => length (sent i)) (seq 1 workers)) = n /\
  (forall i j, 1 <= i <= workers -> 1 <= j <= workers ->
     length (sent i) <= length (sent j) + 1).
Proof.
  intros Hsize Hmax workers n sent.
  assert (1 <= workers) as Hw by (subst workers; lia).
  pose proof (sum_shares_all n workers Hw) as Hall.
  destruct (dispatch_loop_spec documents (n / workers) (n mod workers) workers 1 0)
    as (Hres & Hin & Hout).
  { fold (Described.share n workers). subst n. rewrite Hall in *. lia. }
  { done. }
  fold (Described.share n workers) in Hin.
  pose proof (dispatch_unfold documents size Hmax) as Hd.
  fold workers in Hd. fold n in Hd. rewrite <- Hd in Hres, Hin, Hout.
  assert (forall i, 1 <= i <= workers ->
            sent i = take (Described.share n workers i)
                          (drop (Described.offset n workers i) documents)) as Hslice.
  { intros i Hi. subst sent. cbv beta. rewrite Hin by lia. done. }
  assert (forall i, 1 <= i <= workers ->
            length (sent i) = Described.share n workers i) as Hlen.
  { intros i Hi. rewrite Hslice by done. rewrite length_take, length_drop.
    unfold Described.offset. rewrite sum_shares. fold n.
    pose proof (Nat.div_mod_eq n workers). pose proof (Nat.mod_upper_bound n workers).
    unfold Described.share. destruct (Nat.leb_spec i (n mod workers)); nia. }
  split; [done|]. split; [|split; [|split; [|split]]].
  - intros i Hi. split; [by apply Hslice|]. rewrite Hlen by done. unfold Described.share.
    split; intros Hrem; destruct (Nat.leb_spec i (n mod workers)); lia.
  - intros i Hi. apply Hout. lia.
  - transitivity (concat (map (fun j => take (Described.share n workers j)
        (drop (0 + sum_list (map (Described.share n workers) (seq 1 (j - 1)))) documents))
        (seq 1 workers))).
    + f_equal. apply map_ext_in. intros i Hi%in_seq. apply Hslice. lia.
    + rewrite slices_concat, Hall. subst n. by rewrite drop_0, firstn_all.
  - rewrite <- Hall. f_equal. apply map_ext_in. intros i Hi%in_seq. apply Hlen. lia.
  - intros i j Hi Hj. rewrite !Hlen by done. unfold Described.share.
    destruct (i <=? n mod workers), (j <=? n mod workers); lia.
Qed.

Lemma dispatch_is_balanced_partition_witness :
  let documents := ["a.txt"; "b.txt"; "c.html"; "d.tex"; "e.txt"] in
  let size := 4 in
  let workers := size - 1 in
  let n := length documents in
  let sent i := sent_documents i (trace (Paralel.dispatch documents size)) in
  result (Paralel.dispatch documents size) = Ret tt /\
  (forall i, 1 <= i <= workers ->
     sent i = take (Described.share n workers i)
                   (drop (Described.offset n workers i) documents) /\
     (i <= n mod workers -> length (sent i) = n / workers + 1) /\
     (n mod workers < i -> length (sent i) = n / workers)) /\
  (forall i, i = 0 \/ workers < i -> sent i = []) /\
  concat (map sent (seq 1 workers)) = documents /\
  sum_list (map (fun i => length (sent i)) (seq 1 workers)) = n /\
  (forall i j, 1 <= i <= workers -> 1 <= j <= workers ->
     length (sent i) <= length (sent j) + 1).
Proof.
  apply (dispatch_is_balanced_partition ["a.txt"; "b.txt"; "c.html"; "d.tex"; "e.txt"] 4).
  - lia.
  - vm_compute. discriminate.
Defined.

(** ** The dominant topic *)

Section DominantTopic.

Import Sequential.

Implicit Types (topics before after : list SearchResult) (t sr : SearchResult)
  (maxCount : Z) (matches : list (string * list SearchResult)).

(** Counts that do not exceed the running maximum leave the choice alone. *)
Lemma relevant_topic_keeps topics maxCount relevantTopic :
  Forall (fun sr => count sr <= maxCount)%Z topics ->
  relevant_topic topics maxCount relevantTopic = relevantTopic.
Proof.
  induction 1 as [|sr topics Hsr _ IH]; [done|]. simpl.
  destruct (Z.ltb_spec maxCount (count sr)); [lia | done].
Qed.

(** A topic that exceeds the running maximum and everything before it,
    and that nothing after it exceeds, is the one chosen. *)
Lemma relevant_topic_first_maximum before t after maxCount relevantTopic :
  (maxCount < count t)%Z ->
  Forall (fun b => count b < count t)%Z before ->
  Forall (fun a => count a <= count t)%Z after ->
  relevant_topic (before ++ t :: after) maxCount relevantTopic = topicName t.
Proof.
  intros Hmax Hbefore Hafter. revert maxCount relevantTopic Hmax.
  induction Hbefore as [|b before Hb _ IH]; intros maxCount relevantTopic Hmax; simpl.
  - destruct (Z.ltb_spec maxCount (count t)); [|lia].
    by apply relevant_topic_keeps.
  - destruct (Z.ltb_spec maxCount (count b)); by apply IH.
Qed.

(** Where some count exceeds the running maximum there is a first topic
    with the largest count. *)
Lemma first_maximum_exists topics maxCount :
  Exists (fun sr => maxCount < count sr)%Z topics ->
  exists before t after,
    topics = before ++ t :: after /\
    (maxCount < count t)%Z /\
    Forall (fun b => count b < count t)%Z before /\
    Forall (fun a => count a <= count t)%Z after.
Proof.
  revert maxCount. induction topics as [|x topics IH]; intros maxCount Hex.
  - by apply Exists_nil in Hex.
  - destruct (decide (Exists (fun sr => Z.max maxCount (count x) < count sr)%Z topics))
      as [Hlater|Hnone].
    + destruct (IH _ Hlater) as (before & t & after & -> & Hmax & Hbefore & Hafter).
      exists (x :: before), t, after. repeat split; [lia | | done].
      constructor; [lia | done].
    + apply not_Exists_Forall in Hnone; [|intros sr; apply _].
      assert (maxCount < count x)%Z as Hx.
      { apply Exists_cons in Hex as [Hx|Hl]; [done|].
        apply Exists_exists in Hl as (sr & Hin & Hsr).
        rewrite Forall_forall in Hnone. specialize (Hnone sr Hin). simpl in Hnone. lia. }
      exists [], x, topics. repeat split; [done | constructor |].
      eapply Forall_impl; [exact Hnone|]. simpl. intros sr Hsr. lia.
Qed.

(** The map holds, for a document, the choice made for its entry. *)
Lemma determineRelevantTopics_lookup matches docName (chosen : string) :
  (exists topics, In (docName, topics) matches) ->
  (forall topics, In (docName, topics) matches -> relevant_topic topics 0 "" = chosen) ->
  determineRelevantTopics matches !! docName = Some chosen.
Proof.
  unfold determineRelevantTopics. generalize (∅ : gmap string string).
  induction matches as [|[d ts] matches IH] using rev_ind; intros m0 [topics Hin] Hall.
  - destruct Hin.
  - rewrite fold_left_app. simpl.
    destruct (decide (d = docName)) as [->|Hne].
    + rewrite lookup_insert_eq. f_equal. apply Hall, in_app_iff. right. by left.
    + rewrite lookup_insert_ne by done.
      apply in_app_iff in Hin as [Hin|[Hin|[]]]; [|congruence].
      apply IH; [by exists topics|].
      intros topics' Hin'. apply Hall, in_app_iff. by left.
Qed.

End DominantTopic.

(** C5: for a document's per-topic counts, the topic chosen is the first
    one, in the order of the list, that carries the largest count: it exceeded
    the running maximum when it was reached, every earlier count is smaller,
    and no later count, equal counts included, replaces it.  For
    [Animals: 2, Colors: 2], in that order, it is [Animals]. *)
Theorem dominant_topic_is_first_maximum
    (matches : list (string * list Sequential.SearchResult))
    (docName : string) (topics : list Sequential.SearchResult) :
  In (docName, topics) matches ->
  (forall topics', In (docName, topics') matches -> topics' = topics) ->
  Exists (fun sr => 0 < Sequential.count sr)%Z topics ->
  (exists before t after,
     topics = before ++ t :: after /\
     Sequential.determineRelevantTopics matches !! docName = Some (Sequential.topicName t) /\
     (0 < Sequential.count t)%Z /\
     Forall (fun b => Sequential.count b < Sequential.count t)%Z before /\
     Forall (fun a => Sequential.count a <= Sequential.count t)%Z after) /\
  Sequential.determineRelevantTopics
    [("doc", [ {| Sequential.topicName := "Animals"; Sequential.count := 2 |};
               {| Sequential.topicName := "Colors"; Sequential.count := 2 |} ])] !! "doc"
  = Some "Animals".
Proof.
  intros Hin Honly Hex. split; [|reflexivity].
  destruct (first_maximum_exists topics 0 Hex) as (before & t & after & -> & Hmax & Hb & Ha).
  exists before, t, after. repeat split; try done.
  apply determineRelevantTopics_lookup; [by eexists|].
  intros topics' ->%Honly. by apply relevant_topic_first_maximum.
Qed.

Lemma dominant_topic_is_first_maximum_witness :
  let topics := [ {| Sequential.topicName := "Animals"; Sequential.count := 1 |};
                  {| Sequential.topicName := "Colors"; Sequential.count := 3 |};
                  {| Sequential.topicName := "Sports"; Sequential.count := 3 |} ] in
  let matches := [("a.txt", []); ("b.txt", topics)] in
  (exists before t after,
     topics = before ++ t :: after /\
     Sequential.determineRelevantTopics matches !! "b.txt" = Some (Sequential.topicName t) /\
     (0 < Sequential.count t)%Z /\
     Forall (fun b => Sequential.count b < Sequential.count t)%Z before /\
     Forall (fun a => Sequential.count a <= Sequential.count t)%Z after) /\
  Sequential.determineRelevantTopics
    [("doc", [ {| Sequential.topicName := "Animals"; Sequential.count := 2 |};
               {| Sequential.topicName := "Colors"; Sequential.count := 2 |} ])] !! "doc"
  = Some "Animals".
Proof.
  apply (dominant_topic_is_first_maximum
           [("a.txt", []);
            ("b.txt", [ {| Sequential.topicName := "Animals"; Sequential.count := 1 |};
                        {| Sequential.topicName := "Colors"; Sequential.count := 3 |};
                        {| Sequential.topicName := "Sports"; Sequential.count := 3 |} ])]
           "b.txt").
  - right. left. reflexivity.
  - intros topics' [H|[H|[]]]; [discriminate | by injection H].
  - left. simpl. lia.
Defined.

(** C10: a document all of whose topic counts are 0 is mapped to the
    empty string, not to a topic. *)
Theorem all_zero_counts_give_empty_topic
    (matches : list (string * list Sequential.SearchResult)) (docName : string) :
  (exists topics, In (docName, topics) matches) ->
  (forall topics, In (docName, topics) matches ->
     Forall (fun sr => Sequential.count sr = 0%Z) topics) ->
  Sequential.determineRelevantTopics matches !! docName = Some "".
Proof.
  intros Hin Hzero. apply determineRelevantTopics_lookup; [done|].
  intros topics Htopics. apply relevant_topic_keeps.
  eapply Forall_impl; [exact (Hzero _ Htopics)|]. simpl. intros sr ->. lia.
Qed.

Lemma all_zero_counts_give_empty_topic_witness :
  Sequential.determineRelevantTopics
    [("a.txt", [ {| Sequential.topicName := "Animals"; Sequential.count := 0 |};
                 {| Sequential.topicName := "Colors"; Sequential.count := 0 |} ]);
     ("b.txt", [ {| Sequential.topicName := "Animals"; Sequential.count := 4 |};
                 {| Sequential.topicName := "Colors"; Sequential.count := 0 |} ])] !! "a.txt"
  = Some "".
Proof.
  apply (all_zero_counts_give_empty_topic
           [("a.txt", [ {| Sequential.topicName := "Animals"; Sequential.count := 0 |};
                        {| Sequential.topicName := "Colors"; Sequential.count := 0 |} ]);
            ("b.txt", [ {| Sequential.topicName := "Animals"; Sequential.count := 4 |};
                        {| Sequential.topicName := "Colors"; Sequential.count := 0 |} ])]
           "a.txt").
  - eexists. left. reflexivity.
  - intros topics [H|[H|[]]]; [|discriminate].
    injection H as <-. repeat constructor.
Defined.

(** ** The two roles, in program order *)

Section Roles.

Implicit Types (fs : files) (documents : list string) (i : Paralel.inbox).

Lemma readCatalog_missing path fs catalog :
  fs path = None ->
  readCatalog_at path fs catalog =
  Proc [Cerr "Error opening the file!"] (Throw "Catalog file does not exist").
Proof. unfold readCatalog_at. by intros ->. Qed.

Lemma manager_missing_catalog fs documents size :
  fs "./actualCatalog.txt" = None ->
  Paralel.manager fs documents size =
  Proc [Cerr "Error opening the file!"] (Throw "Catalog file does not exist").
Proof.
  intros Hfs. unfold Paralel.manager, Paralel.readCatalog.
  by rewrite readCatalog_missing.
Qed.

Lemma manager_trace fs documents size content catalog :
  fs "./actualCatalog.txt" = Some content ->
  read_lines (Std.getlines content "010") Catalog.empty = Ret catalog ->
  trace (Paralel.manager fs documents size) =
  MPI_Bcast (MInt (to_int (Z.of_nat (String.length (Paralel.encode catalog))))) ::
  MPI_Bcast (MChars (Paralel.encode catalog)) ::
  MPI_Barrier :: trace (Paralel.dispatch documents size).
Proof.
  intros Hfs Hread. unfold Paralel.manager, Paralel.readCatalog, readCatalog_at.
  rewrite Hfs, Hread, lift_ret_bind, !emit_bind. cbn [trace]. do 3 f_equal.
  unfold proc_bind. destruct (result (Paralel.dispatch documents size)); simpl;
    by rewrite ?app_nil_r.
Qed.

Lemma worker_trace fuel fs writable i :
  trace (Paralel.worker fuel fs writable i) =
  MPI_Bcast (MInt (Z.of_nat (String.length (Paralel.wire i)))) ::
  MPI_Bcast (MChars (Paralel.wire i)) ::
  MPI_Recv (MInt (Z.of_nat (length (Paralel.assignment i)))) ::
  trace (Paralel.receive_documents fuel fs writable (Paralel.received_catalog i)
           (Paralel.assignment i)).
Proof. unfold Paralel.worker. by rewrite !emit_bind. Qed.

End Roles.

(** C6 (as stated, refuted): a catalog line without [@%] is not diagnosed.
    [tokenize] yields one token, [vector[1]] is read out of range, and neither
    program prints a diagnostic or throws.  A line with a second [@%] is not
    diagnosed either: what follows it is dropped and the catalog goes out to
    the workers. *)
Lemma line_without_separator_is_not_diagnosed :
  (forall fuel memory writable readable documents i,
     Paralel.main fuel (fun _ => Some "Animals") writable documents i 0 2
       = Proc [] Undefined /\
     Sequential.main fuel memory (fun _ => Some "Animals") writable readable documents
       = Proc [] Undefined) /\
  Paralel.manager (fun _ => Some "Animals@%cat@%dog") [] 2 =
    Proc [MPI_Bcast (MInt 13); MPI_Bcast (MChars "Animals:cat,;"); MPI_Barrier;
          MPI_Send 1 (MInt 0)] (Ret 0%Z).
Proof. split; [intros; split|]; reflexivity. Qed.

(** C6 (amended): if the catalog file cannot be opened, loading ends the
    program with the line "Error opening the file!" on [std::cerr] and an
    exception that nothing catches, before anything else happens: rank 0
    performs no broadcast, no barrier and no send, whatever the documents, and
    the single-process program classifies no document. *)
Theorem missing_catalog_is_fatal_before_contact
    (fuel memory : nat) (fs : files) (writable readable : bool) (documents : list string)
    (i : Paralel.inbox) (size : nat) :
  2 <= size ->
  fs "./actualCatalog.txt" = None ->
  fs "../catalog.txt" = None ->
  let p := Paralel.main fuel fs writable documents i 0 size in
  p = Proc [Cerr "Error opening the file!"] (Throw "Catalog file does not exist") /\
  Forall (fun e => communicates e = false) (trace p) /\
  (forall rank, sent_documents rank (trace p) = []) /\
  Sequential.main fuel memory fs writable readable documents =
    Proc [Cerr "Error opening the file!"] (Throw "Catalog file does not exist").
Proof.
  intros Hsize Hpar Hseq p.
  assert (p = Proc [Cerr "Error opening the file!"] (Throw "Catalog file does not exist"))
    as ->.
  { subst p. unfold Paralel.main.
    destruct (Nat.ltb_spec size 2); [lia|]. simpl. by apply manager_missing_catalog. }
  repeat split.
  - by repeat constructor.
  - unfold Sequential.main, Sequential.readCatalog. by rewrite readCatalog_missing.
Qed.

Lemma missing_catalog_is_fatal_before_contact_witness :
  let fs : files := fun _ => None in
  let i := {| Paralel.wire := ""; Paralel.beyond := ""; Paralel.assignment := [] |} in
  let p := Paralel.main 10 fs true ["a.txt"; "b.txt"] i 0 3 in
  p = Proc [Cerr "Error opening the file!"] (Throw "Catalog file does not exist") /\
  Forall (fun e => communicates e = false) (trace p) /\
  (forall rank, sent_documents rank (trace p) = []) /\
  Sequential.main 10 1000 fs true true ["a.txt"; "b.txt"] =
    Proc [Cerr "Error opening the file!"] (Throw "Catalog file does not exist").
Proof.
  apply (missing_catalog_is_fatal_before_contact 10 1000 (fun _ => None) true true
           ["a.txt"; "b.txt"]
           {| Paralel.wire := ""; Paralel.beyond := ""; Paralel.assignment := [] |} 3).
  - lia.
  - reflexivity.
  - reflexivity.
Defined.

(** C7 (the code against the claim): rank 0 broadcasts the catalog and
    then enters the barrier, and dispatches after it; every other rank enters
    the barrier first and only then makes the two broadcast calls that bring it
    the catalog.  When the barrier is crossed no worker holds the catalog. *)
Theorem workers_cross_barrier_before_catalog
    (fuel : nat) (fs : files) (writable : bool) (documents : list string)
    (i : Paralel.inbox) (rank size : nat) (content : string) (catalog : Catalog.t) :
  2 <= size ->
  rank <> 0 ->
  fs "./actualCatalog.txt" = Some content ->
  read_lines (Std.getlines content "010") Catalog.empty = Ret catalog ->
  trace (Paralel.main fuel fs writable documents i 0 size) =
    MPI_Bcast (MInt (to_int (Z.of_nat (String.length (Paralel.encode catalog))))) ::
    MPI_Bcast (MChars (Paralel.encode catalog)) ::
    MPI_Barrier :: trace (Paralel.dispatch documents size) /\
  trace (Paralel.main fuel fs writable documents i rank size) =
    MPI_Barrier ::
    MPI_Bcast (MInt (Z.of_nat (String.length (Paralel.wire i)))) ::
    MPI_Bcast (MChars (Paralel.wire i)) ::
    MPI_Recv (MInt (Z.of_nat (length (Paralel.assignment i)))) ::
    trace (Paralel.receive_documents fuel fs writable (Paralel.received_catalog i)
             (Paralel.assignment i)).
Proof.
  intros Hsize Hrank Hfs Hread. unfold Paralel.main.
  destruct (Nat.ltb_spec size 2); [lia|]. split.
  - simpl. by eapply manager_trace.
  - destruct (Nat.eqb_spec rank 0); [done|].
    rewrite emit_bind. cbn [trace]. f_equal.
    rewrite <- worker_trace. unfold proc_bind.
    destruct (result (Paralel.worker fuel fs writable i)); simpl; by rewrite ?app_nil_r.
Qed.

Lemma workers_cross_barrier_before_catalog_witness :
  let fs : files := fun path =>
    if String.eqb path "./actualCatalog.txt" then Some "Animals@%cat,dog"
    else Some "the cat and the dog" in
  let i := {| Paralel.wire := "Animals:cat,dog,;"; Paralel.beyond := String "000" "";
              Paralel.assignment := ["a.txt"] |} in
  let catalog : Catalog.t := [("Animals", ["cat"; "dog"])] in
  trace (Paralel.main 30 fs true ["a.txt"] i 0 2) =
    MPI_Bcast (MInt (to_int (Z.of_nat (String.length (Paralel.encode catalog))))) ::
    MPI_Bcast (MChars (Paralel.encode catalog)) ::
    MPI_Barrier :: trace (Paralel.dispatch ["a.txt"] 2) /\
  trace (Paralel.main 30 fs true ["a.txt"] i 1 2) =
    MPI_Barrier ::
    MPI_Bcast (MInt (Z.of_nat (String.length (Paralel.wire i)))) ::
    MPI_Bcast (MChars (Paralel.wire i)) ::
    MPI_Recv (MInt (Z.of_nat (length (Paralel.assignment i)))) ::
    trace (Paralel.receive_documents 30 fs true (Paralel.received_catalog i)
             (Paralel.assignment i)).
Proof.
  apply (workers_cross_barrier_before_catalog 30
           (fun path => if String.eqb path "./actualCatalog.txt"
                        then Some "Animals@%cat,dog" else Some "the cat and the dog")
           true ["a.txt"]
           {| Paralel.wire := "Animals:cat,dog,;"; Paralel.beyond := String "000" "";
              Paralel.assignment := ["a.txt"] |}
           1 2 "Animals@%cat,dog" [("Animals", ["cat"; "dog"])]).
  - lia.
  - lia.
  - reflexivity.
  - reflexivity.
Defined.

(** ** The catalog stays a map *)

Section CatalogOrder.

Implicit Types (a b c : string) (cat : Catalog.t).

Lemma ascii_compare_refl (x : ascii) : Ascii.compare x x = Eq.
Proof. unfold Ascii.compare. apply N.compare_refl. Qed.

Lemma ascii_compare_lt_trans (x y z : ascii) :
  Ascii.compare x y = Lt -> Ascii.compare y z = Lt -> Ascii.compare x z = Lt.
Proof. unfold Ascii.compare. rewrite !N.compare_lt_iff. apply N.lt_trans. Qed.

Lemma compare_lt_trans a b c :
  String.compare a b = Lt -> String.compare b c = Lt -> String.compare a c = Lt.
Proof.
  revert b c; induction a as [|x a IH]; intros [|y b] [|z c]; simpl; try done.
  destruct (Ascii.compare x y) eqn:Hxy; try done.
  - apply Ascii.compare_eq_iff in Hxy as ->.
    destruct (Ascii.compare y z); try done. apply IH.
  - intros _. destruct (Ascii.compare y z) eqn:Hyz; try done.
    + apply Ascii.compare_eq_iff in Hyz as <-. by rewrite Hxy.
    + by rewrite (ascii_compare_lt_trans x y z).
Qed.

Lemma compare_gt_lt a b : String.compare a b = Gt -> String.compare b a = Lt.
Proof. intros H. by rewrite String.compare_antisym, H. Qed.

Lemma wf_cons e cat :
  Catalog.wf (e :: cat) <-> Catalog.wf cat /\ Forall (Catalog.key_lt e) cat.
Proof.
  split; [apply StronglySorted_inv|]. intros [? ?]. by constructor.
Qed.

Lemma emplace_keys topic identifiers cat (P : string -> Prop) :
  P topic -> Forall (fun e => P e.1) cat ->
  Forall (fun e => P e.1) (Catalog.emplace topic identifiers cat).
Proof.
  intros Htopic. induction 1 as [|[k v] cat Hk Hcat IH]; simpl.
  - by repeat constructor.
  - destruct (String.compare topic k); repeat constructor; auto.
Qed.

Lemma assign_keys category items cat (P : string -> Prop) :
  P category -> Forall (fun e => P e.1) cat ->
  Forall (fun e => P e.1) (Catalog.assign category items cat).
Proof.
  intros Hcat. induction 1 as [|[k v] cat Hk Hrest IH]; simpl.
  - by repeat constructor.
  - destruct (String.compare category k); repeat constructor; auto.
Qed.

(** [emplace] keeps the keys strictly increasing. *)
Lemma emplace_wf topic identifiers cat :
  Catalog.wf cat -> Catalog.wf (Catalog.emplace topic identifiers cat).
Proof.
  induction cat as [|[k v] cat IH]; intros Hwf; simpl.
  - repeat constructor.
  - apply wf_cons in Hwf as [Hwf Hk].
    destruct (String.compare topic k) eqn:Hcmp.
    + by apply wf_cons.
    + apply wf_cons. split; [by apply wf_cons|].
      constructor; [exact Hcmp|].
      eapply Forall_impl; [exact Hk|]. intros e He.
      unfold Catalog.key_lt in *; simpl in *. by eapply compare_lt_trans.
    + apply wf_cons. split; [by apply IH|].
      apply (emplace_keys topic identifiers cat (fun x => String.compare k x = Lt));
        [by apply compare_gt_lt | exact Hk].
Qed.

(** So does [operator[]] with an assignment. *)
Lemma assign_wf category items cat :
  Catalog.wf cat -> Catalog.wf (Catalog.assign category items cat).
Proof.
  induction cat as [|[k v] cat IH]; intros Hwf; simpl.
  - repeat constructor.
  - apply wf_cons in Hwf as [Hwf Hk].
    destruct (String.compare category k) eqn:Hcmp.
    + apply String.compare_eq_iff in Hcmp as ->. by apply wf_cons.
    + apply wf_cons. split; [by apply wf_cons|].
      constructor; [exact Hcmp|].
      eapply Forall_impl; [exact Hk|]. intros e He.
      unfold Catalog.key_lt in *; simpl in *. by eapply compare_lt_trans.
    + apply wf_cons. split; [by apply IH|].
      apply (assign_keys category items cat (fun x => String.compare k x = Lt));
        [by apply compare_gt_lt | exact Hk].
Qed.

(** Every catalog a worker decodes is a map. *)
Lemma decode_wf ss cat : Catalog.wf cat -> Catalog.wf (Paralel.decode ss cat).
Proof.
  unfold Paralel.decode. revert cat.
  induction (Std.getlines ss ";") as [|entry entries IH]; intros cat Hwf; [done|].
  simpl. apply IH. unfold Paralel.decode_entry.
  destruct (Std.getline entry ":") as [[category rest]|]; by apply assign_wf.
Qed.

(** Every catalog [readCatalog] builds is a map. *)
Lemma read_lines_wf lines cat cat' :
  Catalog.wf cat -> read_lines lines cat = Ret cat' -> Catalog.wf cat'.
Proof.
  revert cat. induction lines as [|line lines IH]; intros cat Hwf; simpl.
  - by intros [= <-].
  - destruct (tokenize line "@%") as [vector| | | |]; simpl; try done.
    destruct (Std.at_index vector 0) as [topic| | | |]; simpl; try done.
    destruct (Std.at_index vector 1) as [identifiers| | | |]; simpl; try done.
    destruct (tokenize identifiers ",") as [keywords| | | |]; simpl; try done.
    apply IH. by apply emplace_wf.
Qed.

Lemma readCatalog_wf path fs cat :
  result (readCatalog_at path fs Catalog.empty) = Ret cat -> Catalog.wf cat.
Proof.
  unfold readCatalog_at. destruct (fs path) as [content|]; [|done]. simpl.
  apply read_lines_wf. constructor.
Qed.

End CatalogOrder.

(** ** [tokenize] always comes back *)

Section Tokenize.

Implicit Types (s del : string).

Lemma index_found_bounds n del s m :
  del <> "" ->
  String.index n del s = Some m ->
  n <= m /\ m + String.length del <= String.length s.
Proof.
  intros Hdel. rewrite index_shift by done.
  destruct (String.index 0 del (Std.sdrop n s)) as [p|] eqn:Hfind; [|done].
  intros [= <-]. destruct (occurrences_found _ _ _ Hdel Hfind) as [Hin _].
  assert (1 <= String.length del) by (destruct del; simpl; [done | lia]).
  rewrite length_sdrop in Hin. lia.
Qed.

Lemma tokenize_loop_returns fuel s del tokens start :
  del <> "" ->
  start <= String.length s ->
  String.length s - start < fuel ->
  returns (tokenize_loop fuel s del tokens start (Std.find s del start)).
Proof.
  intros Hdel. revert tokens start.
  induction fuel as [|fuel IH]; intros tokens start Hstart Hfuel; [lia|].
  assert (1 <= String.length del) by (destruct del; simpl; [done | lia]).
  unfold Std.find. destruct (String.index start del s) as [e|] eqn:Hfind.
  - destruct (index_found_bounds _ _ _ _ Hdel Hfind) as [Hge Hle].
    cbn [tokenize_loop]. unfold Std.substr.
    destruct (Nat.leb_spec start (String.length s)); [|lia]. cbn [outcome_bind].
    apply IH; lia.
  - cbn [tokenize_loop]. unfold Std.substr_from, Std.substr.
    destruct (Nat.leb_spec start (String.length s)); [|lia]. by eexists.
Qed.

(** The fuel [tokenize] is run with suffices for every non-empty
    delimiter. *)
Lemma tokenize_returns s del : del <> "" -> returns (tokenize s del).
Proof. intros Hdel. apply tokenize_loop_returns; [done | lia | lia]. Qed.

(** Reading the catalog ends with a catalog or in the out-of-range read. *)
Lemma read_lines_outcome lines cat :
  returns (read_lines lines cat) \/ read_lines lines cat = Undefined.
Proof.
  revert cat. induction lines as [|line lines IH]; intros cat; simpl.
  - left. by eexists.
  - destruct (tokenize_returns line "@%") as [vector ->]; [done|]. simpl.
    destruct vector as [|topic [|identifiers vector]]; simpl; [by right | by right|].
    destruct (tokenize_returns identifiers ",") as [keywords ->]; [done|]. simpl.
    apply IH.
Qed.

End Tokenize.

(** ** [tokenize] cuts and loses nothing *)

Section TokenizeJoin.

Implicit Types (s del t : string) (n m k p : nat).

Lemma substring_nil n m : String.substring n m "" = "".
Proof. by destruct n, m. Qed.

Lemma substring_0_sdrop k s : String.substring 0 k s +:+ Std.sdrop k s = s.
Proof.
  revert s; induction k as [|k IH]; intros s; [by destruct s|].
  destruct s as [|c s]; [done|]. simpl. by rewrite append_cons, IH.
Qed.

(** A stretch of [s] followed by what comes after it is the rest of [s]. *)
Lemma substring_sdrop n k s :
  String.substring n k s +:+ Std.sdrop (n + k) s = Std.sdrop n s.
Proof.
  revert s; induction n as [|n IH]; intros s; [apply substring_0_sdrop|].
  destruct s as [|c s]; [by rewrite substring_nil|]. simpl. apply IH.
Qed.

Lemma substring_to_end n k s :
  String.length s <= n + k -> String.substring n k s = Std.sdrop n s.
Proof.
  intros Hlen. rewrite <- (substring_sdrop n k s).
  replace (Std.sdrop (n + k) s) with "".
  - by rewrite append_nil_r.
  - pose proof (length_sdrop (n + k) s) as Hl.
    destruct (Std.sdrop (n + k) s); [done | simpl in Hl; lia].
Qed.

Lemma length_substring n m s : String.length (String.substring n m s) <= m.
Proof.
  revert n s; induction m as [|m IH]; intros n s.
  - revert s; induction n as [|n IHn]; intros [|c s]; simpl; try lia. apply IHn.
  - revert s; induction n as [|n IHn]; intros [|c s]; simpl; try lia.
    + specialize (IH 0 s). lia.
    + apply IHn.
Qed.

Lemma substring_0_substring_0 m p k s :
  p + k <= m ->
  String.substring p k (String.substring 0 m s) = String.substring p k s.
Proof.
  revert p k s; induction m as [|m IH]; intros p k s Hle.
  - replace p with 0 by lia. replace k with 0 by lia. by destruct s.
  - destruct s as [|c s]; [done|]. simpl.
    destruct p as [|p].
    + destruct k as [|k]; [done|]. simpl. f_equal. apply (IH 0). lia.
    + simpl. apply IH. lia.
Qed.

(** A stretch of a stretch is a stretch of the whole. *)
Lemma substring_substring n m p k s :
  p + k <= m ->
  String.substring p k (String.substring n m s) = String.substring (n + p) k s.
Proof.
  intros Hle. revert s; induction n as [|n IH]; intros s.
  - by apply substring_0_substring_0.
  - destruct s as [|c s]; [by rewrite !substring_nil|]. simpl. apply IH.
Qed.

Lemma has_char_substring c n m s :
  Std.has_char c s = false -> Std.has_char c (String.substring n m s) = false.
Proof.
  revert n m; induction s as [|a s IH]; intros n m; [by rewrite substring_nil|].
  simpl. destruct (Ascii.eqb a c) eqn:E; [done|]. intros Hs.
  destruct n as [|n], m as [|m]; simpl; rewrite ?E; auto.
Qed.

Lemma concat_cons del t (tokens : list string) :
  tokens <> [] ->
  String.concat del (t :: tokens) = t +:+ del +:+ String.concat del tokens.
Proof. by destruct tokens. Qed.

(** The stretch before the delimiter that [find] reports holds no
    delimiter. *)
Lemma token_has_no_delimiter s del start e :
  del <> "" ->
  String.index start del s = Some e ->
  String.index 0 del (String.substring start (e - start) s) = None.
Proof.
  intros Hdel Hfind.
  destruct (String.index 0 del (String.substring start (e - start) s)) as [p|] eqn:Hin;
    [|done].
  exfalso.
  destruct (index_found_bounds _ _ _ _ Hdel Hfind) as [Hge _].
  destruct (index_found_bounds _ _ _ _ Hdel Hin) as [_ Hp].
  pose proof (length_substring start (e - start) s) as Hlen.
  assert (1 <= String.length del) by (destruct del; simpl; [done | lia]).
  apply String.index_correct1 in Hin.
  rewrite substring_substring in Hin by lia.
  apply (String.index_correct2 _ _ _ _ Hfind (start + p)); [lia | lia | done].
Qed.

Lemma tokenize_loop_spec s del fuel tokens start :
  del <> "" ->
  start <= String.length s ->
  String.length s - start < fuel ->
  exists found,
    tokenize_loop fuel s del tokens start (Std.find s del start) = Ret (tokens ++ found) /\
    String.concat del found = Std.sdrop start s /\
    found <> [] /\
    Forall (fun t => Std.find t del 0 = None) found /\
    length found = S (Described.occurrences del (Std.sdrop start s)).
Proof.
  intros Hdel. revert tokens start.
  induction fuel as [|fuel IH]; intros tokens start Hstart Hfuel; [lia|].
  assert (1 <= String.length del) by (destruct del; simpl; [done | lia]).
  unfold Std.find. destruct (String.index start del s) as [e|] eqn:Hfind.
  - destruct (index_found_bounds _ _ _ _ Hdel Hfind) as [Hge Hle].
    cbn [tokenize_loop]. unfold Std.substr.
    destruct (Nat.leb_spec start (String.length s)); [|lia]. cbn [outcome_bind].
    destruct (IH (tokens ++ [String.substring start (e - start) s])
                 (e + String.length del)) as (found & Hloop & Hjoin & Hne & Hfree & Hcount);
      [lia | lia |].
    exists (String.substring start (e - start) s :: found).
    cbv zeta. rewrite Hloop, <- app_assoc. split; [done|].
    assert (String.index 0 del (Std.sdrop start s) = Some (e - start)) as Hsuffix.
    { rewrite index_shift in Hfind by done.
      destruct (String.index 0 del (Std.sdrop start s)) as [q|]; [|done].
      injection Hfind as <-. f_equal. lia. }
    repeat split.
    + rewrite concat_cons, Hjoin by done.
      rewrite <- (substring_sdrop start (e - start) s).
      replace (start + (e - start)) with e by lia.
      rewrite <- (substring_sdrop e (String.length del) s).
      by rewrite (String.index_correct1 _ _ _ _ Hfind).
    + done.
    + constructor; [|done]. by apply (token_has_no_delimiter s del start e).
    + simpl. rewrite Hcount. f_equal.
      destruct (occurrences_found _ _ _ Hdel Hsuffix) as [_ ->].
      rewrite <- sdrop_add. do 3 f_equal. lia.
  - cbn [tokenize_loop]. unfold Std.substr_from, Std.substr.
    destruct (Nat.leb_spec start (String.length s)); [|lia]. cbn [outcome_bind].
    assert (String.index 0 del (Std.sdrop start s) = None) as Hsuffix.
    { rewrite index_shift in Hfind by done.
      by destruct (String.index 0 del (Std.sdrop start s)). }
    exists [Std.sdrop start s]. rewrite substring_to_end by lia. repeat split.
    + done.
    + by constructor.
    + simpl. by rewrite (occurrences_not_found _ _ Hsuffix).
Qed.

Lemma tokenize_tokens s del :
  del <> "" ->
  exists tokens,
    tokenize s del = Ret tokens /\
    String.concat del tokens = s /\
    Forall (fun t => Std.find t del 0 = None) tokens /\
    length tokens = S (Described.occurrences del s).
Proof.
  intros Hdel.
  destruct (tokenize_loop_spec s del (S (String.length s)) [] 0 Hdel)
    as (found & Hloop & Hjoin & _ & Hfree & Hcount); [lia | lia |].
  exists found. by repeat split.
Qed.

End TokenizeJoin.

(** X1: for a non-empty delimiter [tokenize] always returns; its tokens,
    joined with the delimiter, are the input again; no token holds the
    delimiter; and there is one token more than there are non-overlapping
    delimiters in the input. *)
Theorem tokenize_join (s del : string) :
  del <> "" ->
  exists tokens,
    tokenize s del = Ret tokens /\
    String.concat del tokens = s /\
    Forall (fun t => Std.find t del 0 = None) tokens /\
    length tokens = S (Described.occurrences del s).
Proof. apply tokenize_tokens. Qed.

Lemma tokenize_join_witness :
  exists tokens,
    tokenize "Animals@%cat,dog" "@%" = Ret tokens /\
    String.concat "@%" tokens = "Animals@%cat,dog" /\
    Forall (fun t => Std.find t "@%" 0 = None) tokens /\
    length tokens = S (Described.occurrences "@%" "Animals@%cat,dog").
Proof. apply (tokenize_join "Animals@%cat,dog" "@%"). discriminate. Defined.

(** ** What [readCatalog] makes of the catalog file *)

Section ReadCatalog.

Implicit Types (line s t : string) (lines : list string) (cat : Catalog.t).

Lemma has_separator_occurrences line :
  Obs.has_separator line = true <-> 1 <= Described.occurrences "@%" line.
Proof.
  unfold Obs.has_separator, Std.find.
  destruct (String.index 0 "@%" line) as [p|] eqn:Hfind.
  - destruct (occurrences_found "@%" line p) as [_ ->]; [done | done |]. split; [lia | done].
  - rewrite (occurrences_not_found _ _ Hfind). split; [done | lia].
Qed.

(** The tokens of a line: two or more with a separator, one without. *)
Lemma tokenize_line line :
  exists topic rest,
    tokenize line "@%" = Ret (topic :: rest) /\
    (rest = [] <-> Obs.has_separator line = false) /\
    String.concat "@%" (topic :: rest) = line /\
    Std.find topic "@%" 0 = None.
Proof.
  destruct (tokenize_tokens line "@%") as (tokens & Htok & Hjoin & Hfree & Hlen); [done|].
  destruct tokens as [|topic rest]; [done|].
  exists topic, rest. apply Forall_cons in Hfree as [Htopic _].
  repeat split; try done.
  - intros ->. simpl in Hlen.
    destruct (Obs.has_separator line) eqn:E; [|done].
    apply has_separator_occurrences in E. lia.
  - intros E. destruct rest as [|ids rest]; [done|]. simpl in Hlen.
    assert (1 <= Described.occurrences "@%" line) as H%has_separator_occurrences by lia.
    congruence.
Qed.

Lemma read_lines_cons line lines cat :
  read_lines (line :: lines) cat =
  if Obs.has_separator line
  then do vector <- tokenize line "@%";
       do topic <- Std.at_index vector 0;
       do identifiers <- Std.at_index vector 1;
       do keywords <- tokenize identifiers ",";
       read_lines lines (Catalog.emplace topic keywords cat)
  else Undefined.
Proof.
  destruct (tokenize_line line) as (topic & rest & Htok & Hrest & _).
  destruct (Obs.has_separator line); [done|].
  simpl. rewrite Htok. by rewrite (proj2 Hrest eq_refl).
Qed.

Lemma read_lines_by_separator lines cat :
  if forallb Obs.has_separator lines
  then returns (read_lines lines cat)
  else read_lines lines cat = Undefined.
Proof.
  revert cat. induction lines as [|line lines IH]; intros cat; [by eexists|].
  rewrite read_lines_cons. cbn [forallb].
  destruct (tokenize_line line) as (topic & rest & Htok & Hrest & _).
  destruct (Obs.has_separator line); [|done]. cbn [andb]. rewrite Htok.
  destruct rest as [|identifiers rest]; [discriminate (proj1 Hrest eq_refl)|].
  cbn [outcome_bind Std.at_index lookup list_lookup].
  destruct (tokenize_tokens identifiers ",") as (keywords & -> & _); [done|].
  cbn [outcome_bind]. apply IH.
Qed.

(** *** The shape of what was read *)

Lemma find_comma_has_char t : Std.find t "," 0 = None -> Std.has_char "," t = false.
Proof.
  unfold Std.find. induction t as [|a t IH]; [done|].
  rewrite index_0_cons. cbn [String.prefix Std.has_char].
  destruct (ascii_dec "," a) as [<-|Hne].
  - by destruct t.
  - destruct (String.index 0 "," t); [done|]. intros _.
    destruct (Ascii.eqb_spec a ","); [congruence | by apply IH].
Qed.

Lemma has_char_concat c del (tokens : list string) :
  Std.has_char c (String.concat del tokens) = false ->
  Forall (fun t => Std.has_char c t = false) tokens.
Proof.
  induction tokens as [|t tokens IH]; [constructor|].
  destruct tokens as [|t' tokens].
  - simpl. by repeat constructor.
  - rewrite concat_cons by done. rewrite !has_char_append.
    intros [Ht [_ Hrest]%orb_false_elim]%orb_false_elim. constructor; auto.
Qed.

Lemma emplace_Forall (P : Catalog.entry -> Prop) topic identifiers cat :
  P (topic, identifiers) -> Forall P cat -> Forall P (Catalog.emplace topic identifiers cat).
Proof.
  intros Hnew. induction 1 as [|[k v] cat Hk Hcat IH]; simpl.
  - by constructor.
  - destruct (String.compare topic k); repeat constructor; auto.
Qed.

Lemma read_lines_parsed lines cat cat' :
  Forall (fun line => Std.has_char "010" line = false) lines ->
  Forall Obs.parsed cat ->
  read_lines lines cat = Ret cat' ->
  Forall Obs.parsed cat'.
Proof.
  intros Hlines. revert cat.
  induction Hlines as [|line lines Hline _ IH]; intros cat Hcat; simpl.
  - by intros [= <-].
  - destruct (tokenize_line line) as (topic & rest & -> & _ & Hjoin & Htopic).
    destruct rest as [|identifiers rest]; [done|].
    cbn [outcome_bind Std.at_index lookup list_lookup].
    destruct (tokenize_tokens identifiers ",") as (keywords & -> & Hjoin' & Hfree & Hlen);
      [done|].
    cbn [outcome_bind]. apply IH, emplace_Forall; [|done].
    rewrite <- Hjoin in Hline. apply has_char_concat in Hline.
    apply Forall_cons in Hline as [Hnl Hrest]. apply Forall_cons in Hrest as [Hids _].
    rewrite <- Hjoin' in Hids. apply has_char_concat in Hids.
    repeat split; simpl; try done.
    + intros ->. simpl in Hlen. lia.
    + rewrite Forall_forall in *. intros kw Hkw. split; [|by apply Hids].
      by apply find_comma_has_char, Hfree.
Qed.

(** *** Entries stay *)

Lemma emplace_keeps e topic identifiers cat :
  In e cat -> In e (Catalog.emplace topic identifiers cat).
Proof.
  induction cat as [|[k v] cat IH]; [done|]. simpl.
  destruct (String.compare topic k); simpl; tauto.
Qed.

Lemma read_lines_keeps e lines cat cat' :
  In e cat -> read_lines lines cat = Ret cat' -> In e cat'.
Proof.
  revert cat. induction lines as [|line lines IH]; intros cat Hin; simpl.
  - by intros [= <-].
  - destruct (tokenize line "@%") as [vector| | | |]; simpl; try done.
    destruct (Std.at_index vector 0) as [topic| | | |]; simpl; try done.
    destruct (Std.at_index vector 1) as [identifiers| | | |]; simpl; try done.
    destruct (tokenize identifiers ",") as [keywords| | | |]; simpl; try done.
    apply IH. by apply emplace_keeps.
Qed.

Lemma compare_irrefl s : String.compare s s <> Lt.
Proof.
  intros H. pose proof (String.compare_antisym s s) as Ha. rewrite H in Ha. done.
Qed.

(** A map holds one value per key. *)
Lemma wf_unique cat k v v' :
  Catalog.wf cat -> In (k, v) cat -> In (k, v') cat -> v = v'.
Proof.
  induction 1 as [|e cat Hwf IH Hlt]; [done|].
  rewrite Forall_forall in Hlt.
  intros [->|Hin] [H'|Hin'].
  - congruence.
  - apply list_elem_of_In, Hlt in Hin'. by destruct (compare_irrefl k).
  - subst e. apply list_elem_of_In, Hlt in Hin. by destruct (compare_irrefl k).
  - by apply IH.
Qed.

End ReadCatalog.

(** X2: when the catalog file opens, [readCatalog] prints no diagnostic
    and throws nothing; it returns a catalog exactly when every line of the
    file holds [@%], and otherwise runs into the out-of-range [vector[1]]. *)
Theorem readCatalog_returns_by_separator
    (path : string) (fs : files) (content : string) (cat : Catalog.t) :
  fs path = Some content ->
  trace (readCatalog_at path fs cat) = [] /\
  if forallb Obs.has_separator (Std.getlines content "010")
  then returns (result (readCatalog_at path fs cat))
  else result (readCatalog_at path fs cat) = Undefined.
Proof.
  intros Hfs. unfold readCatalog_at. rewrite Hfs. split; [done|].
  apply read_lines_by_separator.
Qed.

Lemma readCatalog_returns_by_separator_witness :
  let content := "Animals@%cat,dog" +:+ String "010" "Colors" in
  let fs : files := fun _ => Some content in
  trace (readCatalog_at "./actualCatalog.txt" fs Catalog.empty) = [] /\
  if forallb Obs.has_separator (Std.getlines content "010")
  then returns (result (readCatalog_at "./actualCatalog.txt" fs Catalog.empty))
  else result (readCatalog_at "./actualCatalog.txt" fs Catalog.empty) = Undefined.
Proof.
  apply (readCatalog_returns_by_separator "./actualCatalog.txt"
           (fun _ => Some ("Animals@%cat,dog" +:+ String "010" "Colors"))
           ("Animals@%cat,dog" +:+ String "010" "Colors") Catalog.empty).
  reflexivity.
Defined.

(** X3: every catalog [readCatalog] returns is a map with strictly
    increasing topic names in which every topic has at least one keyword (a
    line with nothing after [@%] gives the keyword [""], never an empty list),
    no keyword holds a comma, no topic name holds [@%], and nothing holds a
    line feed. *)
Theorem readCatalog_result_shape (path : string) (fs : files) (cat : Catalog.t) :
  result (readCatalog_at path fs Catalog.empty) = Ret cat ->
  Catalog.wf cat /\ Forall Obs.parsed cat.
Proof.
  intros Hres. split; [by eapply readCatalog_wf|].
  unfold readCatalog_at in Hres. destruct (fs path) as [content|]; [|done].
  simpl in Hres. eapply read_lines_parsed; [|constructor|exact Hres].
  apply getlines_no_delim.
Qed.

Lemma readCatalog_result_shape_witness :
  let cat : Catalog.t := [("Animals", ["cat"; "dog"]); ("Colors", [""])] in
  Catalog.wf cat /\ Forall Obs.parsed cat.
Proof.
  apply (readCatalog_result_shape "./actualCatalog.txt"
           (fun _ => Some ("Colors@%" +:+ String "010" "Animals@%cat,dog"))).
  reflexivity.
Defined.

(** X4: reading further lines never removes a topic and never changes its
    keywords: an entry of the catalog is still the one entry of its topic
    after any lines were read, so of several lines with the same topic name the
    first one counts. *)
Theorem readCatalog_first_line_wins
    (lines : list string) (cat cat' : Catalog.t) (topic : string) (kws : list string) :
  Catalog.wf cat ->
  In (topic, kws) cat ->
  read_lines lines cat = Ret cat' ->
  In (topic, kws) cat' /\ forall kws', In (topic, kws') cat' -> kws' = kws.
Proof.
  intros Hwf Hin Hread.
  assert (In (topic, kws) cat') as Hin' by (by eapply read_lines_keeps).
  split; [done|]. intros kws' Hkws'.
  eapply wf_unique; [by eapply read_lines_wf | exact Hkws' | exact Hin'].
Qed.

Lemma readCatalog_first_line_wins_witness :
  In ("Animals", ["cat"]) [("Animals", ["cat"]); ("Colors", ["red"])] /\
  forall kws', In ("Animals", kws') [("Animals", ["cat"]); ("Colors", ["red"])] ->
               kws' = ["cat"].
Proof.
  apply (readCatalog_first_line_wins ["Animals@%dog"; "Colors@%red"]
           [("Animals", ["cat"])] [("Animals", ["cat"]); ("Colors", ["red"])]
           "Animals" ["cat"]).
  - repeat constructor.
  - left. reflexivity.
  - reflexivity.
Defined.

(** ** More on the matcher *)

Section MatcherMore.

Implicit Types (text term : string) (count : Z) (fuel memory : nat)
  (occurrences : list Z).

(** *** The MPI scan raises no exception *)

Lemma count_term_raises_nothing fuel text term pos count :
  Cond.raises_nothing (Paralel.count_term fuel text term pos count).
Proof.
  revert pos count. induction fuel as [|fuel IH]; intros [p|] count; simpl; try done.
  unfold incr. destruct (count <? INT_MAX)%Z; simpl; [apply IH | done].
Qed.

Lemma count_identifiers_raises_nothing fuel text identifiers count :
  Cond.raises_nothing (Paralel.count_identifiers fuel text identifiers count).
Proof.
  revert count. induction identifiers as [|term identifiers IH]; intros count; simpl; [done|].
  pose proof (count_term_raises_nothing fuel text term (Std.find text term 0) count) as H.
  destruct (Paralel.count_term fuel text term (Std.find text term 0) count); simpl in *;
    try done; apply IH.
Qed.

Lemma classify_topics_raises_nothing fuel text catalog TopicsList :
  Cond.raises_nothing (Paralel.classify_topics fuel text catalog TopicsList).
Proof.
  revert TopicsList.
  induction catalog as [|[topic identifiers] catalog IH]; intros TopicsList; simpl; [done|].
  pose proof (count_identifiers_raises_nothing fuel text identifiers 0) as H.
  destruct (Paralel.count_identifiers fuel text identifiers 0); simpl in *; try done;
    apply IH.
Qed.

(** *** The single-process scan ends, with a result or out of memory *)

Lemma find_term_empty_throws fuel memory text p occurrences count :
  p <= String.length text ->
  Z.of_nat (length occurrences) = count ->
  (Z.of_nat memory <= INT_MAX)%Z ->
  length occurrences <= memory ->
  memory - length occurrences < fuel ->
  Sequential.find_term fuel memory text "" (Some p) occurrences count =
  Throw "std::bad_alloc".
Proof.
  intros Hp. revert occurrences count.
  induction fuel as [|fuel IH]; intros occurrences count Hinv Hmem Hroom Hfuel; [lia|].
  cbn [Sequential.find_term]. unfold Sequential.push_back.
  destruct (Nat.ltb_spec (length occurrences) memory) as [Hpush|Hfull]; [|done].
  cbn [outcome_bind String.length]. unfold Std.find.
  rewrite Nat.add_0_r, index_empty, incr_spec by done.
  destruct (Z.leb_spec (count + 1) INT_MAX); [|lia]. cbn [outcome_bind].
  apply IH; rewrite ?length_app; cbn [length]; lia.
Qed.

Lemma find_term_counted fuel memory text term occurrences count :
  String.length text < fuel ->
  memory < fuel ->
  (Z.of_nat memory <= INT_MAX)%Z ->
  Z.of_nat (length occurrences) = count ->
  length occurrences <= memory ->
  Cond.counted memory
    (Sequential.find_term fuel memory text term (Std.find text term 0) occurrences count).
Proof.
  intros Hfuel Hmemfuel Hmem Hinv Hroom.
  destruct (decide (term = "")) as [->|Hterm].
  - unfold Std.find. rewrite index_empty by lia.
    rewrite find_term_empty_throws by (done || lia). done.
  - pose proof (find_term_spec term text fuel memory occurrences count Hterm Hfuel Hinv Hroom)
      as Hspec.
    cbv zeta in Hspec.
    destruct (Nat.leb_spec (length occurrences + Described.occurrences term text) memory);
      destruct (Z.leb_spec (Z.of_nat (length occurrences + Described.occurrences term text))
                  INT_MAX); cbn [andb] in Hspec;
      try (rewrite Hspec by lia; unfold Cond.exhausted;
           destruct (Z.leb_spec (Z.of_nat memory) INT_MAX); (done || lia)).
    destruct Hspec as (occurrences' & -> & Hlen); [lia|].
    simpl. lia.
Qed.

Lemma find_identifiers_counted fuel memory text identifiers occurrences count :
  String.length text < fuel ->
  memory < fuel ->
  (Z.of_nat memory <= INT_MAX)%Z ->
  Z.of_nat (length occurrences) = count ->
  length occurrences <= memory ->
  Cond.counted memory
    (Sequential.find_identifiers fuel memory text identifiers occurrences count).
Proof.
  intros Hfuel Hmemfuel Hmem. revert occurrences count.
  induction identifiers as [|term identifiers IH]; intros occurrences count Hinv Hroom;
    [done|].
  cbn [Sequential.find_identifiers].
  pose proof (find_term_counted fuel memory text term occurrences count
                Hfuel Hmemfuel Hmem Hinv Hroom) as Hterm.
  destruct (Sequential.find_term fuel memory text term (Std.find text term 0)
              occurrences count) as [[occurrences' count']| | | |]; simpl in *; try done;
    apply IH; tauto.
Qed.

Lemma find_topics_answers fuel memory text catalog matches :
  String.length text < fuel ->
  memory < fuel ->
  (Z.of_nat memory <= INT_MAX)%Z ->
  Cond.answers_or_bad_alloc (Sequential.find_topics fuel memory text catalog matches).
Proof.
  intros Hfuel Hmemfuel Hmem. revert matches.
  induction catalog as [|[topic identifiers] catalog IH]; intros matches; [done|].
  cbn [Sequential.find_topics].
  pose proof (find_identifiers_counted fuel memory text identifiers [] 0
                Hfuel Hmemfuel Hmem eq_refl ltac:(simpl; lia)) as Hids.
  destruct (Sequential.find_identifiers fuel memory text identifiers [] 0)
    as [[occurrences count]| | | |]; simpl in *; try done; apply IH.
Qed.

(** *** How large a count can get *)

Lemma occurrences_le_text term text :
  term <> "" -> Described.occurrences term text <= String.length text.
Proof.
  intros Hterm. pose proof (occurrences_fit term text Hterm).
  assert (1 <= String.length term) by (destruct term; simpl; [done | lia]). nia.
Qed.

Lemma topic_count_le text identifiers :
  Forall (fun term => term <> "") identifiers ->
  Described.topic_count text identifiers <= length identifiers * String.length text.
Proof.
  induction 1 as [|term identifiers Hterm _ IH]; [done|].
  rewrite topic_count_cons. pose proof (occurrences_le_text term text Hterm).
  cbn [length]. lia.
Qed.

End MatcherMore.

(** X5: on a catalog with an empty keyword the two matchers end in
    different ways.  The single-process matcher, which records every position
    it finds, runs out of memory: with a vector that can grow to at most
    [INT_MAX] elements and a scan allowed to run that long it ends with
    [std::bad_alloc].  The MPI matcher throws nothing: however long it is
    allowed to run, it is still scanning or its counter has overflowed. *)
Theorem matchers_part_on_empty_keyword
    (catalog : Catalog.t) (fuel memory fuel' : nat) (text : string) :
  In "" (Catalog.keywords catalog) ->
  (Z.of_nat memory <= INT_MAX)%Z ->
  String.length text < fuel ->
  memory < fuel ->
  Sequential.find_topics fuel memory text catalog [] = Throw "std::bad_alloc" /\
  (Paralel.classify fuel' text catalog = OutOfFuel \/
   Paralel.classify fuel' text catalog = Undefined).
Proof.
  intros Hin Hmem Hfuel Hmemfuel.
  assert (~ Cond.keywords_nonempty catalog) as Hno.
  { intros Hkw. unfold Cond.keywords_nonempty in Hkw. rewrite Forall_forall in Hkw.
    apply (Hkw ""); [by apply list_elem_of_In | done]. }
  split.
  - pose proof (find_topics_answers fuel memory text catalog [] Hfuel Hmemfuel Hmem) as Hans.
    pose proof (find_topics_empty fuel memory text catalog [] Hno) as Hret.
    destruct (Sequential.find_topics fuel memory text catalog []) as [r|what| | |];
      simpl in Hans; try done.
    + destruct Hret. by exists r.
    + by rewrite Hans.
  - pose proof (classify_topics_raises_nothing fuel' text catalog []) as Hnothing.
    pose proof (classify_topics_empty fuel' text catalog [] Hno) as Hret.
    unfold Paralel.classify.
    destruct (Paralel.classify_topics fuel' text catalog []) as [r| | | |];
      simpl in Hnothing; try done; [|by right|by left].
    destruct Hret. by exists r.
Qed.

Lemma matchers_part_on_empty_keyword_witness :
  Sequential.find_topics 100 50 "red cat"
    [("Animals", ["cat"]); ("Colors", ["red"; ""])] [] = Throw "std::bad_alloc" /\
  (Paralel.classify 100 "red cat" [("Animals", ["cat"]); ("Colors", ["red"; ""])] = OutOfFuel \/
   Paralel.classify 100 "red cat" [("Animals", ["cat"]); ("Colors", ["red"; ""])] = Undefined).
Proof.
  apply (matchers_part_on_empty_keyword [("Animals", ["cat"]); ("Colors", ["red"; ""])]
           100 50 100 "red cat").
  - simpl. right. right. left. reflexivity.
  - unfold INT_MAX. lia.
  - simpl. lia.
  - lia.
Defined.

(** X6: a catalog with an empty keyword anywhere gets no result from
    either matcher, for any text, however long the scan is allowed to run and
    whatever memory there is. *)
Theorem empty_keyword_blocks_matcher
    (catalog : Catalog.t) (fuel memory : nat) (text : string) :
  In "" (Catalog.keywords catalog) ->
  ~ returns (Paralel.classify fuel text catalog) /\
  ~ returns (Sequential.find_topics fuel memory text catalog []).
Proof.
  intros Hin.
  assert (~ Cond.keywords_nonempty catalog) as Hno.
  { intros Hkw. unfold Cond.keywords_nonempty in Hkw. rewrite Forall_forall in Hkw.
    apply (Hkw ""); [by apply list_elem_of_In | done]. }
  split; intros Hret; apply Hno.
  - by eapply classify_returns_only_nonempty.
  - by eapply find_topics_returns_only_nonempty.
Qed.

Lemma empty_keyword_blocks_matcher_witness :
  ~ returns (Paralel.classify 100 "red cat"
               [("Animals", ["cat"]); ("Colors", ["red"; ""])]) /\
  ~ returns (Sequential.find_topics 100 1000 "red cat"
               [("Animals", ["cat"]); ("Colors", ["red"; ""])] []).
Proof.
  apply (empty_keyword_blocks_matcher [("Animals", ["cat"]); ("Colors", ["red"; ""])]
           100 1000 "red cat").
  simpl. right. right. left. reflexivity.
Defined.

(** X7: for a catalog without empty keyword and a text so short that the
    number of keywords of any topic times the length of the text is at most
    [INT_MAX], no [count++] overflows: the MPI matcher returns, its result
    lists the topics of the catalog, each once and in catalog order, and the
    count of a topic lies between 0 and that product.  (Beyond that bound a
    count may overflow, which is undefined in C++.) *)
Theorem classify_result_within_int (fuel : nat) (text : string) (catalog : Catalog.t) :
  Cond.keywords_nonempty catalog ->
  String.length text < fuel ->
  Forall (fun e : Catalog.entry =>
            (Z.of_nat (length e.2 * String.length text) <= INT_MAX)%Z) catalog ->
  exists r,
    Paralel.classify fuel text catalog = Ret r /\
    map fst r = Catalog.topics catalog /\
    Forall2 (fun (e : Catalog.entry) (p : string * Z) =>
               (0 <= p.2 <= Z.of_nat (length e.2 * String.length text))%Z) catalog r.
Proof.
  intros Hkw Hfuel Hshort.
  exists (Described.counts text catalog).
  assert (Forall (fun e : Catalog.entry =>
                    Described.topic_count text e.2 <= length e.2 * String.length text)
                 catalog) as Hle.
  { clear Hshort. induction catalog as [|[topic identifiers] catalog IH]; [done|].
    apply keywords_nonempty_cons in Hkw as [Hids Hkw].
    constructor; [by apply topic_count_le | by apply IH]. }
  split; [|split].
  - unfold Paralel.classify. rewrite classify_topics_spec by done.
    replace (Described.counts_fit text catalog) with true; [done|].
    symmetry. unfold Described.counts_fit. apply forallb_forall.
    intros e He%list_elem_of_In. rewrite Forall_forall in Hle, Hshort.
    specialize (Hle e He). specialize (Hshort e He). apply Z.leb_le. lia.
  - unfold Described.counts, Catalog.topics. rewrite map_map. by apply map_ext.
  - unfold Described.counts. clear Hkw Hshort.
    induction Hle as [|e catalog He _ IH]; [constructor|].
    cbn [map]. constructor; [simpl; lia | exact IH].
Qed.

Lemma classify_result_within_int_witness :
  exists r,
    Paralel.classify 8 "cat dog" [("Animals", ["cat"; "dog"]); ("Colors", ["red"])] = Ret r /\
    map fst r = Catalog.topics [("Animals", ["cat"; "dog"]); ("Colors", ["red"])] /\
    Forall2 (fun (e : Catalog.entry) (p : string * Z) =>
               (0 <= p.2 <= Z.of_nat (length e.2 * String.length "cat dog"))%Z)
            [("Animals", ["cat"; "dog"]); ("Colors", ["red"])] r.
Proof.
  apply (classify_result_within_int 8 "cat dog"
           [("Animals", ["cat"; "dog"]); ("Colors", ["red"])]).
  - repeat constructor; discriminate.
  - simpl. lia.
  - repeat constructor; vm_compute; discriminate.
Defined.

(** ** More on the catalog on the wire *)



(** X9: whatever bytes are in a worker's receive buffer and after it, the
    catalog the worker ends up with has no topic name with [':'] or [';'], no
    keyword with [','] or [';'], and no zero byte anywhere. *)
Theorem received_catalog_is_plain (i : Paralel.inbox) :
  Forall Cond.clean (Paralel.received_catalog i) /\
  Cond.free_of "000" (Paralel.received_catalog i).
Proof.
  split.
  - apply decode_clean. constructor.
  - apply decode_free; [apply c_str_no_nul | by constructor].
Qed.

(** ** A worker at work *)

Lemma appended_lines_cons e tr :
  Obs.appended_lines (e :: tr) =
  match e with
  | FileAppend _ data => data :: Obs.appended_lines tr
  | _ => Obs.appended_lines tr
  end.
Proof. by destruct e. Qed.

Lemma diagnostics_cons e tr :
  Obs.diagnostics (e :: tr) =
  match e with
  | Cerr line => line :: Obs.diagnostics tr
  | _ => Obs.diagnostics tr
  end.
Proof. by destruct e. Qed.

Lemma received_cons e tr :
  Obs.received (e :: tr) =
  match e with
  | MPI_Recv m => m :: Obs.received tr
  | _ => Obs.received tr
  end.
Proof. by destruct e. Qed.

Ltac observe :=
  rewrite ?appended_lines_cons, ?diagnostics_cons, ?received_cons; cbv beta iota.

Section Worker.

Implicit Types (fs : files) (catalog : Catalog.t) (i : Paralel.inbox)
  (documents before after lines : list string).


Lemma classifyDocument_unwritable fuel fs catalog document line :
  Obs.line_for fuel fs catalog document line ->
  Paralel.classifyDocument fuel fs false catalog (Std.c_str document) =
  Proc [Cerr "Error opening file for writing!"] (Ret tt).
Proof.
  intros (content & topics & Hfs & Hclassify & ->).
  unfold Paralel.classifyDocument. by rewrite Hfs, Hclassify, lift_ret_bind.
Qed.


Lemma receive_documents_cons fuel fs writable catalog document documents :
  Paralel.receive_documents fuel fs writable catalog (document :: documents) =
  Proc (MPI_Recv (MInt (Z.of_nat (String.length document) + 1)) ::
        MPI_Recv (MChars document) ::
        trace (Paralel.classifyDocument fuel fs writable catalog (Std.c_str document) ;;
               Paralel.receive_documents fuel fs writable catalog documents))
       (result (Paralel.classifyDocument fuel fs writable catalog (Std.c_str document) ;;
                Paralel.receive_documents fuel fs writable catalog documents)).
Proof. cbn [Paralel.receive_documents]. by rewrite !emit_bind. Qed.


Lemma receive_documents_unwritable fuel fs catalog documents lines :
  Forall2 (Obs.line_for fuel fs catalog) documents lines ->
  let p := Paralel.receive_documents fuel fs false catalog documents in
  result p = Ret tt /\
  Obs.appended_lines (trace p) = [] /\
  Obs.diagnostics (trace p) =
    replicate (length documents) "Error opening file for writing!".
Proof.
  induction 1 as [|document line documents lines Hline _ IH]; [done|].
  destruct IH as (Hres & Happ & Hdiag).
  rewrite receive_documents_cons, (classifyDocument_unwritable _ _ _ _ _ Hline).
  cbv zeta. unfold proc_bind. cbn [result trace app]. rewrite Hres. cbn [result trace].
  observe. cbn [length replicate].
  by rewrite Happ, Hdiag.
Qed.


(** [main] on a rank other than 0, in terms of its loop over the documents. *)
Lemma worker_main fuel fs writable documents i rank size :
  2 <= size -> rank <> 0 ->
  let loop := Paralel.receive_documents fuel fs writable (Paralel.received_catalog i)
                (Paralel.assignment i) in
  Paralel.main fuel fs writable documents i rank size =
  Proc (MPI_Barrier ::
        MPI_Bcast (MInt (Z.of_nat (String.length (Paralel.wire i)))) ::
        MPI_Bcast (MChars (Paralel.wire i)) ::
        MPI_Recv (MInt (Z.of_nat (length (Paralel.assignment i)))) :: trace loop)
       (do _ <- result loop; Ret 0%Z).
Proof.
  intros Hsize Hrank loop. unfold Paralel.main.
  destruct (Nat.ltb_spec size 2); [lia|]. destruct (Nat.eqb_spec rank 0); [done|].
  unfold Paralel.worker. rewrite !emit_bind. cbn [trace result]. fold loop.
  unfold proc_bind. cbn [trace result].
  destruct (result loop); simpl; by rewrite ?app_nil_r.
Qed.

End Worker.





(** X12: when the results file does not open for appending, a worker
    still classifies every document and ends with status 0; each result is
    dropped with one line on [std::cerr], and nothing is written. *)
Theorem worker_drops_results_when_unwritable
    (fuel : nat) (fs : files) (documents : list string) (i : Paralel.inbox)
    (rank size : nat) (lines : list string) :
  2 <= size -> rank <> 0 ->
  Forall2 (Obs.line_for fuel fs (Paralel.received_catalog i)) (Paralel.assignment i) lines ->
  let p := Paralel.main fuel fs false documents i rank size in
  result p = Ret 0%Z /\
  Obs.appended_lines (trace p) = [] /\
  Obs.diagnostics (trace p) =
    replicate (length (Paralel.assignment i)) "Error opening file for writing!".
Proof.
  intros Hsize Hrank Hlines p. subst p. rewrite worker_main by done.
  destruct (receive_documents_unwritable _ _ _ _ _ Hlines) as (Hres & Happ & Hdiag).
  cbn [trace result]. rewrite Hres. by observe.
Qed.

Lemma worker_drops_results_when_unwritable_witness :
  let fs : files := fun _ => Some "the cat" in
  let i := {| Paralel.wire := "Animals:cat,;"; Paralel.beyond := String "000" "";
              Paralel.assignment := ["a.txt"; "b.txt"] |} in
  let p := Paralel.main 20 fs false [] i 1 2 in
  result p = Ret 0%Z /\
  Obs.appended_lines (trace p) = [] /\
  Obs.diagnostics (trace p) =
    replicate (length (Paralel.assignment i)) "Error opening file for writing!".
Proof.
  apply (worker_drops_results_when_unwritable 20 (fun _ => Some "the cat") []
           {| Paralel.wire := "Animals:cat,;"; Paralel.beyond := String "000" "";
              Paralel.assignment := ["a.txt"; "b.txt"] |} 1 2
           [Paralel.result_line {| Paralel.fileName := "a.txt";
                                   Paralel.TopicsList := [("Animals", 1%Z)] |};
            Paralel.result_line {| Paralel.fileName := "b.txt";
                                   Paralel.TopicsList := [("Animals", 1%Z)] |}]).
  - lia.
  - lia.
  - repeat constructor; exists "the cat", [("Animals", 1%Z)]; repeat split.
Defined.

(** ** The single-process program from end to end *)

Lemma written_files_cons e tr :
  Obs.written_files (e :: tr) =
  match e with
  | FileWrite path data => (path, data) :: Obs.written_files tr
  | _ => Obs.written_files tr
  end.
Proof. by destruct e. Qed.

Lemma written_files_app tr tr' :
  Obs.written_files (tr ++ tr') = Obs.written_files tr ++ Obs.written_files tr'.
Proof. apply omap_app. Qed.

Lemma proc_bind_not_ret {A B : Type} (m : proc A) (k : A -> proc B) :
  ~ returns (result m) ->
  trace (proc_bind m k) = trace m /\ ~ returns (result (proc_bind m k)).
Proof.
  intros Hnot. unfold proc_bind.
  destruct (result m) as [a| | | |]; cbn [trace result];
    try (split; [done | by intros [? ?]]).
  destruct Hnot. by eexists.
Qed.

Section SequentialRun.

Implicit Types (fs : files) (catalog : Catalog.t) (documents : list string)
  (matches : list (string * list Sequential.SearchResult)).

Lemma readCatalog_loaded path fs cat0 cat :
  result (readCatalog_at path fs cat0) = Ret cat ->
  readCatalog_at path fs cat0 = Proc [] (Ret cat).
Proof.
  unfold readCatalog_at. destruct (fs path); [|done]. unfold lift. simpl. by intros ->.
Qed.



Lemma findAllOccurrences_writes_nothing fuel memory fs catalog file :
  Obs.written_files (trace (Sequential.findAllOccurrences fuel memory fs catalog file)) = [].
Proof.
  unfold Sequential.findAllOccurrences. destruct (fs file); [|done].
  by destruct (Sequential.find_topics fuel memory (read_text s) catalog []).
Qed.

Lemma classify_files_writes_nothing fuel memory fs catalog documents acc :
  Obs.written_files (trace (Sequential.classify_files fuel memory fs catalog documents acc))
  = [].
Proof.
  revert acc. induction documents as [|file documents IH]; intros acc; [done|].
  cbn [Sequential.classify_files]. unfold proc_bind.
  pose proof (findAllOccurrences_writes_nothing fuel memory fs catalog file) as Hfile.
  destruct (result (Sequential.findAllOccurrences fuel memory fs catalog file));
    cbn [trace]; try done.
  by rewrite written_files_app, Hfile, IH.
Qed.

Lemma classify_files_unreadable fuel memory fs catalog documents acc :
  Exists (fun file => fs file = None) documents ->
  ~ returns (result (Sequential.classify_files fuel memory fs catalog documents acc)).
Proof.
  intros Hex. revert acc. induction documents as [|file documents IH]; intros acc.
  - by apply Exists_nil in Hex.
  - cbn [Sequential.classify_files]. unfold proc_bind.
    destruct (result (Sequential.findAllOccurrences fuel memory fs catalog file))
      as [m| | | |] eqn:Hfile; cbn [result]; try (by intros [? ?]).
    apply IH. apply Exists_cons in Hex as [Hnone|Hex]; [|done].
    unfold Sequential.findAllOccurrences in Hfile. by rewrite Hnone in Hfile.
Qed.



End SequentialRun.



(** X14: if one of the listed files does not open, the single-process
    program does not end normally and writes no results file at all, not even
    for the files it had classified before. *)
Theorem sequential_run_writes_nothing_on_unreadable_file
    (fuel memory : nat) (fs : files) (writable readable : bool) (documents : list string)
    (catalog : Catalog.t) :
  result (Sequential.readCatalog fs Catalog.empty) = Ret catalog ->
  Exists (fun file => fs file = None) documents ->
  let p := Sequential.main fuel memory fs writable readable documents in
  ~ returns (result p) /\ Obs.written_files (trace p) = [].
Proof.
  intros Hcat Hex p. subst p. unfold Sequential.main, Sequential.readCatalog in *.
  rewrite (readCatalog_loaded _ _ _ _ Hcat).
  change (Proc [] (Ret catalog)) with (lift (Ret catalog)). rewrite lift_ret_bind.
  pose proof (classify_files_unreadable fuel memory fs catalog documents [] Hex) as Hnot.
  pose proof (classify_files_writes_nothing fuel memory fs catalog documents []) as Hnone.
  match goal with
  | |- context [proc_bind ?m ?k] =>
      destruct (proc_bind_not_ret m k Hnot) as [-> Hres]
  end.
  by split.
Qed.

Lemma sequential_run_writes_nothing_on_unreadable_file_witness :
  let fs : files := fun path =>
    if String.eqb path "../catalog.txt" then Some "Animals@%cat"
    else if String.eqb path "a.txt" then Some "cat" else None in
  let p := Sequential.main 20 1000 fs true true ["a.txt"; "gone.txt"] in
  ~ returns (result p) /\ Obs.written_files (trace p) = [].
Proof.
  apply (sequential_run_writes_nothing_on_unreadable_file 20 1000
           (fun path => if String.eqb path "../catalog.txt" then Some "Animals@%cat"
                        else if String.eqb path "a.txt" then Some "cat" else None)
           true true ["a.txt"; "gone.txt"] [("Animals", ["cat"])]).
  - reflexivity.
  - right. left. reflexivity.
Defined.

(** ** Which documents get a relevant topic, and which topic *)

Section RelevantTopics.

Import Sequential.

Implicit Types (topics : list SearchResult) (matches : list (string * list SearchResult)).

Lemma relevant_topic_origin topics maxCount relevantTopic :
  relevant_topic topics maxCount relevantTopic = relevantTopic \/
  exists sr, In sr topics /\
             relevant_topic topics maxCount relevantTopic = topicName sr /\
             (maxCount < count sr)%Z.
Proof.
  revert maxCount relevantTopic.
  induction topics as [|sr topics IH]; intros maxCount relevantTopic; [by left|].
  simpl. destruct (Z.ltb_spec maxCount (count sr)) as [Hlt|Hge].
  - right. destruct (IH (count sr) (topicName sr)) as [->|(sr' & Hin & -> & Hlt')].
    + exists sr. auto.
    + exists sr'. split; [auto|]. split; [done | lia].
  - destruct (IH maxCount relevantTopic) as [->|(sr' & Hin & -> & Hlt')]; [by left|].
    right. exists sr'. auto.
Qed.

Lemma determineRelevantTopics_entry matches docName topic :
  determineRelevantTopics matches !! docName = Some topic ->
  exists topics, In (docName, topics) matches /\ topic = relevant_topic topics 0 "".
Proof.
  unfold determineRelevantTopics. generalize (eq_refl : (∅ : gmap string string) = ∅).
  generalize (∅ : gmap string string) at 1 3. intros m0 Hm0.
  assert (m0 !! docName = Some topic ->
          exists topics, In (docName, topics) matches /\ topic = relevant_topic topics 0 "")
    as Hinit by (subst m0; by rewrite lookup_empty).
  clear Hm0. revert m0 Hinit.
  induction matches as [|[d ts] matches IH] using rev_ind; intros m0 Hinit; [done|].
  rewrite fold_left_app. simpl.
  destruct (decide (d = docName)) as [->|Hne].
  - rewrite lookup_insert_eq. intros [= <-]. exists ts. split; [|done].
    apply in_app_iff. right. by left.
  - rewrite lookup_insert_ne by done. intros Hlook.
    destruct (IH m0) as (topics & Hin & ->); [|exact Hlook|].
    + intros H0. destruct (Hinit H0) as (topics & Hin & ->).
      apply in_app_iff in Hin as [Hin|[[= -> ->]|[]]]; [|done].
      by exists topics.
    + exists topics. split; [|done]. apply in_app_iff. by left.
Qed.

End RelevantTopics.

(** X15: the map of relevant topics has an entry for every document of
    the matches; and an entry it has belongs to a document of the matches and
    is either the empty string or the name of one of that document's topics
    with a count above 0. *)
Theorem relevant_topics_come_from_matches
    (matches : list (string * list Sequential.SearchResult)) (docName : string) :
  (forall topics, In (docName, topics) matches ->
     is_Some (Sequential.determineRelevantTopics matches !! docName)) /\
  (forall topic, Sequential.determineRelevantTopics matches !! docName = Some topic ->
     exists topics,
       In (docName, topics) matches /\
       (topic = "" \/
        exists sr, In sr topics /\ Sequential.topicName sr = topic /\
                   (0 < Sequential.count sr)%Z)).
Proof.
  split.
  - intros topics Hin.
    destruct (Sequential.determineRelevantTopics matches !! docName) as [t|] eqn:Hlook;
      [by eexists|].
    exfalso. revert Hlook. unfold Sequential.determineRelevantTopics.
    generalize (∅ : gmap string string).
    induction matches as [|[d ts] matches IH] using rev_ind; intros m0; [done|].
    rewrite fold_left_app. simpl.
    destruct (decide (d = docName)) as [->|Hne].
    + by rewrite lookup_insert_eq.
    + rewrite lookup_insert_ne by done.
      apply in_app_iff in Hin as [Hin|[[= -> ->]|[]]]; [by apply IH | done].
  - intros topic Hlook.
    destruct (determineRelevantTopics_entry _ _ _ Hlook) as (topics & Hin & ->).
    exists topics. split; [done|].
    destruct (relevant_topic_origin topics 0 "") as [->|(sr & Hsr & -> & Hpos)]; [by left|].
    right. by exists sr.
Qed.

(** ** What rank 0 sends is what a worker takes in *)

Lemma messages_to_cons i e tr :
  Obs.messages_to i (e :: tr) =
  match e with
  | MPI_Send dest m => if dest =? i then m :: Obs.messages_to i tr else Obs.messages_to i tr
  | _ => Obs.messages_to i tr
  end.
Proof.
  destruct e; try done. unfold Obs.messages_to. simpl. by destruct (dest =? i).
Qed.

Lemma messages_to_app i tr tr' :
  Obs.messages_to i (tr ++ tr') = Obs.messages_to i tr ++ Obs.messages_to i tr'.
Proof. apply omap_app. Qed.

Section DispatchMessages.

Implicit Types (documents : list string) (i j k start todo : nat).

Lemma send_documents_messages documents i k start j :
  start + k <= length documents ->
  (Z.of_nat (length documents) <= INT_MAX)%Z ->
  Forall Obs.short documents ->
  let tr := trace (Paralel.send_documents documents i k (Z.of_nat start)) in
  Obs.messages_to j tr = flat_map Obs.document_messages (sent_documents j tr).
Proof.
  intros Hlen Hmax Hshort. revert start Hlen; induction k as [|k IH]; intros start Hlen; [done|].
  destruct (lookup_lt_is_Some_2 documents start) as [doc Hdoc]; [lia|].
  assert (S start + k <= length documents) as Hrest by lia.
  specialize (IH (S start) Hrest). cbv zeta in *.
  rewrite (send_documents_step _ _ _ _ doc) by (done || lia). cbv zeta. cbn [trace].
  assert (Obs.short doc) as Hdocshort.
  { rewrite Forall_forall in Hshort. apply Hshort. by eapply list_elem_of_lookup_2. }
  unfold Obs.short in Hdocshort. rewrite to_int_small by lia.
  rewrite !messages_to_cons, sent_documents_int, sent_documents_doc. cbv beta iota.
  destruct (i =? j); [|exact IH]. simpl. by rewrite IH.
Qed.

Lemma dispatch_loop_messages documents base rem todo i start j :
  let sh j := base + (if j <=? rem then 1 else 0) in
  start + sum_list (map sh (seq i todo)) <= length documents ->
  (Z.of_nat (length documents) <= INT_MAX)%Z ->
  Forall Obs.short documents ->
  let tr := trace (Paralel.dispatch_loop documents (Z.of_nat base) (Z.of_nat rem) todo i
                     (Z.of_nat start)) in
  Obs.messages_to j tr =
  if (i <=? j) && (j <? i + todo)
  then MInt (Z.of_nat (sh j)) :: flat_map Obs.document_messages (sent_documents j tr)
  else [].
Proof.
  intros sh. revert i start; induction todo as [|todo IH]; intros i start Hlen Hmax Hshort tr.
  - subst tr. simpl.
    destruct (Nat.leb_spec i j), (Nat.ltb_spec j (i + 0)); simpl; try done. lia.
  - cbn [seq map] in Hlen. rewrite sum_list_cons in Hlen.
    destruct (send_documents_spec documents i (sh i) start) as [Hres Hsent]; [lia|done|].
    assert (start + sh i <= length documents) as Hhere by lia.
    pose proof (send_documents_messages documents i (sh i) start j Hhere Hmax Hshort) as Hmsg.
    assert (start + sh i + sum_list (map sh (seq (S i) todo)) <= length documents)
      as Hrest by lia.
    specialize (IH (S i) (start + sh i) Hrest Hmax Hshort).
    destruct (dispatch_loop_spec documents base rem todo (S i) (start + sh i) Hrest Hmax)
      as (_ & _ & Hout).
    cbv zeta in *.
    subst tr. rewrite dispatch_loop_step by (fold (sh i); lia). cbv zeta. fold (sh i).
    rewrite emit_bind, (proc_bind_ret _ _ _ Hres). cbn [trace].
    rewrite messages_to_cons, messages_to_app, sent_documents_int, sent_documents_app.
    cbv beta iota. rewrite Hmsg, IH.
    destruct (Nat.eqb_spec i j) as [->|Hne].
    + rewrite (Hout j) by lia.
      destruct (Nat.leb_spec (S j) j); [lia|].
      destruct (Nat.leb_spec j j); [|lia].
      destruct (Nat.ltb_spec j (j + S todo)); [|lia].
      cbn [andb]. by rewrite !app_nil_r.
    + rewrite (Hsent j). destruct (Nat.eqb_spec j i); [congruence|]. cbn [flat_map app].
      destruct (Nat.leb_spec (S i) j), (Nat.ltb_spec j (S i + todo)),
               (Nat.leb_spec i j), (Nat.ltb_spec j (i + S todo)); cbn [andb]; try done; lia.
Qed.

Lemma dispatch_lengths documents size i :
  2 <= size -> 1 <= i <= size - 1 ->
  (Z.of_nat (length documents) <= INT_MAX)%Z ->
  length (sent_documents i (trace (Paralel.dispatch documents size))) =
  Described.share (length documents) (size - 1) i.
Proof.
  intros Hsize Hi Hmax. rewrite dispatch_unfold by done.
  set (n := length documents). set (workers := size - 1).
  assert (1 <= workers) as Hw by (subst workers; lia).
  pose proof (sum_shares_all n workers Hw) as Hall.
  destruct (dispatch_loop_spec documents (n / workers) (n mod workers) workers 1 0)
    as (_ & Hin & _).
  { fold (Described.share n workers). subst n. rewrite Hall. lia. }
  { done. }
  fold (Described.share n workers) in Hin.
  rewrite Hin by (subst workers; lia). rewrite length_take, length_drop.
  fold (Described.offset n workers i). unfold Described.offset. rewrite sum_shares. fold n.
  pose proof (Nat.div_mod_eq n workers). pose proof (Nat.mod_upper_bound n workers).
  unfold Described.share. destruct (Nat.leb_spec i (n mod workers)); nia.
Qed.

End DispatchMessages.

(** X16: when there are at most [INT_MAX] documents and the name of each
    is shorter than [INT_MAX] bytes (the counts, the index and the sizes are
    [int]s), rank 0 sends to every worker rank exactly the messages that carry
    that rank's assignment, the number of documents first and then, for each
    document, the size of its name with the terminator and the name; to any
    other rank it sends nothing.  These are the messages a worker's receive
    loop takes in. *)
Theorem dispatch_sends_assignment_messages (documents : list string) (size i : nat) :
  2 <= size ->
  (Z.of_nat (length documents) <= INT_MAX)%Z ->
  Forall Obs.short documents ->
  let tr := trace (Paralel.dispatch documents size) in
  Obs.messages_to i tr =
  if (1 <=? i) && (i <? size)
  then Obs.assignment_messages (sent_documents i tr)
  else [].
Proof.
  intros Hsize Hmax Hshort tr.
  set (n := length documents). set (workers := size - 1).
  assert (1 <= workers) as Hw by (subst workers; lia).
  pose proof (sum_shares_all n workers Hw) as Hall.
  pose proof (dispatch_loop_messages documents (n / workers) (n mod workers) workers 1 0 i)
    as Hmsg.
  cbv zeta in Hmsg. fold (Described.share n workers) in Hmsg.
  pose proof (dispatch_unfold documents size Hmax) as Hd.
  fold workers in Hd. fold n in Hd. rewrite <- Hd in Hmsg.
  subst tr. rewrite Hmsg by (done || (subst n; rewrite Hall; lia)).
  replace (i <? 1 + workers) with (i <? size)
    by (subst workers; destruct (Nat.ltb_spec i size), (Nat.ltb_spec i (1 + (size - 1))); lia).
  destruct (Nat.leb_spec 1 i), (Nat.ltb_spec i size); cbn [andb]; try done.
  unfold Obs.assignment_messages.
  by rewrite dispatch_lengths by (done || lia).
Qed.

Lemma dispatch_sends_assignment_messages_witness :
  let tr := trace (Paralel.dispatch ["a.txt"; "b.txt"; "c.txt"] 3) in
  Obs.messages_to 2 tr =
  if (1 <=? 2) && (2 <? 3)
  then Obs.assignment_messages (sent_documents 2 tr)
  else [].
Proof.
  apply (dispatch_sends_assignment_messages ["a.txt"; "b.txt"; "c.txt"] 3 2).
  - lia.
  - vm_compute. discriminate.
  - repeat constructor.
Defined.

(** ** File names, texts and result lines *)

Section Names.

Implicit Types (s t dir name line rest content : string) (c : ascii).

Lemma has_char_cons_ne c a s : a <> c -> Std.has_char c (String a s) = Std.has_char c s.
Proof. intros Hne. simpl. by destruct (Ascii.eqb_spec a c). Qed.

Lemma has_char_head c s : Std.has_char c (String c s) = true.
Proof. cbn [Std.has_char]. by rewrite Ascii.eqb_refl. Qed.

Lemma getFileNameFromPath_plain name :
  Std.has_char "/" name = false -> Paralel.getFileNameFromPath name = name.
Proof. intros Hname. destruct name as [|a name]; [done|]. simpl in *. by rewrite Hname. Qed.

Lemma getFileNameFromPath_no_slash s :
  Std.has_char "/" (Paralel.getFileNameFromPath s) = false.
Proof.
  induction s as [|a s IH]; [done|].
  cbn [Paralel.getFileNameFromPath].
  destruct (Std.has_char "/" (String a s)) eqn:E; [exact IH | exact E].
Qed.

Lemma getFileNameFromPath_strips dir name :
  Std.has_char "/" name = false ->
  Paralel.getFileNameFromPath (dir +:+ String "/" name) = name.
Proof.
  intros Hname. induction dir as [|a dir IH].
  - rewrite append_nil_l. cbn [Paralel.getFileNameFromPath].
    rewrite has_char_head. by apply getFileNameFromPath_plain.
  - rewrite append_cons. cbn [Paralel.getFileNameFromPath].
    rewrite <- append_cons, has_char_append, has_char_head, orb_true_r. exact IH.
Qed.

(** *** [read_text] *)

Lemma getline_split_whole s c :
  Std.has_char c s = false -> Std.getline_split s c = (s, "").
Proof.
  induction s as [|a s IH]; [done|]. simpl.
  destruct (Ascii.eqb a c); [done|]. intros Hs. by rewrite IH.
Qed.

Lemma getlines_whole s c :
  Std.has_char c s = false -> String.concat "" (Std.getlines s c) = s.
Proof.
  intros Hs. destruct s as [|a s]; [done|].
  rewrite getlines_cons, getline_split_whole by done.
  cbn [fst snd]. by rewrite getlines_nil.
Qed.

Lemma has_char_concat_empty c (tokens : list string) :
  Forall (fun t => Std.has_char c t = false) tokens ->
  Std.has_char c (String.concat "" tokens) = false.
Proof.
  induction 1 as [|t tokens Ht _ IH]; [done|].
  by rewrite concat_empty_cons, has_char_append, Ht, IH.
Qed.

(** *** [os << n] *)

Lemma string_of_uint_no_line_feed (d : Decimal.uint) :
  Std.has_char "010" (NilEmpty.string_of_uint d) = false.
Proof. induction d; [done|..]; simpl NilEmpty.string_of_uint; by rewrite has_char_cons_ne. Qed.

Lemma show_int_no_line_feed (n : Z) : Std.has_char "010" (show_int n) = false.
Proof.
  unfold show_int, NilZero.string_of_int, NilZero.string_of_uint.
  destruct (Z.to_int n) as [d|d]; destruct d; try done;
    rewrite ?has_char_cons_ne by done;
    try apply (string_of_uint_no_line_feed (Decimal.D0 _));
    try apply (string_of_uint_no_line_feed (Decimal.D1 _));
    try apply (string_of_uint_no_line_feed (Decimal.D2 _));
    try apply (string_of_uint_no_line_feed (Decimal.D3 _));
    try apply (string_of_uint_no_line_feed (Decimal.D4 _));
    try apply (string_of_uint_no_line_feed (Decimal.D5 _));
    try apply (string_of_uint_no_line_feed (Decimal.D6 _));
    try apply (string_of_uint_no_line_feed (Decimal.D7 _));
    try apply (string_of_uint_no_line_feed (Decimal.D8 _));
    try apply (string_of_uint_no_line_feed (Decimal.D9 _)).
Qed.

End Names.

(** X17: [getFileNameFromPath] never returns a name with a slash; of a
    path it returns what follows the last slash, and a path without a slash
    whole. *)
Theorem getFileNameFromPath_is_last_component (dir name path : string) :
  Std.has_char "/" name = false ->
  Paralel.getFileNameFromPath (dir +:+ String "/" name) = name /\
  Paralel.getFileNameFromPath name = name /\
  Std.has_char "/" (Paralel.getFileNameFromPath path) = false.
Proof.
  intros Hname. split; [by apply getFileNameFromPath_strips|].
  split; [by apply getFileNameFromPath_plain | apply getFileNameFromPath_no_slash].
Qed.

Lemma getFileNameFromPath_is_last_component_witness :
  Paralel.getFileNameFromPath ("./sample_documents" +:+ String "/" "a.txt") = "a.txt" /\
  Paralel.getFileNameFromPath "a.txt" = "a.txt" /\
  Std.has_char "/" (Paralel.getFileNameFromPath "x/y/") = false.
Proof.
  apply (getFileNameFromPath_is_last_component "./sample_documents" "a.txt" "x/y/").
  reflexivity.
Defined.

(** X18: the text that is matched is the file without its line feeds: a
    line is followed directly by the text of the rest, a file of one line is
    its own text, and no text holds a line feed. *)
Theorem read_text_joins_lines (line rest : string) :
  Std.has_char "010" line = false ->
  read_text (line +:+ String "010" rest) = line +:+ read_text rest /\
  read_text line = line /\
  Std.has_char "010" (read_text rest) = false.
Proof.
  intros Hline. unfold read_text. split; [|split].
  - by rewrite getlines_field, concat_empty_cons.
  - by apply getlines_whole.
  - apply has_char_concat_empty, getlines_no_delim.
Qed.

Lemma read_text_joins_lines_witness :
  read_text ("the ca" +:+ String "010" ("t sat" +:+ String "010" "")) =
    "the ca" +:+ read_text ("t sat" +:+ String "010" "") /\
  read_text "the ca" = "the ca" /\
  Std.has_char "010" (read_text ("t sat" +:+ String "010" "")) = false.
Proof.
  apply (read_text_joins_lines "the ca" ("t sat" +:+ String "010" "")).
  reflexivity.
Defined.

(** X19: for a file name and topic names without a line feed, what a
    worker appends for one result is one line: it ends with a line feed and
    holds no other. *)
Theorem result_line_is_one_line (r : Paralel.SearchResult) :
  Std.has_char "010" (Paralel.fileName r) = false ->
  Forall (fun p => Std.has_char "010" p.1 = false) (Paralel.TopicsList r) ->
  exists body,
    Paralel.result_line r = body +:+ String "010" "" /\
    Std.has_char "010" body = false.
Proof.
  destruct r as [name topics]. unfold Paralel.result_line. simpl. intros Hname Htopics.
  assert (exists tail,
            fold_right (fun '(topic, matchCount) rest =>
                          topic +:+ ";" +:+ show_int matchCount +:+ "," +:+
                          String "009" "" +:+ rest) (String "010" "") topics
            = tail +:+ String "010" "" /\ Std.has_char "010" tail = false)
    as (tail & -> & Htail).
  { induction Htopics as [|[topic n] topics Htopic _ (tail & IH & Htail)].
    - by exists "".
    - exists (topic +:+ ";" +:+ show_int n +:+ "," +:+ String "009" "" +:+ tail).
      simpl in *. rewrite IH. split.
      + by rewrite !append_assoc.
      + rewrite !has_char_append, Htopic, show_int_no_line_feed, Htail. done. }
  exists (name +:+ ":" +:+ String "009" "" +:+ tail). split.
  - by rewrite !append_assoc.
  - rewrite !has_char_append, Hname, Htail. done.
Qed.

Lemma result_line_is_one_line_witness :
  exists body,
    Paralel.result_line {| Paralel.fileName := "a.txt";
                           Paralel.TopicsList := [("Animals", 2%Z); ("Colors", 0%Z)] |}
      = body +:+ String "010" "" /\
    Std.has_char "010" body = false.
Proof.
  apply (result_line_is_one_line
           {| Paralel.fileName := "a.txt";
              Paralel.TopicsList := [("Animals", 2%Z); ("Colors", 0%Z)] |}).
  - reflexivity.
  - repeat constructor.
Defined.

(** ** Reading the results back *)

Section ReadBack.

Implicit Types (c : ascii) (r rest name : string) (acc v n : Z) (d : Decimal.uint).

Lemma digits_cons_digit c r seen acc k :
  Stream.digit c = Some k ->
  Stream.digits (String c r) seen acc = Stream.digits r true (10 * acc + k)%Z.
Proof. intros Hc. cbn [Stream.digits]. by rewrite Hc. Qed.

Ltac digit_step c k := rewrite (digits_cons_digit c _ _ _ k eq_refl).

Lemma digits_of_uint_acc d (p : positive) :
  Stream.digits (NilEmpty.string_of_uint d) true (Z.pos p) =
  Some (Z.pos (Pos.of_uint_acc d p)).
Proof.
  revert p. induction d as [|d IH|d IH|d IH|d IH|d IH|d IH|d IH|d IH|d IH|d IH];
    intros p; [reflexivity|..];
    cbn [NilEmpty.string_of_uint Pos.of_uint_acc]; rewrite <- IH.
  - digit_step "0"%char 0%Z. f_equal; lia.
  - digit_step "1"%char 1%Z. f_equal; lia.
  - digit_step "2"%char 2%Z. f_equal; lia.
  - digit_step "3"%char 3%Z. f_equal; lia.
  - digit_step "4"%char 4%Z. f_equal; lia.
  - digit_step "5"%char 5%Z. f_equal; lia.
  - digit_step "6"%char 6%Z. f_equal; lia.
  - digit_step "7"%char 7%Z. f_equal; lia.
  - digit_step "8"%char 8%Z. f_equal; lia.
  - digit_step "9"%char 9%Z. f_equal; lia.
Qed.

Lemma digits_of_uint d seen :
  (seen = true \/ d <> Decimal.Nil) ->
  Stream.digits (NilEmpty.string_of_uint d) seen 0 = Some (Z.of_uint d).
Proof.
  revert seen. induction d as [|d IH|d|d|d|d|d|d|d|d|d]; intros seen Hseen.
  - destruct Hseen as [->|Hd]; [reflexivity | done].
  - cbn [NilEmpty.string_of_uint]. digit_step "0"%char 0%Z. apply IH. by left.
  - cbn [NilEmpty.string_of_uint]. digit_step "1"%char 1%Z. apply (digits_of_uint_acc d 1).
  - cbn [NilEmpty.string_of_uint]. digit_step "2"%char 2%Z. apply (digits_of_uint_acc d 2).
  - cbn [NilEmpty.string_of_uint]. digit_step "3"%char 3%Z. apply (digits_of_uint_acc d 3).
  - cbn [NilEmpty.string_of_uint]. digit_step "4"%char 4%Z. apply (digits_of_uint_acc d 4).
  - cbn [NilEmpty.string_of_uint]. digit_step "5"%char 5%Z. apply (digits_of_uint_acc d 5).
  - cbn [NilEmpty.string_of_uint]. digit_step "6"%char 6%Z. apply (digits_of_uint_acc d 6).
  - cbn [NilEmpty.string_of_uint]. digit_step "7"%char 7%Z. apply (digits_of_uint_acc d 7).
  - cbn [NilEmpty.string_of_uint]. digit_step "8"%char 8%Z. apply (digits_of_uint_acc d 8).
  - cbn [NilEmpty.string_of_uint]. digit_step "9"%char 9%Z. apply (digits_of_uint_acc d 9).
Qed.

Lemma digits_of_shown d :
  Stream.digits (NilZero.string_of_uint d) false 0 = Some (Z.of_uint d).
Proof.
  destruct d; [reflexivity|..]; unfold NilZero.string_of_uint;
    apply digits_of_uint; by right.
Qed.

Lemma shown_starts_with_digit d :
  exists c r, NilZero.string_of_uint d = String c r /\ Stream.digit c <> None.
Proof. destruct d; simpl; eexists _, _; (split; [reflexivity | done]). Qed.

Lemma digit_is_no_prefix c :
  Stream.digit c <> None ->
  Stream.isspace c = false /\ Ascii.eqb c "-" = false /\ Ascii.eqb c "+" = false.
Proof.
  destruct c as [[] [] [] [] [] [] [] []]; vm_compute; intros H; try done.
Qed.

Lemma extract_int_unsigned c r :
  Stream.digit c <> None ->
  Stream.extract_int (String c r) =
  match Stream.digits (String c r) false 0 with
  | Some v => if Stream.fits v then Some v else None
  | None => None
  end.
Proof.
  intros Hc. destruct (digit_is_no_prefix c Hc) as (Hspace & Hminus & Hplus).
  unfold Stream.extract_int. cbn [Stream.skipws]. by rewrite Hspace, Hminus, Hplus.
Qed.

Lemma extract_int_negative r :
  Stream.extract_int (String "-" r) =
  match Stream.digits r false 0 with
  | Some v => if Stream.fits (- v) then Some (- v)%Z else None
  | None => None
  end.
Proof. reflexivity. Qed.

Lemma extract_int_show_int n :
  (Stream.INT_MIN <= n <= INT_MAX)%Z -> Stream.extract_int (show_int n) = Some n.
Proof.
  intros Hn. pose proof (DecimalZ.of_to n) as Hto.
  assert (Stream.fits n = true) as Hfits by (unfold Stream.fits; lia).
  unfold show_int. destruct (Z.to_int n) as [d|d]; cbn [NilZero.string_of_int Z.of_int] in *.
  - destruct (shown_starts_with_digit d) as (c & r & Hshown & Hc).
    rewrite Hshown, extract_int_unsigned, <- Hshown, digits_of_shown, Hto by done.
    by rewrite Hfits.
  - by rewrite extract_int_negative, digits_of_shown, Hto, Hfits.
Qed.

Lemma parse_line_name name :
  Std.has_char "," name = false -> Sequential.parse_line name = [].
Proof.
  intros Hname. destruct name as [|a name]; [done|].
  unfold Sequential.parse_line, Std.getline. by rewrite getline_split_whole.
Qed.

Lemma parse_line_topic_line (sr : Sequential.SearchResult) :
  Std.has_char "," (Sequential.topicName sr) = false ->
  (Stream.INT_MIN <= Sequential.count sr <= INT_MAX)%Z ->
  Sequential.parse_line (Results.topic_line sr) = [sr].
Proof.
  destruct sr as [topic n]. unfold Results.topic_line. cbn [Sequential.topicName Sequential.count].
  intros Htopic Hn. rewrite append_cons, append_nil_l.
  destruct (topic +:+ String "," (show_int n)) as [|a r] eqn:E.
  { destruct topic; discriminate. }
  unfold Sequential.parse_line, Std.getline.
  by rewrite <- E, getline_split_field, extract_int_show_int.
Qed.

Lemma topic_line_no_line_feed (sr : Sequential.SearchResult) :
  Std.has_char "010" (Sequential.topicName sr) = false ->
  Std.has_char "010" (Results.topic_line sr) = false.
Proof.
  intros Htopic. unfold Results.topic_line.
  by rewrite !has_char_append, Htopic, show_int_no_line_feed.
Qed.

Lemma fold_left_snoc {A B : Type} (f : A -> B) (l : list A) (acc : list B) :
  fold_left (fun matches x => matches ++ [f x]) l acc = acc ++ map f l.
Proof.
  revert acc. induction l as [|x l IH]; intros acc; simpl.
  - by rewrite app_nil_r.
  - by rewrite IH, <- app_assoc.
Qed.

Lemma getlines_topics (topics : list Sequential.SearchResult) rest :
  Forall (fun sr => Results.plain (Sequential.topicName sr) /\
                    (Stream.INT_MIN <= Sequential.count sr <= INT_MAX)%Z) topics ->
  Std.getlines
    (fold_right (fun sr rest' =>
                   Sequential.topicName sr +:+ "," +:+ show_int (Sequential.count sr) +:+
                   String "010" "" +:+ rest')
                (String "010" "" +:+ rest) topics) "010" =
  map Results.topic_line topics ++ "" :: Std.getlines rest "010".
Proof.
  induction 1 as [|sr topics [[_ Htopic] _] _ IH]; cbn [fold_right map app].
  - rewrite append_cons, append_nil_l.
    by rewrite <- (append_nil_l (String "010" rest)), getlines_field.
  - rewrite <- IH.
    rewrite <- (getlines_field (Results.topic_line sr))
      by by apply topic_line_no_line_feed.
    f_equal. unfold Results.topic_line. by rewrite !append_assoc.
Qed.

Lemma getlines_results_text (matches : list (string * list Sequential.SearchResult)) :
  Forall Results.storable matches ->
  Std.getlines (Sequential.results_text matches) "010" =
  flat_map Results.lines_written matches.
Proof.
  induction 1 as [|[docName topics] matches [[_ Hname] Htopics] _ IH];
    [reflexivity|].
  cbn [Sequential.results_text fold_right flat_map Results.lines_written fst snd] in *.
  fold (Sequential.results_text matches).
  unfold Results.lines_written at 1. cbn [fst snd app].
  rewrite <- app_assoc. cbn [app]. rewrite <- IH, <- getlines_topics by done.
  by rewrite <- (getlines_field docName) by done.
Qed.

Lemma parse_lines_written (m : string * list Sequential.SearchResult) :
  Results.storable m -> map Sequential.parse_line (Results.lines_written m) = Results.lines_read m.
Proof.
  destruct m as [docName topics]. intros [[Hname _] Htopics].
  unfold Results.lines_written, Results.lines_read. cbn [fst snd map] in *.
  rewrite parse_line_name by done. f_equal.
  rewrite map_app. cbn [map]. f_equal.
  induction Htopics as [|sr topics [[Htopic _] Hn] _ IH]; [done|].
  cbn [map]. by rewrite parse_line_topic_line, IH.
Qed.

End ReadBack.

(** X20: [readResultsFromFile] on the file [writeResultsToFile] wrote does
    not give the matches back.  When the names hold neither a comma nor a
    line feed and the counts are values of an [int], it returns one vector
    for each line of the file, without diagnostic: an empty one for the name
    of each document, one with the result for each topic, and an empty one
    for the line that closes a document. *)
Theorem readResultsFromFile_returns_a_vector_per_line (fs : files) (filename : string)
    (matches : list (string * list Sequential.SearchResult)) :
  fs filename = Some (Sequential.results_text matches) ->
  Forall Results.storable matches ->
  Sequential.readResultsFromFile fs filename =
    proc_ret (flat_map Results.lines_read matches).
Proof.
  intros Hfile Hmatches. unfold Sequential.readResultsFromFile. rewrite Hfile.
  f_equal. rewrite fold_left_snoc, getlines_results_text by done. cbn [app].
  clear Hfile. induction Hmatches as [|m matches Hm _ IH]; [done|].
  cbn [flat_map]. by rewrite map_app, parse_lines_written, IH.
Qed.

Lemma readResultsFromFile_returns_a_vector_per_line_witness :
  let matches :=
    [("a.txt", [{| Sequential.topicName := "Animals"; Sequential.count := 2 |};
                {| Sequential.topicName := "Colors"; Sequential.count := 0 |}]);
     ("b.txt", [])] in
  let fs := fun path : string =>
              if String.eqb path "results.csv"
              then Some (Sequential.results_text matches) else None in
  Sequential.readResultsFromFile fs "results.csv" =
    proc_ret [[]; [{| Sequential.topicName := "Animals"; Sequential.count := 2 |}];
              [{| Sequential.topicName := "Colors"; Sequential.count := 0 |}]; [];
              []; []].
Proof.
  intros matches fs.
  apply (readResultsFromFile_returns_a_vector_per_line fs "results.csv" matches).
  - reflexivity.
  - unfold Results.storable, Results.plain, Stream.INT_MIN, INT_MAX.
    repeat (constructor || split || cbn [fst snd Sequential.topicName Sequential.count] || lia).
Defined.

(** ** Listing the documents *)

Section Listing.

Implicit Types (s e pre stem ext path : string) (c : ascii)
  (entries : Directory.listing) (extensions files : list string).

Lemma last_period_none s :
  Std.has_char "." s = false -> Directory.last_period s = None.
Proof.
  induction s as [|a s IH]; [done|]. cbn [Std.has_char Directory.last_period].
  destruct (Ascii.eqb a "."); [done|]. intros Hs. by rewrite IH.
Qed.

Lemma last_period_some s e :
  Directory.last_period s = Some e -> exists pre, s = pre +:+ e.
Proof.
  revert e. induction s as [|a s IH]; intros e; [done|].
  cbn [Directory.last_period].
  destruct (Directory.last_period s) as [e'|].
  - intros [= <-]. destruct (IH e' eq_refl) as [pre ->].
    exists (String a pre). by rewrite append_cons.
  - destruct (Ascii.eqb a "."); [|done]. intros [= <-]. by exists "".
Qed.

Lemma last_period_append pre e :
  Std.has_char "." e = false ->
  Directory.last_period (pre +:+ String "." e) = Some (String "." e).
Proof.
  intros He. induction pre as [|a pre IH].
  - rewrite append_nil_l. cbn [Directory.last_period].
    by rewrite last_period_none, Ascii.eqb_refl.
  - rewrite append_cons. cbn [Directory.last_period]. by rewrite IH.
Qed.

Lemma extension_simple path ext :
  Directory.simple ext ->
  Directory.extension path = ext <->
  exists stem, stem <> "" /\ Directory.filename path = stem +:+ ext.
Proof.
  intros (e & -> & He & Hperiod). unfold Directory.extension. split.
  - destruct (Directory.filename path) as [|c rest]; [done|].
    destruct (_ && _); [done|].
    destruct (Directory.last_period rest) as [e'|] eqn:Hlast; [|done].
    intros ->. destruct (last_period_some _ _ Hlast) as [pre ->].
    exists (String c pre). by rewrite append_cons.
  - intros (stem & Hstem & ->). destruct stem as [|c pre]; [done|].
    rewrite append_cons.
    assert ((String.length (String c (pre +:+ String "." e)) <=? 2) = false) as ->.
    { apply Nat.leb_gt. cbn [String.length]. rewrite length_append. cbn [String.length].
      destruct e; [done|]. cbn [String.length]. lia. }
    cbn [andb]. by rewrite last_period_append.
Qed.

Lemma existsb_eqb s extensions :
  existsb (String.eqb s) extensions = true <-> In s extensions.
Proof.
  rewrite existsb_exists. split.
  - intros (x & Hin & Heq). apply String.eqb_eq in Heq. by subst.
  - intros Hin. exists s. by rewrite String.eqb_refl.
Qed.

Lemma scan_selects entries extensions files :
  exists selected,
    Directory.scan entries extensions files = files ++ selected /\
    selected `sublist_of` map fst entries /\
    forall path, In path selected <->
                 In (path, true) entries /\ In (Directory.extension path) extensions.
Proof.
  revert files. induction entries as [|[p regular] entries IH]; intros files.
  - exists []. cbn [Directory.scan]. rewrite app_nil_r. split; [done|]. split; [done|].
    intros path. simpl. tauto.
  - cbn [Directory.scan map fst].
    destruct (regular && existsb (String.eqb (Directory.extension p)) extensions) eqn:E.
    + apply andb_prop in E as [-> Hext%existsb_eqb].
      destruct (IH (files ++ [p])) as (selected & -> & Hsub & Hin).
      exists (p :: selected). rewrite <- app_assoc. split; [done|].
      split; [by apply sublist_skip|].
      intros path. cbn [In]. rewrite Hin. split.
      * intros [<-|[? ?]]; [by split; [left|] | by split; [right|]].
      * intros [[[= <-]|?] ?]; [by left | by right].
    + destruct (IH files) as (selected & -> & Hsub & Hin).
      exists selected. split; [done|]. split; [by apply sublist_cons|].
      intros path. rewrite Hin. cbn [In]. split; [intros [? ?]; by split; [right|]|].
      intros [[[= -> ->]|?] Hext]; [|done].
      apply existsb_eqb in Hext. by rewrite Hext in E.
Qed.

End Listing.

(** X21: [getAllFilesInDirectory], for extensions that are a period
    followed by characters other than a period, returns in the order of the
    directory the regular files whose name is a non-empty stem followed by
    one of the extensions, and nothing else: a file named like an extension
    is not returned. *)
Theorem getAllFilesInDirectory_selects_by_extension (entries : Directory.listing)
    (extensions : list string) :
  Forall Directory.simple extensions ->
  exists files,
    Directory.getAllFilesInDirectory (Some entries) extensions = Ret files /\
    files `sublist_of` map fst entries /\
    forall path,
      In path files <->
      In (path, true) entries /\
      exists stem ext,
        stem <> "" /\ In ext extensions /\ Directory.filename path = stem +:+ ext.
Proof.
  intros Hsimple. destruct (scan_selects entries extensions []) as (files & Hscan & Hsub & Hin).
  exists files. cbn [Directory.getAllFilesInDirectory]. rewrite Hscan. split; [done|].
  split; [done|]. intros path. rewrite Hin.
  rewrite Forall_forall in Hsimple. split.
  - intros [Hentry Hext]. split; [done|].
    pose proof (Hsimple _ (proj2 (list_elem_of_In _ _) Hext)) as Hs.
    destruct (proj1 (extension_simple path _ Hs) eq_refl) as (stem & Hstem & Hname).
    by exists stem, (Directory.extension path).
  - intros [Hentry (stem & ext & Hstem & Hext & Hname)]. split; [done|].
    pose proof (Hsimple _ (proj2 (list_elem_of_In _ _) Hext)) as Hs.
    assert (Directory.extension path = ext) as ->; [|done].
    apply extension_simple; [done|]. by exists stem.
Qed.

Lemma getAllFilesInDirectory_selects_by_extension_witness :
  exists files,
    Directory.getAllFilesInDirectory
      (Some [("d/b.tex", true); ("d/.txt", true); ("d/sub.txt", false); ("d/a.txt", true)])
      [".html"; ".txt"; ".tex"] = Ret files /\
    files `sublist_of`
      map fst [("d/b.tex", true); ("d/.txt", true); ("d/sub.txt", false); ("d/a.txt", true)] /\
    forall path,
      In path files <->
      In (path, true)
         [("d/b.tex", true); ("d/.txt", true); ("d/sub.txt", false); ("d/a.txt", true)] /\
      exists stem ext,
        stem <> "" /\ In ext [".html"; ".txt"; ".tex"] /\
        Directory.filename path = stem +:+ ext.
Proof.
  apply (getAllFilesInDirectory_selects_by_extension
           [("d/b.tex", true); ("d/.txt", true); ("d/sub.txt", false); ("d/a.txt", true)]
           [".html"; ".txt"; ".tex"]).
  repeat constructor.
  - by exists "html".
  - by exists "txt".
  - by exists "tex".
Defined.

Lemma relevant_topics_come_from_matches_witness :
  is_Some (Sequential.determineRelevantTopics
             [("a.txt", [{| Sequential.topicName := "Animals"; Sequential.count := 2 |}])]
           !! "a.txt").
Proof.
  apply (proj1 (relevant_topics_come_from_matches
                  [("a.txt", [{| Sequential.topicName := "Animals";
                                 Sequential.count := 2 |}])] "a.txt")
               [{| Sequential.topicName := "Animals"; Sequential.count := 2 |}]).
  left. reflexivity.
Defined.
